(** * terminal-roguelike: the two game loops, embedded and verified

    [backup.py] is the simple variant (integer grid, bullets with a direction,
    enemies that walk towards the player); [main.py] is the richer variant
    (curses, wall map, health and ammo, enemy projectiles, fractional
    positions).  Each Python method becomes a function on an explicit game
    state.  What the programs take from outside (the clock, the random
    generator, the keyboard) is an argument of the function that reads it.

    Numbers.  Python's [int] is [Z].  In [backup.py] the only floating-point
    expression is [int(dx/dist + 0.5)]; it is embedded on Rocq's binary64
    floats, operation for operation.  In [main.py] positions, speeds and times
    are floats used through [+], [*], [/], comparisons, [int] and
    [math.floor]; they are embedded as exact rationals [Q], and [math.sqrt] is
    a parameter of the development, so that everything proved holds whatever
    value the square root returns.  The rationals do not round as binary64
    does: what is stated of [main.py] are the case distinctions, counts and
    invariants of the code, none of which is an identity on the value of a
    position.

    Errors.  An indexing or [list.remove] exception is [None] in the error
    monad below.  Terminal set-up, the registration of colours, sleeping and
    the printing of the finished grid are left out.  The key poll of
    [backup.py] is part of [due_frame]. *)

From Stdlib Require Import ZArith List Bool String Ascii DecimalString QArith Qround Lia Lqa.
From Stdlib Require Import Floats.PrimFloat Floats.FloatOps Floats.SpecFloat.
Import ListNotations.
Open Scope string_scope.
Open Scope list_scope.
Open Scope Z_scope.

(** ** Python primitives shared by the two programs *)

Module Py.

(** The error monad: [None] is a raised exception. *)
Definition bind {A B : Type} (m : option A) (k : A -> option B) : option B :=
  match m with
  | Some a => k a
  | None => None
  end.

(** [l[i]] for a Python list: a negative index counts from the end, an
    index outside [-len, len) raises IndexError. *)
Definition index (len i : Z) : option nat :=
  if (0 <=? i) && (i <? len) then Some (Z.to_nat i)
  else if (- len <=? i) && (i <? 0) then Some (Z.to_nat (len + i))
  else None.

Definition getitem {A : Type} (l : list A) (i : Z) : option A :=
  bind (index (Z.of_nat (List.length l)) i) (fun n => nth_error l n).

(** The list with position [n] overwritten (positions past the end do not
    exist: the list is returned as it is). *)
Fixpoint set_nth {A : Type} (n : nat) (v : A) (l : list A) : list A :=
  match l, n with
  | [], _ => []
  | _ :: t, O => v :: t
  | a :: t, S n' => a :: set_nth n' v t
  end.

(** [l[i] = v]. *)
Definition setitem {A : Type} (l : list A) (i : Z) (v : A) : option (list A) :=
  bind (index (Z.of_nat (List.length l)) i) (fun n => Some (set_nth n v l)).

(** [del l[n]] for a position known to the interpreter. *)
Fixpoint remove_nth {A : Type} (n : nat) (l : list A) : list A :=
  match l, n with
  | [], _ => []
  | _ :: t, O => t
  | a :: t, S n' => a :: remove_nth n' t
  end.

(** [l.remove(v)]: the first element equal to [v] goes; ValueError when
    there is none. *)
Fixpoint remove {A : Type} (eqb : A -> A -> bool) (v : A) (l : list A)
  : option (list A) :=
  match l with
  | [] => None
  | a :: t => if eqb a v then Some t
              else bind (remove eqb v t) (fun t' => Some (a :: t'))
  end.

(** Position of the first element satisfying [f]. *)
Fixpoint find_index {A : Type} (f : A -> bool) (l : list A) : option nat :=
  match l with
  | [] => None
  | a :: t => if f a then Some O
              else match find_index f t with
                   | Some n => Some (S n)
                   | None => None
                   end
  end.

(** [float(z)] for an [int]: the nearest binary64 value. *)
Definition float_of_int (z : Z) : float :=
  SF2Prim (binary_normalize prec emax z 0 false).

(** [int(f)] for a float: truncation towards zero; ValueError on NaN and
    OverflowError on an infinity. *)
Definition int_of_float (f : float) : option Z :=
  match Prim2SF f with
  | S754_zero _ => Some 0
  | S754_finite s m e =>
      let a := if 0 <=? e then Z.shiftl (Z.pos m) e
               else Z.shiftr (Z.pos m) (- e) in
      Some (if s then - a else a)
  | S754_infinity _ => None
  | S754_nan => None
  end.

(** [int(q)] and [math.floor(q)] on the rationals standing for the floats
    of [main.py]. *)
Definition int_of_Q (q : Q) : Z := Z.quot (Qnum q) (Z.pos (Qden q)).
Definition floor (q : Q) : Z := Qfloor q.

(** [bytes([b]).decode('utf-8')] for one byte: a byte below 128 is the
    character of that code, and any other single byte raises
    UnicodeDecodeError (it is a continuation byte, the start of a sequence
    that is cut short, or no start byte at all). *)
Definition decode_utf8 (b : ascii) : option ascii :=
  if (N_of_ascii b <? 128)%N then Some b else None.

(** [c.lower()] for a character of code below 128. *)
Definition lower (c : ascii) : ascii :=
  let n := N_of_ascii c in
  if ((65 <=? n) && (n <=? 90))%N then ascii_of_N (n + 32) else c.

End Py.

Notation "x <- m ;; k" := (Py.bind m (fun x => k))
  (at level 61, m at next level, right associativity).

(** ** The simple variant, [backup.py] *)

Module Backup.

(** [@dataclass class Entity]: the generated [__eq__] compares the six
    fields, so two entities with equal fields are equal to [list.remove]. *)
Record Entity : Type := mkEntity {
  x : Z;
  y : Z;
  char : string;
  dx : Z;
  dy : Z;
  is_enemy : bool
}.

Definition Entity_eqb (a b : Entity) : bool :=
  (x a =? x b) && (y a =? y b) && String.eqb (char a) (char b)
  && (dx a =? dx b) && (dy a =? dy b) && Bool.eqb (is_enemy a) (is_enemy b).

Definition set_xy (e : Entity) (nx ny : Z) : Entity :=
  mkEntity nx ny (char e) (dx e) (dy e) (is_enemy e).

Definition set_char (e : Entity) (c : string) : Entity :=
  mkEntity (x e) (y e) c (dx e) (dy e) (is_enemy e).

Record Game : Type := mkGame {
  width : Z;
  height : Z;
  player : Entity;
  bullets : list Entity;
  enemies : list Entity;
  score : Z;
  game_over : bool;
  last_spawn_time : Q;
  last_update_time : Q
}.

Definition set_player (g : Game) (p : Entity) : Game :=
  mkGame (width g) (height g) p (bullets g) (enemies g) (score g)
         (game_over g) (last_spawn_time g) (last_update_time g).

Definition set_bullets (g : Game) (bs : list Entity) : Game :=
  mkGame (width g) (height g) (player g) bs (enemies g) (score g)
         (game_over g) (last_spawn_time g) (last_update_time g).

Definition set_enemies (g : Game) (es : list Entity) : Game :=
  mkGame (width g) (height g) (player g) (bullets g) es (score g)
         (game_over g) (last_spawn_time g) (last_update_time g).

Definition set_score (g : Game) (s : Z) : Game :=
  mkGame (width g) (height g) (player g) (bullets g) (enemies g) s
         (game_over g) (last_spawn_time g) (last_update_time g).

Definition set_game_over (g : Game) (b : bool) : Game :=
  mkGame (width g) (height g) (player g) (bullets g) (enemies g) (score g)
         b (last_spawn_time g) (last_update_time g).

Definition set_last_spawn_time (g : Game) (t : Q) : Game :=
  mkGame (width g) (height g) (player g) (bullets g) (enemies g) (score g)
         (game_over g) t (last_update_time g).

Definition set_last_update_time (g : Game) (t : Q) : Game :=
  mkGame (width g) (height g) (player g) (bullets g) (enemies g) (score g)
         (game_over g) (last_spawn_time g) t.

(** [Game.__init__(width, height)]; [t_spawn] and [t_update] are the values
    of its two calls of [time.time()].  [main] calls [Game()], that is 40 by
    20. *)
Definition init (w h : Z) (t_spawn t_update : Q) : Game :=
  mkGame w h (mkEntity (w / 2) (h / 2) "@" 0 0 false) [] [] 0 false
         t_spawn t_update.

(** [spawn_enemy]: [side] is the value of [random.choice] and [r] the value
    of the [random.randint] of that side. *)
Inductive Side : Type := top | bottom | left | right.

Definition spawn_enemy (current_time : Q) (side : Side) (r : Z) (g : Game)
  : Game :=
  if Qle_bool 1 (current_time - last_spawn_time g) then
    let '(ex, ey) :=
      match side with
      | top => (r, 0)
      | bottom => (r, height g - 1)
      | left => (0, r)
      | right => (width g - 1, r)
      end in
    set_last_spawn_time
      (set_enemies g (enemies g ++ [mkEntity ex ey "E" 0 0 true]))
      current_time
  else g.

(** [int(d/dist + 0.5)], on binary64 as Python evaluates it. *)
Definition rounded (d : Z) (dist : float) : option Z :=
  Py.int_of_float (PrimFloat.add (PrimFloat.div (Py.float_of_int d) dist) 0.5%float).

(** The body of the loop of [move_enemies] up to the collision test: the
    enemy [e] after its move. *)
Definition move_enemy (p e : Entity) : option Entity :=
  let ddx := x p - x e in
  let ddy := y p - y e in
  let dist := PrimFloat.sqrt (Py.float_of_int (ddx * ddx + ddy * ddy)) in
  if negb (PrimFloat.eqb dist 0%float) then
    sx <- rounded ddx dist ;;
    sy <- rounded ddy dist ;;
    Some (set_xy e (x e + sx) (y e + sy))
  else Some e.

Definition touches (p e : Entity) : bool := (x e =? x p) && (y e =? y p).

(** [move_enemies]: the enemies are mutated in place, in list order; the
    flag is raised by the first enemy found on the player's cell. *)
Fixpoint move_enemies_loop (p : Entity) (es : list Entity) (over : bool)
  : option (list Entity * bool) :=
  match es with
  | [] => Some ([], over)
  | e :: rest =>
      e' <- move_enemy p e ;;
      r <- move_enemies_loop p rest (if touches p e' then true else over) ;;
      Some (e' :: fst r, snd r)
  end.

Definition move_enemies (g : Game) : option Game :=
  r <- move_enemies_loop (player g) (enemies g) (game_over g) ;;
  Some (set_game_over (set_enemies g (fst r)) (snd r)).

(** [shoot(direction)]. *)
Definition bullet_char (ddx ddy : Z) : string :=
  if ddx =? 1 then "→"
  else if ddx =? -1 then "←"
  else if ddy =? 1 then "↓"
  else if ddy =? -1 then "↑"
  else "→".

Definition shoot (direction : Z * Z) (g : Game) : Game :=
  let '(ddx, ddy) := direction in
  let bullet := mkEntity (x (player g) + ddx) (y (player g) + ddy) "→" ddx ddy false in
  let bullet := set_char bullet (bullet_char ddx ddy) in
  set_bullets g (bullets g ++ [bullet]).

(** [update_bullets].  The [for] runs over the copy [self.bullets[:]], whose
    objects are the ones of the live list.  [n] counts the objects of the
    copy still to visit and [i] is the position of the current one in the
    live list: a removal takes the first element equal to the current
    bullet, which sits at or before [i], so the next object of the copy is
    found at [i] after a removal and at [i+1] otherwise. *)
Definition advance (b : Entity) : Entity :=
  set_xy b (x b + dx b) (y b + dy b).

Definition off_grid (w h : Z) (b : Entity) : bool :=
  (x b <? 0) || (w <=? x b) || (y b <? 0) || (h <=? y b).

Definition hits (b e : Entity) : bool := (x b =? x e) && (y b =? y e).

Fixpoint update_bullets_loop (n i : nat) (g : Game) : option Game :=
  match n with
  | O => Some g
  | S n' =>
      b <- nth_error (bullets g) i ;;
      let bullet := advance b in
      let g1 := set_bullets g (Py.set_nth i bullet (bullets g)) in
      if off_grid (width g1) (height g1) bullet then
        bs <- Py.remove Entity_eqb bullet (bullets g1) ;;
        update_bullets_loop n' i (set_bullets g1 bs)
      else
        match find (hits bullet) (enemies g1) with
        | Some enemy =>
            es <- Py.remove Entity_eqb enemy (enemies g1) ;;
            bs <- Py.remove Entity_eqb bullet (bullets g1) ;;
            update_bullets_loop n' i
              (set_score (set_bullets (set_enemies g1 es) bs) (score g1 + 10))
        | None => update_bullets_loop n' (S i) g1
        end
  end.

Definition update_bullets (g : Game) : option Game :=
  update_bullets_loop (List.length (bullets g)) 0 g.

(** [draw]: the character grid that is printed.  [grid[e.y][e.x] = e.char]
    indexes the list of rows and then the row, each with Python's
    indexing. *)
Definition Grid : Type := list (list string).

Definition empty_grid (w h : Z) : Grid :=
  repeat (repeat " " (Z.to_nat w)) (Z.to_nat h).

Definition put (grid : Grid) (e : Entity) : option Grid :=
  row <- Py.getitem grid (y e) ;;
  row' <- Py.setitem row (x e) (char e) ;;
  Py.setitem grid (y e) row'.

Fixpoint put_all (grid : Grid) (es : list Entity) : option Grid :=
  match es with
  | [] => Some grid
  | e :: rest => grid' <- put grid e ;; put_all grid' rest
  end.

Definition draw (g : Game) : option Grid :=
  let grid := empty_grid (width g) (height g) in
  grid <- put_all grid (bullets g) ;;
  grid <- put_all grid (enemies g) ;;
  put grid (player g).

Definition cell (grid : Grid) (cy cx : Z) : option string :=
  row <- Py.getitem grid cy ;; Py.getitem row cx.

(** The key handling of [main] for a key other than [q] (which leaves the
    loop): one [if]/[elif] chain. *)
Definition handle_char (c : ascii) (g : Game) : Game :=
  let p := player g in
  if Ascii.eqb c "w" && (0 <? y p) then set_player g (set_xy p (x p) (y p - 1))
  else if Ascii.eqb c "s" && (y p <? height g - 1) then
    set_player g (set_xy p (x p) (y p + 1))
  else if Ascii.eqb c "a" && (0 <? x p) then set_player g (set_xy p (x p - 1) (y p))
  else if Ascii.eqb c "d" && (x p <? width g - 1) then
    set_player g (set_xy p (x p + 1) (y p))
  else if Ascii.eqb c "i" then shoot (0, -1) g
  else if Ascii.eqb c "k" then shoot (0, 1) g
  else if Ascii.eqb c "j" then shoot (-1, 0) g
  else if Ascii.eqb c "l" then shoot (1, 0) g
  else g.

(** What one frame reads from outside: the key, the clock read by [main],
    the clock read by [spawn_enemy], and the two random draws of a spawn. *)
Record FrameInput : Type := mkFrameInput {
  key : option ascii;
  current_time : Q;
  spawn_time : Q;
  side : Side;
  randint : Z
}.

Definition frame_delay : Q := 5 # 100.

(** The body of [while not game.game_over] when a frame is due, from the
    key handling on: [key inp] is the character that the key poll has read,
    [None] when no key is waiting.  The poll itself, which can raise, is
    part of [due_frame]. *)
Definition frame (inp : FrameInput) (g : Game) : option Game :=
  let g := match key inp with
           | Some c => handle_char c g
           | None => g
           end in
  let g := spawn_enemy (spawn_time inp) (side inp) (randint inp) g in
  g <- move_enemies g ;;
  g <- update_bullets g ;;
  _ <- draw g ;;
  Some (set_last_update_time g (current_time inp)).

(** The contract of [random.randint(0, n-1)] for the side drawn. *)
Definition randint_ok (g : Game) (inp : FrameInput) : Prop :=
  match side inp with
  | top | bottom => 0 <= randint inp <= width g - 1
  | left | right => 0 <= randint inp <= height g - 1
  end.

(** The states at the top of the loop of [main]. *)
Inductive reachable : Game -> Prop :=
| reach_init : forall t_spawn t_update, reachable (init 40 20 t_spawn t_update)
| reach_frame : forall g inp g',
    reachable g ->
    game_over g = false ->
    key inp <> Some "q"%char ->
    Qle frame_delay (current_time inp - last_update_time g) ->
    randint_ok g inp ->
    frame inp g = Some g' ->
    reachable g'.

(** The loop of [update_bullets] over values: the bullets already visited
    and kept ([kept], in order), the enemies left and the score; what it
    returns is proved equal to what the loop over the live list returns. *)
Fixpoint sweep (w h : Z) (todo kept es : list Entity) (sc : Z)
  : list Entity * list Entity * Z :=
  match todo with
  | [] => (kept, es, sc)
  | b :: rest =>
      let bullet := advance b in
      if off_grid w h bullet then sweep w h rest kept es sc
      else match Py.find_index (hits bullet) es with
           | Some j => sweep w h rest kept (Py.remove_nth j es) (sc + 10)
           | None => sweep w h rest (kept ++ [bullet]) es sc
           end
  end.

Definition in_grid (w h : Z) (e : Entity) : Prop :=
  0 <= x e < w /\ 0 <= y e < h.

(** The game with the bullets, enemies and score that [sweep] returns. *)
Definition swept (g : Game) (r : list Entity * list Entity * Z) : Game :=
  mkGame (width g) (height g) (player g) (fst (fst r)) (snd (fst r)) (snd r)
         (game_over g) (last_spawn_time g) (last_update_time g).

(** What [move_enemy] adds to a coordinate, over the integers: with [d] the
    displacement to the player on that axis and [e] the one on the other axis,
    1 when [d > 0] and [d / sqrt (d^2 + e^2) >= 1/2], and 0 otherwise.  It is
    checked against the floating-point computation on every displacement of
    the 40 by 20 grid ([stride_table]). *)
Definition stride (d e : Z) : Z :=
  if (0 <? d) && (e * e <=? 3 * d * d) then 1 else 0.

Definition stride_agrees (d e : Z) : bool :=
  match move_enemy (mkEntity d e "@" 0 0 false) (mkEntity 0 0 "E" 0 0 true) with
  | Some e' => (x e' =? stride d e) && (y e' =? stride e d)
  | None => false
  end.

Definition span (n : Z) : list Z :=
  List.map (fun k => Z.of_nat k - n) (seq 0 (Z.to_nat (2 * n + 1))).

Definition stride_table (n : Z) : bool :=
  forallb (fun d => forallb (stride_agrees d) (span n)) (span n).

(** The invariant of the loop of [main]. *)
Definition on_grid (g : Game) : Prop :=
  width g = 40 /\ height g = 20
  /\ in_grid 40 20 (player g)
  /\ Forall (in_grid 40 20) (enemies g)
  /\ Forall (in_grid 40 20) (bullets g).

(** A bullet the loop has visited and kept: on the grid, on no enemy's cell. *)
Definition settled (w h : Z) (es : list Entity) (b : Entity) : Prop :=
  off_grid w h b = false /\ find (hits b) es = None.

(** The loop of [main] over a list of inputs, one frame each; [None] also
    when a frame is not one the loop would run (flag raised, key [q], frame
    not due, a value [randint] cannot return). *)
Definition randint_ok_b (g : Game) (inp : FrameInput) : bool :=
  match side inp with
  | top | bottom => (0 <=? randint inp) && (randint inp <=? width g - 1)
  | left | right => (0 <=? randint inp) && (randint inp <=? height g - 1)
  end.

Definition is_quit (k : option ascii) : bool :=
  match k with
  | Some c => Ascii.eqb c "q"
  | None => false
  end.

Fixpoint run_frames (inps : list FrameInput) (g : Game) : option Game :=
  match inps with
  | [] => Some g
  | inp :: rest =>
      if negb (game_over g) && negb (is_quit (key inp))
         && Qle_bool frame_delay (current_time inp - last_update_time g)
         && randint_ok_b g inp
      then g' <- frame inp g ;; run_frames rest g'
      else None
  end.

(** The enemy [e] after the step of [move_enemies] towards [p], over the
    integers. *)
Definition pulled (p e : Entity) : Entity :=
  set_xy e (x e + stride (x p - x e) (y p - y e))
           (y e + stride (y p - y e) (x p - x e)).

(** What [draw] leaves on the cell of row [cy] and column [cx]: the player,
    else the last enemy of the list on the cell, else the last bullet, else
    a blank. *)
Definition at_cell (cy cx : Z) (e : Entity) : bool :=
  (y e =? cy) && (x e =? cx).

Definition glyph_at (g : Game) (cy cx : Z) : string :=
  if at_cell cy cx (player g) then char (player g)
  else match find (at_cell cy cx) (rev (enemies g)) with
       | Some e => char e
       | None =>
           match find (at_cell cy cx) (rev (bullets g)) with
           | Some b => char b
           | None => " "
           end
       end.

(** The entities the loop of [main] builds: the player of [Game.__init__],
    the enemies of [spawn_enemy] and the bullets of the four shooting
    keys. *)
Definition is_player (e : Entity) : Prop :=
  char e = "@" /\ dx e = 0 /\ dy e = 0 /\ is_enemy e = false.

Definition is_foe (e : Entity) : Prop :=
  char e = "E" /\ dx e = 0 /\ dy e = 0 /\ is_enemy e = true.

Definition is_shot (b : Entity) : Prop :=
  is_enemy b = false
  /\ ((dx b = 0 /\ dy b = -1 /\ char b = "↑")
      \/ (dx b = 0 /\ dy b = 1 /\ char b = "↓")
      \/ (dx b = -1 /\ dy b = 0 /\ char b = "←")
      \/ (dx b = 1 /\ dy b = 0 /\ char b = "→")).

Definition typed (g : Game) : Prop :=
  is_player (player g)
  /\ Forall is_foe (enemies g)
  /\ Forall is_shot (bullets g)
  /\ exists k, 0 <= k /\ score g = 10 * k.

(** Whether [spawn_enemy] adds an enemy at clock [now]. *)
Definition spawn_due (now : Q) (g : Game) : bool :=
  Qle_bool 1 (now - last_spawn_time g).

(** The state after the key handling of a frame. *)
Definition keyed (inp : FrameInput) (g : Game) : Game :=
  match key inp with
  | Some c => handle_char c g
  | None => g
  end.

(** The collisions the loop of [update_bullets] detects: the bullets, taken
    in order, whose advanced position is on the grid and on the cell of an
    enemy that is still there. *)
Fixpoint kills (w h : Z) (todo es : list Entity) : nat :=
  match todo with
  | [] => O
  | b :: rest =>
      let bullet := advance b in
      if off_grid w h bullet then kills w h rest es
      else match Py.find_index (hits bullet) es with
           | Some j => S (kills w h rest (Py.remove_nth j es))
           | None => kills w h rest es
           end
  end.

(** The two branches of [main]: [os.name != 'nt'] and the Windows one. *)
Inductive Platform : Type := posix | nt.

(** [get_key()] on Windows: [waiting] is [None] when [msvcrt.kbhit()] is
    false and the byte that [msvcrt.getch()] returns otherwise.  The outer
    [None] is the exception raised by [decode]. *)
Definition get_key (waiting : option ascii) : option (option ascii) :=
  match waiting with
  | None => Some None
  | Some b => c <- Py.decode_utf8 b ;; Some (Some (Py.lower c))
  end.

(** How a frame that is due ends: an exception leaves [main], [break]
    leaves the loop, or the loop goes on with the next state. *)
Inductive Outcome : Type :=
| Raised
| Quit
| Next (g : Game).

Definition with_key (inp : FrameInput) (k : option ascii) : FrameInput :=
  mkFrameInput k (current_time inp) (spawn_time inp) (side inp) (randint inp).

(** The body of [if current_time - game.last_update_time >= frame_delay]
    with its key poll.  On the first branch the poll is
    [select.select(...)], and [select] is a name the module never binds:
    evaluating it raises NameError before anything else of the frame is
    done.  On Windows the poll is [get_key()]; a key is a string of one
    character, which [if char:] takes as true.  The steps of [frame] follow;
    the printing of [draw] is not part of the model. *)
Definition due_frame (pf : Platform) (waiting : option ascii)
  (inp : FrameInput) (g : Game) : Outcome :=
  match pf with
  | posix => Raised
  | nt =>
      match get_key waiting with
      | None => Raised
      | Some k =>
          if is_quit k then Quit
          else match frame (with_key inp k) g with
               | Some g' => Next g'
               | None => Raised
               end
      end
  end.

End Backup.

(** ** The richer variant, [main.py] *)

Module Main.

Definition MAP_WIDTH : Z := 40.
Definition MAP_HEIGHT : Z := 20.
Definition NUM_ENEMIES : nat := 10.
Definition WALL_DENSITY : Z := 30.

Definition PLAYER_CHAR : string := "@".
Definition ENEMY_CHAR : string := "E".
Definition WALL_CHAR : string := "#".
Definition FLOOR_CHAR : string := ".".
Definition ARROW_CHAR : string := "*".
Definition ENEMY_ARROW_CHAR : string := "+".

Definition COLOR_PLAYER : Z := 1.
Definition COLOR_ENEMY : Z := 2.
Definition COLOR_WALL : Z := 3.
Definition COLOR_FLOOR : Z := 4.
Definition COLOR_PROJECTILE : Z := 5.
Definition COLOR_ENEMY_PROJECTILE : Z := 6.
Definition COLOR_STATUS : Z := 7.
Definition COLOR_WIN_MESSAGE : Z := 8.

(** The three classes.  None defines [__eq__]: [list.remove] finds an
    object by identity, which is its position in the list. *)
Module Player.
Record t : Type := mk {
  x : Z; y : Z; char : string; health : Z; speed : Z; ammo : Z
}.
(** [Player(x, y)] *)
Definition new (px py : Z) : t := mk px py PLAYER_CHAR 100 1 10.
Definition set_xy (p : t) (nx ny : Z) : t :=
  mk nx ny (char p) (health p) (speed p) (ammo p).
Definition set_health (p : t) (v : Z) : t :=
  mk (x p) (y p) (char p) v (speed p) (ammo p).
Definition set_ammo (p : t) (v : Z) : t :=
  mk (x p) (y p) (char p) (health p) (speed p) v.
End Player.

Module Enemy.
Record t : Type := mk {
  x : Q; y : Q; char : string; health : Z; speed : Q;
  last_shot_time : Q; shoot_delay : Q
}.
(** [Enemy(x, y)]: [now] is [time.time()] and [delay] the value of
    [random.uniform(1, 3)]. *)
Definition new (ex ey : Z) (now delay : Q) : t :=
  mk (inject_Z ex) (inject_Z ey) ENEMY_CHAR 50 (1 # 2) now delay.
Definition set_xy (e : t) (nx ny : Q) : t :=
  mk nx ny (char e) (health e) (speed e) (last_shot_time e) (shoot_delay e).
Definition set_timer (e : t) (now delay : Q) : t :=
  mk (x e) (y e) (char e) (health e) (speed e) now delay.
End Enemy.

Module Projectile.
Record t : Type := mk {
  x : Q; y : Q; char : string; dx : Q; dy : Q; speed : Q; is_enemy : bool
}.
(** [Projectile(x, y, dx, dy, is_enemy)] *)
Definition new (px py pdx pdy : Q) (enemy : bool) : t :=
  mk px py (if enemy then ENEMY_ARROW_CHAR else ARROW_CHAR) pdx pdy 2 enemy.
Definition set_xy (p : t) (nx ny : Q) : t :=
  mk nx ny (char p) (dx p) (dy p) (speed p) (is_enemy p).
End Projectile.

Record Game : Type := mkGame {
  width : Z;
  height : Z;
  map : list (list string);
  player : Player.t;
  enemies : list Enemy.t;
  projectiles : list Projectile.t;
  last_update : Q;
  game_over : bool
}.

Definition set_player (g : Game) (p : Player.t) : Game :=
  mkGame (width g) (height g) (map g) p (enemies g) (projectiles g)
         (last_update g) (game_over g).
Definition set_enemies (g : Game) (es : list Enemy.t) : Game :=
  mkGame (width g) (height g) (map g) (player g) es (projectiles g)
         (last_update g) (game_over g).
Definition set_projectiles (g : Game) (ps : list Projectile.t) : Game :=
  mkGame (width g) (height g) (map g) (player g) (enemies g) ps
         (last_update g) (game_over g).
Definition set_last_update (g : Game) (t : Q) : Game :=
  mkGame (width g) (height g) (map g) (player g) (enemies g) (projectiles g)
         t (game_over g).
Definition set_game_over (g : Game) (b : bool) : Game :=
  mkGame (width g) (height g) (map g) (player g) (enemies g) (projectiles g)
         (last_update g) b.

Definition Qlt_bool (a b : Q) : bool := negb (Qle_bool b a).

(** [random.uniform(a, b)] is [a + (b-a) * random()]; [u] is the value of
    [random()], in [0, 1). *)
Definition uniform (a b u : Q) : Q := (a + (b - a) * u)%Q.

(** [m[cy][cx]] *)
Definition tile (m : list (list string)) (cy cx : Z) : option string :=
  row <- Py.getitem m cy ;; Py.getitem row cx.

(** [m[cy][cx] = c] *)
Definition set_tile (m : list (list string)) (cy cx : Z) (c : string)
  : option (list (list string)) :=
  row <- Py.getitem m cy ;;
  row' <- Py.setitem row cx c ;;
  Py.setitem m cy row'.

(** [generate_map]: [walls i] is the pair [(x, y)] of [randint]s drawn in
    round [i] of the last loop. *)
Fixpoint border_rows (m : list (list string)) (h : Z) (xs : list nat)
  : option (list (list string)) :=
  match xs with
  | [] => Some m
  | cx :: rest =>
      m <- set_tile m 0 (Z.of_nat cx) WALL_CHAR ;;
      m <- set_tile m (h - 1) (Z.of_nat cx) WALL_CHAR ;;
      border_rows m h rest
  end.

Fixpoint border_columns (m : list (list string)) (w : Z) (ys : list nat)
  : option (list (list string)) :=
  match ys with
  | [] => Some m
  | cy :: rest =>
      m <- set_tile m (Z.of_nat cy) 0 WALL_CHAR ;;
      m <- set_tile m (Z.of_nat cy) (w - 1) WALL_CHAR ;;
      border_columns m w rest
  end.

Fixpoint random_walls (m : list (list string)) (walls : nat -> Z * Z)
  (rounds : list nat) : option (list (list string)) :=
  match rounds with
  | [] => Some m
  | i :: rest =>
      m <- set_tile m (snd (walls i)) (fst (walls i)) WALL_CHAR ;;
      random_walls m walls rest
  end.

(** The floor grid with its four border walls: the part of [generate_map]
    before the random walls. *)
Definition borders (w h : Z) : option (list (list string)) :=
  let map_grid := repeat (repeat FLOOR_CHAR (Z.to_nat w)) (Z.to_nat h) in
  map_grid <- border_rows map_grid h (seq 0 (Z.to_nat w)) ;;
  border_columns map_grid w (seq 0 (Z.to_nat h)).

Definition generate_map (w h : Z) (walls : nat -> Z * Z)
  : option (list (list string)) :=
  map_grid <- borders w h ;;
  random_walls map_grid walls (seq 0 (Z.to_nat (w * h / WALL_DENSITY))).

(** [spawn_entity]: [draws] are the pairs drawn by the successive rounds of
    [while True]; the result is the first one on a floor tile, and [None]
    also stands for a loop that has not returned within [draws]. *)
Fixpoint spawn_entity (m : list (list string)) (draws : list (Z * Z))
  : option (Z * Z) :=
  match draws with
  | [] => None
  | (sx, sy) :: rest =>
      c <- tile m sy sx ;;
      if String.eqb c FLOOR_CHAR then Some (sx, sy) else spawn_entity m rest
  end.

(** What [Game.__init__] reads from outside. *)
Record Seed : Type := mkSeed {
  walls : nat -> Z * Z;
  player_draws : list (Z * Z);
  enemy_draws : nat -> list (Z * Z);
  enemy_clock : nat -> Q;
  enemy_random : nat -> Q;
  start_time : Q
}.

Fixpoint spawn_enemies (m : list (list string)) (sd : Seed) (ks : list nat)
  : option (list Enemy.t) :=
  match ks with
  | [] => Some []
  | k :: rest =>
      pos <- spawn_entity m (enemy_draws sd k) ;;
      es <- spawn_enemies m sd rest ;;
      Some (Enemy.new (fst pos) (snd pos) (enemy_clock sd k)
              (uniform 1 3 (enemy_random sd k)) :: es)
  end.

(** [Game.__init__] *)
Definition init (sd : Seed) : option Game :=
  m <- generate_map MAP_WIDTH MAP_HEIGHT (walls sd) ;;
  pos <- spawn_entity m (player_draws sd) ;;
  es <- spawn_enemies m sd (seq 0 NUM_ENEMIES) ;;
  Some (mkGame MAP_WIDTH MAP_HEIGHT m (Player.new (fst pos) (snd pos)) es []
          (start_time sd) false).

(** [move_entity], which the program calls on the player only. *)
Definition move_entity (g : Game) (ddx ddy : Z) : option Game :=
  let new_x := Player.x (player g) + ddx in
  let new_y := Player.y (player g) + ddy in
  if (0 <=? new_x) && (new_x <? width g) && (0 <=? new_y) && (new_y <? height g)
  then
    c <- tile (map g) new_y new_x ;;
    if String.eqb c FLOOR_CHAR
    then Some (set_player g (Player.set_xy (player g) new_x new_y))
    else Some g
  else Some g.

(** [shoot(x, y, dx, dy, is_enemy)] *)
Definition shoot (sx sy sdx sdy : Q) (enemy : bool) (g : Game) : Game :=
  if negb enemy then
    if Player.ammo (player g) <=? 0 then g
    else
      let g := set_player g (Player.set_ammo (player g) (Player.ammo (player g) - 1)) in
      set_projectiles g (projectiles g ++ [Projectile.new sx sy sdx sdy enemy])
  else set_projectiles g (projectiles g ++ [Projectile.new sx sy sdx sdy enemy]).

(** What [getch] returns. *)
Inductive Key : Type :=
| KEY_UP | KEY_DOWN | KEY_LEFT | KEY_RIGHT
| Char (c : ascii)
| NoKey.

Definition player_shoot (g : Game) (sdx sdy : Z) : Game :=
  shoot (inject_Z (Player.x (player g))) (inject_Z (Player.y (player g)))
        (inject_Z sdx) (inject_Z sdy) false g.

(** [handle_input] *)
Definition handle_input (k : Key) (g : Game) : option Game :=
  match k with
  | KEY_UP => move_entity g 0 (-1)
  | KEY_DOWN => move_entity g 0 1
  | KEY_LEFT => move_entity g (-1) 0
  | KEY_RIGHT => move_entity g 1 0
  | Char c =>
      if Ascii.eqb c "w" then Some (player_shoot g 0 (-1))
      else if Ascii.eqb c "s" then Some (player_shoot g 0 1)
      else if Ascii.eqb c "a" then Some (player_shoot g (-1) 0)
      else if Ascii.eqb c "d" then Some (player_shoot g 1 0)
      else if Ascii.eqb c "q" then Some (player_shoot g (-1) (-1))
      else if Ascii.eqb c "e" then Some (player_shoot g 1 (-1))
      else if Ascii.eqb c "z" then Some (player_shoot g (-1) 1)
      else if Ascii.eqb c "c" then Some (player_shoot g 1 1)
      else if Ascii.eqb c "x" then Some (set_game_over g true)
      else Some g
  | NoKey => Some g
  end.

(** The screen is the log of the [addch] calls since [clear], the latest
    first: the glyph seen at a cell is the latest one written there.
    [win] is [getmaxyx()]; writing outside the window raises.  Beyond this
    model, curses also raises when the bottom-right cell of the window is
    written, and [addstr] wraps a text that passes the right edge onto the
    next row: the model and curses agree when nothing is written on the
    bottom row's last cell and the status line is shorter than the window
    is wide, and what is stated of the whole screen is stated there. *)
Definition Screen : Type := list (Z * Z * (string * Z)).

Definition addch (win : Z * Z) (cy cx : Z) (ch : string) (attr : Z)
  (scr : Screen) : option Screen :=
  if (0 <=? cy) && (cy <? fst win) && (0 <=? cx) && (cx <? snd win)
  then Some ((cy, cx, (ch, attr)) :: scr)
  else None.

Fixpoint addstr (win : Z * Z) (cy cx : Z) (s : string) (attr : Z)
  (scr : Screen) : option Screen :=
  match s with
  | EmptyString => Some scr
  | String c rest =>
      scr <- addch win cy cx (String c EmptyString) attr scr ;;
      addstr win cy (cx + 1) rest attr scr
  end.

Fixpoint shown (scr : Screen) (cy cx : Z) : option (string * Z) :=
  match scr with
  | [] => None
  | (wy, wx, c) :: older =>
      if (wy =? cy) && (wx =? cx) then Some c else shown older cy cx
  end.

Definition str (z : Z) : string := DecimalString.NilZero.string_of_int (Z.to_int z).

Fixpoint render_row (win : Z * Z) (m : list (list string)) (cy : Z)
  (xs : list nat) (scr : Screen) : option Screen :=
  match xs with
  | [] => Some scr
  | cx :: rest =>
      c <- tile m cy (Z.of_nat cx) ;;
      scr <- addch win cy (Z.of_nat cx) c
               (if String.eqb c WALL_CHAR then COLOR_WALL else COLOR_FLOOR) scr ;;
      render_row win m cy rest scr
  end.

Fixpoint render_map (win : Z * Z) (m : list (list string)) (w : Z)
  (ys : list nat) (scr : Screen) : option Screen :=
  match ys with
  | [] => Some scr
  | cy :: rest =>
      scr <- render_row win m (Z.of_nat cy) (seq 0 (Z.to_nat w)) scr ;;
      render_map win m w rest scr
  end.

Fixpoint render_enemies (win : Z * Z) (es : list Enemy.t) (scr : Screen)
  : option Screen :=
  match es with
  | [] => Some scr
  | enemy :: rest =>
      scr <- addch win (Py.int_of_Q (Enemy.y enemy)) (Py.int_of_Q (Enemy.x enemy))
               (Enemy.char enemy) COLOR_ENEMY scr ;;
      render_enemies win rest scr
  end.

Fixpoint render_projectiles (win : Z * Z) (ps : list Projectile.t)
  (scr : Screen) : option Screen :=
  match ps with
  | [] => Some scr
  | projectile :: rest =>
      let color := if Projectile.is_enemy projectile
                   then COLOR_ENEMY_PROJECTILE else COLOR_PROJECTILE in
      scr <- addch win (Py.int_of_Q (Projectile.y projectile))
               (Py.int_of_Q (Projectile.x projectile))
               (Projectile.char projectile) color scr ;;
      render_projectiles win rest scr
  end.

(** [render] *)
Definition render (win : Z * Z) (g : Game) : option Screen :=
  scr <- render_map win (map g) (width g) (seq 0 (Z.to_nat (height g))) [] ;;
  scr <- addch win (Player.y (player g)) (Player.x (player g))
           (Player.char (player g)) COLOR_PLAYER scr ;;
  scr <- render_enemies win (enemies g) scr ;;
  scr <- render_projectiles win (projectiles g) scr ;;
  let status :=
    ("Enemies Left: " ++ str (Z.of_nat (List.length (enemies g)))
     ++ " | Player Health: " ++ str (Player.health (player g))
     ++ " | Ammo: " ++ str (Player.ammo (player g)))%string in
  addstr win (height g) 0 status COLOR_STATUS scr.

(** [update_projectiles]: the part of the loop body before the tests. *)
Definition advance (delta_time : Q) (p : Projectile.t) : Projectile.t :=
  Projectile.set_xy p
    (Projectile.x p + Projectile.dx p * Projectile.speed p * delta_time)%Q
    (Projectile.y p + Projectile.dy p * Projectile.speed p * delta_time)%Q.

Definition off_grid (w h : Z) (p : Projectile.t) : bool :=
  Qlt_bool (Projectile.x p) 0 || Qle_bool (inject_Z w) (Projectile.x p)
  || Qlt_bool (Projectile.y p) 0 || Qle_bool (inject_Z h) (Projectile.y p).

Definition on_player (pl : Player.t) (p : Projectile.t) : bool :=
  (Py.floor (inject_Z (Player.x pl)) =? Py.floor (Projectile.x p))
  && (Py.floor (inject_Z (Player.y pl)) =? Py.floor (Projectile.y p)).

Definition on_enemy (p : Projectile.t) (e : Enemy.t) : bool :=
  (Py.floor (Enemy.x e) =? Py.floor (Projectile.x p))
  && (Py.floor (Enemy.y e) =? Py.floor (Projectile.y p)).

(** [update_projectiles].  As in [backup.py] the [for] runs over a copy of
    the list; [n] objects of the copy are left and the current one is at
    position [i] of the live list.  [remove] takes the object itself. *)
Fixpoint update_projectiles_loop (delta_time : Q) (n i : nat) (g : Game)
  : option Game :=
  match n with
  | O => Some g
  | S n' =>
      p <- nth_error (projectiles g) i ;;
      let projectile := advance delta_time p in
      let g := set_projectiles g (Py.set_nth i projectile (projectiles g)) in
      if off_grid (width g) (height g) projectile then
        update_projectiles_loop delta_time n' i
          (set_projectiles g (Py.remove_nth i (projectiles g)))
      else
        c <- tile (map g) (Py.int_of_Q (Projectile.y projectile))
               (Py.int_of_Q (Projectile.x projectile)) ;;
        if String.eqb c WALL_CHAR then
          update_projectiles_loop delta_time n' i
            (set_projectiles g (Py.remove_nth i (projectiles g)))
        else if Projectile.is_enemy projectile then
          if on_player (player g) projectile then
            let g := set_player g
                       (Player.set_health (player g)
                          (Player.health (player g) - 10)) in
            let g := set_projectiles g (Py.remove_nth i (projectiles g)) in
            let g := if Player.health (player g) <=? 0
                     then set_game_over g true else g in
            update_projectiles_loop delta_time n' i g
          else update_projectiles_loop delta_time n' (S i) g
        else
          match Py.find_index (on_enemy projectile) (enemies g) with
          | Some j =>
              let g := set_projectiles g (Py.remove_nth i (projectiles g)) in
              let g := set_enemies g (Py.remove_nth j (enemies g)) in
              let g := set_player g
                         (Player.set_ammo (player g)
                            (Player.ammo (player g) + 2)) in
              update_projectiles_loop delta_time n' i g
          | None => update_projectiles_loop delta_time n' (S i) g
          end
  end.

Definition update_projectiles (delta_time : Q) (g : Game) : option Game :=
  update_projectiles_loop delta_time (List.length (projectiles g)) 0 g.

(** The loop of [update_projectiles] over values: the projectiles visited
    and kept, the enemies left, the player and the flag.  It is proved equal
    to the loop over the live list. *)
Fixpoint sweep (delta_time : Q) (w h : Z) (m : list (list string))
  (todo kept : list Projectile.t) (es : list Enemy.t) (pl : Player.t)
  (over : bool)
  : option (list Projectile.t * list Enemy.t * Player.t * bool) :=
  match todo with
  | [] => Some (kept, es, pl, over)
  | p :: rest =>
      let projectile := advance delta_time p in
      if off_grid w h projectile then sweep delta_time w h m rest kept es pl over
      else
        c <- tile m (Py.int_of_Q (Projectile.y projectile))
               (Py.int_of_Q (Projectile.x projectile)) ;;
        if String.eqb c WALL_CHAR then sweep delta_time w h m rest kept es pl over
        else if Projectile.is_enemy projectile then
          if on_player pl projectile then
            sweep delta_time w h m rest kept es
              (Player.set_health pl (Player.health pl - 10))
              (if Player.health pl - 10 <=? 0 then true else over)
          else sweep delta_time w h m rest (kept ++ [projectile]) es pl over
        else
          match Py.find_index (on_enemy projectile) es with
          | Some j =>
              sweep delta_time w h m rest kept (Py.remove_nth j es)
                (Player.set_ammo pl (Player.ammo pl + 2)) over
          | None => sweep delta_time w h m rest (kept ++ [projectile]) es pl over
          end
  end.

Definition swept (g : Game)
  (r : list Projectile.t * list Enemy.t * Player.t * bool) : Game :=
  mkGame (width g) (height g) (map g) (snd (fst r)) (snd (fst (fst r)))
         (fst (fst (fst r))) (last_update g) (snd r).

(** An enemy projectile that the loop counts as a hit on the player [pl]:
    on the grid, not on a wall, on the player's cell. *)
Definition strikes (delta_time : Q) (w h : Z) (m : list (list string))
  (pl : Player.t) (p : Projectile.t) : bool :=
  let projectile := advance delta_time p in
  negb (off_grid w h projectile)
  && match tile m (Py.int_of_Q (Projectile.y projectile))
             (Py.int_of_Q (Projectile.x projectile)) with
     | Some c => negb (String.eqb c WALL_CHAR)
     | None => false
     end
  && Projectile.is_enemy projectile
  && on_player pl projectile.

(** A projectile that the loop drops for leaving the grid or entering a
    wall. *)
Definition lost (delta_time : Q) (w h : Z) (m : list (list string))
  (p : Projectile.t) : bool :=
  let projectile := advance delta_time p in
  off_grid w h projectile
  || match tile m (Py.int_of_Q (Projectile.y projectile))
             (Py.int_of_Q (Projectile.x projectile)) with
     | Some c => String.eqb c WALL_CHAR
     | None => false
     end.

(** A projectile the loop has visited and kept: on the grid, not on a wall,
    and not on a cell of the opposing side. *)
Definition settled (w h : Z) (m : list (list string)) (pl : Player.t)
  (es : list Enemy.t) (p : Projectile.t) : Prop :=
  off_grid w h p = false
  /\ (exists c, tile m (Py.int_of_Q (Projectile.y p)) (Py.int_of_Q (Projectile.x p))
                = Some c /\ String.eqb c WALL_CHAR = false)
  /\ (if Projectile.is_enemy p then on_player pl p = false
      else find (on_enemy p) es = None).

(** A map of [h] rows of [w] tiles whose border is wall. *)
Definition shaped (w h : Z) (m : list (list string)) : Prop :=
  List.length m = Z.to_nat h
  /\ Forall (fun row => List.length row = Z.to_nat w) m.

Definition walled (w h : Z) (m : list (list string)) : Prop :=
  forall cy cx, 0 <= cy < h -> 0 <= cx < w ->
    cy = 0 \/ cy = h - 1 \/ cx = 0 \/ cx = w - 1 ->
    tile m cy cx = Some WALL_CHAR.

Definition shaped_b (w h : Z) (m : list (list string)) : bool :=
  (List.length m =? Z.to_nat h)%nat
  && forallb (fun row => (List.length row =? Z.to_nat w)%nat) m.

Definition walled_b (w h : Z) (m : list (list string)) : bool :=
  forallb (fun cy =>
    forallb (fun cx =>
      let cy := Z.of_nat cy in
      let cx := Z.of_nat cx in
      if (cy =? 0) || (cy =? h - 1) || (cx =? 0) || (cx =? w - 1)
      then match tile m cy cx with
           | Some c => String.eqb c WALL_CHAR
           | None => false
           end
      else true) (seq 0 (Z.to_nat w))) (seq 0 (Z.to_nat h)).

Definition in_grid (w h : Z) (qx qy : Q) : Prop :=
  (0 <= qx)%Q /\ (qx < inject_Z w)%Q /\ (0 <= qy)%Q /\ (qy < inject_Z h)%Q.

Definition enemy_in_grid (e : Enemy.t) : Prop :=
  in_grid MAP_WIDTH MAP_HEIGHT (Enemy.x e) (Enemy.y e).

Definition projectile_in_grid (p : Projectile.t) : Prop :=
  in_grid MAP_WIDTH MAP_HEIGHT (Projectile.x p) (Projectile.y p).

Definition player_in_grid (pl : Player.t) : Prop :=
  0 <= Player.x pl < MAP_WIDTH /\ 0 <= Player.y pl < MAP_HEIGHT.

(** The invariant of the loop of [run]. *)
Definition on_grid (g : Game) : Prop :=
  width g = MAP_WIDTH /\ height g = MAP_HEIGHT
  /\ shaped MAP_WIDTH MAP_HEIGHT (map g)
  /\ walled MAP_WIDTH MAP_HEIGHT (map g)
  /\ player_in_grid (player g)
  /\ Forall enemy_in_grid (enemies g)
  /\ Forall projectile_in_grid (projectiles g).

Section WithSqrt.

(** [math.sqrt] *)
Variable sqrt : Q -> Q.

(** The unit vector of [(vx, vy)], or the vector itself at length 0. *)
Definition normalized (vx vy : Q) : Q * Q :=
  let distance := sqrt (vx * vx + vy * vy)%Q in
  if Qlt_bool 0 distance then ((vx / distance)%Q, (vy / distance)%Q)
  else (vx, vy).

(** The test that guards the move of an enemy in [update_enemies]. *)
Definition is_free (g : Game) (new_x new_y : Q) : option bool :=
  if (0 <=? Py.int_of_Q new_x) && (Py.int_of_Q new_x <? width g)
     && (0 <=? Py.int_of_Q new_y) && (Py.int_of_Q new_y <? height g)
  then c <- tile (map g) (Py.int_of_Q new_y) (Py.int_of_Q new_x) ;;
       Some (String.eqb c FLOOR_CHAR)
  else Some false.

(** The first half of the loop body of [update_enemies]: the enemy after
    its move; [u1] and [u2] are the two values of [random()] it draws. *)
Definition step_enemy (delta_time u1 u2 : Q) (g : Game) (enemy : Enemy.t)
  : option Enemy.t :=
  let d := normalized (inject_Z (Player.x (player g)) - Enemy.x enemy)%Q
             (inject_Z (Player.y (player g)) - Enemy.y enemy)%Q in
  let ddx := (fst d + uniform (- (1 # 5)) (1 # 5) u1)%Q in
  let ddy := (snd d + uniform (- (1 # 5)) (1 # 5) u2)%Q in
  let new_x := (Enemy.x enemy + ddx * Enemy.speed enemy * delta_time)%Q in
  let new_y := (Enemy.y enemy + ddy * Enemy.speed enemy * delta_time)%Q in
  free <- is_free g new_x new_y ;;
  Some (if free : bool then Enemy.set_xy enemy new_x new_y else enemy).

(** The shot of an enemy whose delay has elapsed. *)
Definition enemy_shot (g : Game) (enemy : Enemy.t) : Game :=
  let s := normalized (inject_Z (Player.x (player g)) - Enemy.x enemy)%Q
             (inject_Z (Player.y (player g)) - Enemy.y enemy)%Q in
  shoot (Enemy.x enemy) (Enemy.y enemy) (fst s) (snd s) true g.

(** [update_enemies]: [rnd k] is the value of the [k]-th call of [random()]
    in this tick; the enemies are mutated in place, and only [shoot] touches
    the rest of the state. *)
Fixpoint update_enemies_loop (delta_time current_time : Q)
  (rnd : nat -> Q) (k : nat) (es : list Enemy.t) (g : Game)
  : option (list Enemy.t * Game) :=
  match es with
  | [] => Some ([], g)
  | enemy :: rest =>
      enemy <- step_enemy delta_time (rnd k) (rnd (S k)) g enemy ;;
      if Qle_bool (Enemy.shoot_delay enemy)
                  (current_time - Enemy.last_shot_time enemy)
      then
        let g := enemy_shot g enemy in
        let enemy := Enemy.set_timer enemy current_time
                       (uniform 1 3 (rnd (S (S k)))) in
        r <- update_enemies_loop delta_time current_time rnd (S (S (S k))) rest g ;;
        Some (enemy :: fst r, snd r)
      else
        r <- update_enemies_loop delta_time current_time rnd (S (S k)) rest g ;;
        Some (enemy :: fst r, snd r)
  end.

Definition update_enemies (delta_time current_time : Q) (rnd : nat -> Q)
  (g : Game) : option Game :=
  r <- update_enemies_loop delta_time current_time rnd 0 (enemies g) g ;;
  Some (set_enemies (snd r) (fst r)).

(** What one round of the loop of [run] reads from outside: the key, the
    clock read by [run], the clock read by [update_enemies], the values of
    [random()] and the size of the terminal. *)
Record TickInput : Type := mkTickInput {
  key : Key;
  current_time : Q;
  shot_time : Q;
  rnd : nat -> Q;
  window : Z * Z
}.

(** The body of [while not self.game_over] up to the test of the enemy
    list. *)
Definition tick (inp : TickInput) (g : Game) : option Game :=
  let delta_time := (current_time inp - last_update g)%Q in
  let g := set_last_update g (current_time inp) in
  g <- handle_input (key inp) g ;;
  g <- update_projectiles delta_time g ;;
  g <- update_enemies delta_time (shot_time inp) (rnd inp) g ;;
  _ <- render (window inp) g ;;
  Some g.

(** [if not self.enemies]: the round ends in the win prompt. *)
Definition wins (g : Game) : bool :=
  match enemies g with
  | [] => true
  | _ :: _ => false
  end.

(** The contracts of [random()], of the [randint]s of [generate_map] and
    [spawn_entity]. *)
Definition random_ok (u : Q) : Prop := (0 <= u)%Q /\ (u < 1)%Q.

Definition draw_ok (d : Z * Z) : Prop :=
  1 <= fst d <= MAP_WIDTH - 2 /\ 1 <= snd d <= MAP_HEIGHT - 2.

Definition seed_ok (sd : Seed) : Prop :=
  (forall i, draw_ok (walls sd i))
  /\ Forall draw_ok (player_draws sd)
  /\ (forall k, Forall draw_ok (enemy_draws sd k))
  /\ (forall k, random_ok (enemy_random sd k)).

(** The states at the top of the loop of [run].  After a round that ends
    in the win prompt the next state is a fresh game (key [y]) or the
    same state with the flag raised (key [q]). *)
Inductive reachable : Game -> Prop :=
| reach_init : forall sd g,
    seed_ok sd -> init sd = Some g -> reachable g
| reach_tick : forall g inp g',
    reachable g -> game_over g = false ->
    (forall k, random_ok (rnd inp k)) ->
    tick inp g = Some g' -> wins g' = false ->
    reachable g'
| reach_again : forall g inp g' sd g0,
    reachable g -> game_over g = false ->
    (forall k, random_ok (rnd inp k)) ->
    tick inp g = Some g' -> wins g' = true ->
    seed_ok sd -> init sd = Some g0 ->
    reachable g0
| reach_quit : forall g inp g',
    reachable g -> game_over g = false ->
    (forall k, random_ok (rnd inp k)) ->
    tick inp g = Some g' -> wins g' = true ->
    reachable (set_game_over g' true).

(** The loop of [run] over a list of inputs, for rounds that do not end in
    the win prompt. *)
Fixpoint run_ticks (inps : list TickInput) (g : Game) : option Game :=
  match inps with
  | [] => Some g
  | inp :: rest =>
      if game_over g then None
      else g' <- tick inp g ;;
           if wins g' then None else run_ticks rest g'
  end.

End WithSqrt.

(** The glyph and colour [render] leaves on the player's cell: those of the
    last projectile drawn there, else of the last enemy drawn there, else
    the player's. *)
Definition over_player (g : Game) (qy qx : Q) : bool :=
  (Py.int_of_Q qy =? Player.y (player g)) && (Py.int_of_Q qx =? Player.x (player g)).

Definition projectile_glyph (p : Projectile.t) : string * Z :=
  (Projectile.char p,
   if Projectile.is_enemy p then COLOR_ENEMY_PROJECTILE else COLOR_PROJECTILE).

Definition visible_at_player (g : Game) : string * Z :=
  match find (fun p => over_player g (Projectile.y p) (Projectile.x p))
             (rev (projectiles g)) with
  | Some p => projectile_glyph p
  | None =>
      match find (fun e => over_player g (Enemy.y e) (Enemy.x e))
                 (rev (enemies g)) with
      | Some e => (Enemy.char e, COLOR_ENEMY)
      | None => (Player.char (player g), COLOR_PLAYER)
      end
  end.

(** The cells of the border, and the cells drawn by the rounds of the last
    loop of [generate_map]. *)
Definition on_border (w h cy cx : Z) : bool :=
  (cy =? 0) || (cy =? h - 1) || (cx =? 0) || (cx =? w - 1).

Definition drawn (walls : nat -> Z * Z) (rounds : list nat) (cy cx : Z) : bool :=
  existsb (fun i => (snd (walls i) =? cy) && (fst (walls i) =? cx)) rounds.

Definition wall_rounds (w h : Z) : list nat :=
  seq 0 (Z.to_nat (w * h / WALL_DENSITY)).

(** Every cell of the grid holds a wall on the border and floor inside. *)
Definition bordered_b (w h : Z) (m : list (list string)) : bool :=
  forallb (fun cy =>
    forallb (fun cx =>
      match tile m (Z.of_nat cy) (Z.of_nat cx) with
      | Some c =>
          String.eqb c (if on_border w h (Z.of_nat cy) (Z.of_nat cx)
                        then WALL_CHAR else FLOOR_CHAR)
      | None => false
      end) (seq 0 (Z.to_nat w))) (seq 0 (Z.to_nat h)).

(** The tile under a position is floor; the player and every enemy stand
    on floor. *)
Definition on_floor (m : list (list string)) (qx qy : Q) : Prop :=
  tile m (Py.int_of_Q qy) (Py.int_of_Q qx) = Some FLOOR_CHAR.

Definition well_placed (g : Game) : Prop :=
  tile (map g) (Player.y (player g)) (Player.x (player g)) = Some FLOOR_CHAR
  /\ Forall (fun e => on_floor (map g) (Enemy.x e) (Enemy.y e)) (enemies g).

(** The timer test of [update_enemies], and the delays [random.uniform(1, 3)]
    can return. *)
Definition elapsed (now : Q) (e : Enemy.t) : bool :=
  Qle_bool (Enemy.shoot_delay e) (now - Enemy.last_shot_time e).

Definition delay_ok (e : Enemy.t) : Prop :=
  (1 <= Enemy.shoot_delay e)%Q /\ (Enemy.shoot_delay e <= 3)%Q.

(** An enemy before and after one round of the loop of [update_enemies] at
    clock [now]: what it is stays, and its timer is reset exactly when its
    delay had elapsed. *)
Definition stepped (now : Q) (e e' : Enemy.t) : Prop :=
  Enemy.char e' = Enemy.char e /\ Enemy.health e' = Enemy.health e
  /\ Enemy.speed e' = Enemy.speed e
  /\ (elapsed now e = true -> Enemy.last_shot_time e' = now /\ delay_ok e')
  /\ (elapsed now e = false ->
      Enemy.last_shot_time e' = Enemy.last_shot_time e
      /\ Enemy.shoot_delay e' = Enemy.shoot_delay e).

(** The status line of [render]. *)
Definition status (g : Game) : string :=
  ("Enemies Left: " ++ str (Z.of_nat (List.length (enemies g)))
   ++ " | Player Health: " ++ str (Player.health (player g))
   ++ " | Ammo: " ++ str (Player.ammo (player g)))%string.

(** What holds at the top of every round of the loop of [run]. *)
Definition sound (g : Game) : Prop :=
  well_placed g
  /\ Forall delay_ok (enemies g)
  /\ 0 <= Player.ammo (player g)
  /\ Player.ammo (player g) + 2 * Z.of_nat (List.length (enemies g)) <= 30
  /\ exists k, 0 <= k /\ Player.health (player g) = 100 - 10 * k.

(** What [render] leaves on a cell of the map: the last projectile drawn
    there, else the last enemy drawn there, else the player, else the tile
    in the colour of its kind. *)
Definition tile_glyph (m : list (list string)) (cy cx : Z)
  : option (string * Z) :=
  match tile m cy cx with
  | Some c => Some (c, if String.eqb c WALL_CHAR then COLOR_WALL else COLOR_FLOOR)
  | None => None
  end.

Definition visible (g : Game) (cy cx : Z) : option (string * Z) :=
  match find (fun p => (Py.int_of_Q (Projectile.y p) =? cy)
                       && (Py.int_of_Q (Projectile.x p) =? cx))
             (rev (projectiles g)) with
  | Some p => Some (projectile_glyph p)
  | None =>
      match find (fun e => (Py.int_of_Q (Enemy.y e) =? cy)
                           && (Py.int_of_Q (Enemy.x e) =? cx))
                 (rev (enemies g)) with
      | Some e => Some (Enemy.char e, COLOR_ENEMY)
      | None =>
          if (Player.y (player g) =? cy) && (Player.x (player g) =? cx)
          then Some (Player.char (player g), COLOR_PLAYER)
          else tile_glyph (map g) cy cx
      end
  end.

(** The shooting keys of [handle_input] and the direction each one passes
    to [shoot]. *)
Definition shot_keys : list (ascii * (Z * Z)) :=
  [("w"%char, (0, -1)); ("s"%char, (0, 1)); ("a"%char, (-1, 0));
   ("d"%char, (1, 0)); ("q"%char, (-1, -1)); ("e"%char, (1, -1));
   ("z"%char, (-1, 1)); ("c"%char, (1, 1))].

(** The collisions with enemies the loop of [update_projectiles] detects:
    the player's projectiles, taken in order, whose advanced position is on
    the grid, not on a wall, and on the cell of an enemy that is still
    there. *)
Fixpoint kills (delta_time : Q) (w h : Z) (m : list (list string))
  (todo : list Projectile.t) (es : list Enemy.t) : nat :=
  match todo with
  | [] => O
  | p :: rest =>
      let projectile := advance delta_time p in
      if lost delta_time w h m p then kills delta_time w h m rest es
      else if Projectile.is_enemy projectile then kills delta_time w h m rest es
      else match Py.find_index (on_enemy projectile) es with
           | Some j => S (kills delta_time w h m rest (Py.remove_nth j es))
           | None => kills delta_time w h m rest es
           end
  end.

End Main.

(** ** Concrete runs *)

Module Examples.

(** A square root on the rationals for the concrete runs: the integer root
    of [n * d] over [d], which is the exact root of [n / d] when [n * d] is a
    perfect square.  The runs below only take the root of 0. *)
Definition sqrt_Q (q : Q) : Q := Z.sqrt (Qnum q * Z.pos (Qden q)) # Qden q.

(** [backup.py]: the player walks up from (20, 10) to the top row in ten
    frames, 50 ms apart; no enemy is due yet. *)
Definition walk_up : list Backup.FrameInput :=
  List.map (fun k => Backup.mkFrameInput (Some "w"%char)
                       (Z.of_nat k * 5 # 100) (Z.of_nat k * 5 # 100)
                       Backup.top 0)
           (seq 1 10).

Definition at_top_edge : Backup.Game :=
  Eval vm_compute in
    match Backup.run_frames walk_up (Backup.init 40 20 0 0) with
    | Some g => g
    | None => Backup.init 0 0 0 0
    end.

(** [backup.py]: a bullet flying right and two enemies on its next cell. *)
Definition two_on_a_cell : Backup.Game :=
  Backup.mkGame 40 20 (Backup.mkEntity 20 10 "@" 0 0 false)
    [Backup.mkEntity 24 10 "→" 1 0 false; Backup.mkEntity 30 5 "↑" 0 (-1) false]
    [Backup.mkEntity 25 10 "E" 0 0 true; Backup.mkEntity 25 10 "E" 0 0 true;
     Backup.mkEntity 3 3 "E" 0 0 true]
    0 false 0 0.

(** [main.py]: no random wall off the corner tile, and the player and the
    ten enemies all spawned on tile (5, 5), which [spawn_entity] allows; the
    first enemy drew the shortest delay. *)
Definition crowded_seed : Main.Seed :=
  Main.mkSeed (fun _ => (1, 1)) [(5, 5)] (fun _ => [(5, 5)]) (fun _ => 0%Q)
    (fun k => match k with O => 0%Q | _ => (1 # 2)%Q end) 0%Q.

Definition blank : Main.Game :=
  Main.mkGame 0 0 [] (Main.Player.new 0 0) [] [] 0 true.

Definition crowded : Main.Game :=
  Eval vm_compute in
    match Main.init crowded_seed with
    | Some g => g
    | None => blank
    end.

(** The rounds at times 1, 2, 3 with no key pressed: [random()] returns 1/2
    (no jitter, delay 2) except for its third call (delay 1). *)
Definition calm (now : Q) : Main.TickInput :=
  Main.mkTickInput Main.NoKey now now
    (fun k => match k with 2%nat => 0%Q | _ => (1 # 2)%Q end) (24, 80).

(** After one round the first enemy has fired: its projectile rests on the
    player's cell. *)
Definition fired : Main.Game :=
  Eval vm_compute in
    match Main.run_ticks sqrt_Q [calm 1] crowded with
    | Some g => g
    | None => blank
    end.

(** After three rounds eleven projectiles have struck the player. *)
Definition fallen : Main.Game :=
  Eval vm_compute in
    match Main.run_ticks sqrt_Q [calm 1; calm 2; calm 3] crowded with
    | Some g => g
    | None => blank
    end.

(** The player of [crowded] out of ammunition. *)
Definition empty_handed : Main.Game :=
  Main.set_player crowded (Main.Player.set_ammo (Main.player crowded) 0).

(** [backup.py]: 42 frames, 50 ms apart.  An enemy spawns on the left edge
    of the player's row in frame 20 and walks right; the key [j] of frame 21
    sends a bullet left, which meets it in frame 29; a second enemy spawns on
    the top row in frame 40 and the key [l] of frame 41 sends a bullet
    right. *)
Definition skirmish_run : list Backup.FrameInput :=
  List.map (fun k => Backup.mkFrameInput
                       (if (k =? 21)%nat then Some "j"%char
                        else if (k =? 41)%nat then Some "l"%char else None)
                       (Z.of_nat k * 5 # 100) (Z.of_nat k * 5 # 100)
                       (if (k <? 30)%nat then Backup.left else Backup.top)
                       (if (k <? 30)%nat then 10 else 5))
           (seq 1 42).

Definition skirmish : Backup.Game :=
  Eval vm_compute in
    match Backup.run_frames skirmish_run (Backup.init 40 20 0 0) with
    | Some g => g
    | None => Backup.init 0 0 0 0
    end.

(** [main.py]: every random wall is drawn on tile (4, 5), and the player
    and the ten enemies all spawn on tile (5, 5), each enemy with delay 2. *)
Definition cornered_seed : Main.Seed :=
  Main.mkSeed (fun _ => (4, 5)) [(5, 5)] (fun _ => [(5, 5)]) (fun _ => 0%Q)
    (fun _ => (1 # 2)%Q) 0%Q.

Definition cornered : Main.Game :=
  Eval vm_compute in
    match Main.init cornered_seed with
    | Some g => g
    | None => blank
    end.

(** Rounds 50 ms apart with the key [d] pressed in each.  The jitter drawn
    for an enemy points it at the wall on tile (4, 5), so the enemies stay
    where they are.  The shot of a round starts on the cell the player
    shares with the enemies and is still on it after the 50 ms of that
    round: it removes the first enemy of the list.  No delay has elapsed
    yet, so no enemy fires.  After nine rounds one enemy is left; the tenth
    round removes it. *)
Definition shot_right (now : Q) : Main.TickInput :=
  Main.mkTickInput (Main.Char "d") now now
    (fun k => if Nat.even k then 0%Q else (1 # 2)%Q) (24, 80).

Definition hunt : list Main.TickInput :=
  List.map (fun k => shot_right (Z.of_nat k # 20)) (seq 1 9).

Definition last_stand : Main.Game :=
  Eval vm_compute in
    match Main.run_ticks sqrt_Q hunt cornered with
    | Some g => g
    | None => blank
    end.

Definition won : Main.Game :=
  Eval vm_compute in
    match Main.tick sqrt_Q (shot_right (10 # 20)) last_stand with
    | Some g => g
    | None => blank
    end.

End Examples.

(** * Facts *)

(** ** Lists as Python uses them *)

Section PyListFacts.

Context {A : Type}.
Implicit Types (l kept rest : list A) (a v : A).

Lemma nth_error_middle kept a rest :
  nth_error (kept ++ a :: rest) (List.length kept) = Some a.
Proof. induction kept as [|k kept IH]; simpl; auto. Qed.

Lemma set_nth_middle kept a v rest :
  Py.set_nth (List.length kept) v (kept ++ a :: rest) = kept ++ v :: rest.
Proof. induction kept as [|k kept IH]; simpl; [reflexivity | now rewrite IH]. Qed.

Lemma remove_nth_middle kept a rest :
  Py.remove_nth (List.length kept) (kept ++ a :: rest) = kept ++ rest.
Proof. induction kept as [|k kept IH]; simpl; [reflexivity | now rewrite IH]. Qed.

Lemma remove_nth_In j : forall l a, In a (Py.remove_nth j l) -> In a l.
Proof.
  induction j as [|j IH]; intros [|b l] a; simpl; auto.
  intros [H | H]; auto.
Qed.

Lemma remove_nth_length j : forall l,
  (j < List.length l)%nat ->
  S (List.length (Py.remove_nth j l)) = List.length l.
Proof.
  induction j as [|j IH]; intros [|b l]; simpl; intro H; try lia.
  rewrite IH; lia.
Qed.

Lemma remove_first (eqb : A -> A -> bool) v kept rest :
  (forall a, In a kept -> eqb a v = false) ->
  eqb v v = true ->
  Py.remove eqb v (kept ++ v :: rest) = Some (kept ++ rest).
Proof.
  intros Hk Hv. induction kept as [|k kept IH]; simpl.
  - now rewrite Hv.
  - rewrite (Hk k) by (left; reflexivity).
    rewrite IH; [reflexivity | intros a Ha; apply Hk; right; exact Ha].
Qed.

Lemma find_index_None (f : A -> bool) l :
  find f l = None -> Py.find_index f l = None.
Proof.
  induction l as [|b l IH]; simpl; auto.
  destruct (f b); [discriminate | intro H; now rewrite IH].
Qed.

Lemma find_index_Some (f : A -> bool) : forall l a,
  find f l = Some a ->
  exists j, Py.find_index f l = Some j /\ nth_error l j = Some a
            /\ f a = true /\ (j < List.length l)%nat.
Proof.
  induction l as [|b l IH]; simpl; intros a H; [discriminate|].
  destruct (f b) eqn:Hb.
  - injection H as <-. exists O. repeat split; auto. lia.
  - destruct (IH a H) as (j & Hj & Hn & Ha & Hl). exists (S j).
    rewrite Hj. repeat split; auto. lia.
Qed.

Lemma find_index_find (f : A -> bool) : forall l j,
  Py.find_index f l = Some j ->
  exists a, find f l = Some a /\ nth_error l j = Some a /\ f a = true
            /\ (j < List.length l)%nat.
Proof.
  induction l as [|b l IH]; simpl; intros j H; [discriminate|].
  destruct (f b) eqn:Hb.
  - injection H as <-. exists b. repeat split; auto. lia.
  - destruct (Py.find_index f l) as [k|] eqn:Hk; [|discriminate].
    injection H as <-. destruct (IH k eq_refl) as (a & Ha & Hn & Hf & Hl).
    exists a. repeat split; auto. simpl. lia.
Qed.

(** Removing by value the element that a search has found removes it at
    the position where it was found, when the equality refines the search. *)
Lemma remove_found (eqb : A -> A -> bool) (f : A -> bool) : forall l a j,
  (forall b, eqb b a = true -> f b = true) ->
  eqb a a = true ->
  find f l = Some a ->
  Py.find_index f l = Some j ->
  Py.remove eqb a l = Some (Py.remove_nth j l).
Proof.
  induction l as [|b l IH]; simpl; intros a j Hf Ha H Hj; [discriminate|].
  destruct (f b) eqn:Hb.
  - injection H as ->. injection Hj as <-. now rewrite Ha.
  - destruct (eqb b a) eqn:Hba; [rewrite (Hf b Hba) in Hb; discriminate|].
    destruct (Py.find_index f l) as [k|] eqn:Hk; [|discriminate].
    injection Hj as <-. rewrite (IH a k Hf Ha H eq_refl). reflexivity.
Qed.

Lemma find_remove_nth_None (f : A -> bool) j l :
  find f l = None -> find f (Py.remove_nth j l) = None.
Proof.
  intro H. destruct (find f (Py.remove_nth j l)) as [a|] eqn:Hr; auto.
  apply find_some in Hr. destruct Hr as [Hin Ha].
  apply remove_nth_In in Hin.
  now rewrite (find_none _ _ H a Hin) in Ha.
Qed.

End PyListFacts.

(** ** [backup.py]: the bullet loop *)

Section BackupBullets.

Import Backup.

Lemma Entity_eqb_refl a : Entity_eqb a a = true.
Proof.
  unfold Entity_eqb.
  now rewrite !Z.eqb_refl, String.eqb_refl, Bool.eqb_reflx.
Qed.

Lemma Entity_eqb_eq a b : Entity_eqb a b = true -> a = b.
Proof.
  unfold Entity_eqb. destruct a, b; simpl. intro H.
  repeat (apply andb_prop in H; destruct H as [H ?]).
  repeat match goal with
         | E : (_ =? _) = true |- _ => apply Z.eqb_eq in E
         | E : String.eqb _ _ = true |- _ => apply String.eqb_eq in E
         | E : Bool.eqb _ _ = true |- _ => apply Bool.eqb_prop in E
         end.
  congruence.
Qed.

Lemma settled_not_eqb w h es b kept :
  Forall (settled w h es) kept ->
  (off_grid w h b = true \/ find (hits b) es <> None) ->
  forall a, In a kept -> Entity_eqb a b = false.
Proof.
  intros Hk Hb a Ha. destruct (Entity_eqb a b) eqn:E; auto.
  apply Entity_eqb_eq in E. subst a.
  rewrite Forall_forall in Hk. destruct (Hk b Ha) as [H1 H2].
  destruct Hb as [Hb | Hb]; congruence.
Qed.

Lemma settled_remove_nth w h es j kept :
  Forall (settled w h es) kept ->
  Forall (settled w h (Py.remove_nth j es)) kept.
Proof.
  intro H. eapply Forall_impl; [|exact H].
  intros a [H1 H2]. split; auto. now apply find_remove_nth_None.
Qed.

(** The loop over the live list returns what the loop over values returns. *)
Lemma update_bullets_loop_sweep : forall todo kept g,
  bullets g = kept ++ todo ->
  Forall (settled (width g) (height g) (enemies g)) kept ->
  update_bullets_loop (List.length todo) (List.length kept) g
  = Some (swept g (sweep (width g) (height g) todo kept (enemies g) (score g))).
Proof.
  induction todo as [|b rest IH]; intros kept g Hb Hk.
  - simpl. rewrite app_nil_r in Hb. destruct g; simpl in *. now subst.
  - cbn [List.length update_bullets_loop sweep].
    rewrite Hb, nth_error_middle. cbn [Py.bind].
    rewrite set_nth_middle. cbn [width height bullets enemies set_bullets].
    destruct (off_grid (width g) (height g) (advance b)) eqn:Hoff.
    + rewrite remove_first;
        [| eapply settled_not_eqb; eauto | apply Entity_eqb_refl].
      cbn [Py.bind]. rewrite IH; [reflexivity | reflexivity | exact Hk].
    + destruct (find (hits (advance b)) (enemies g)) as [enemy|] eqn:Hfind.
      * destruct (find_index_Some _ _ _ Hfind) as (j & Hj & _ & _ & _).
        rewrite (remove_found Entity_eqb (hits (advance b)) (enemies g) enemy j);
          [ | | apply Entity_eqb_refl | exact Hfind | exact Hj ].
        2:{ intros e He. apply Entity_eqb_eq in He. subst e.
            apply find_some in Hfind. tauto. }
        cbn [Py.bind]. rewrite remove_first;
          [| eapply settled_not_eqb; eauto; right; congruence
           | apply Entity_eqb_refl].
        cbn [Py.bind]. rewrite Hj.
        rewrite IH; [reflexivity | reflexivity |].
        cbn [width height enemies set_score set_bullets set_enemies].
        now apply settled_remove_nth.
      * rewrite (find_index_None _ _ Hfind).
        replace (S (List.length kept)) with (List.length (kept ++ [advance b]))
          by (rewrite length_app; simpl; lia).
        rewrite IH; [reflexivity | cbn; now rewrite <- app_assoc |].
        cbn [width height enemies set_bullets].
        apply Forall_app. split; [exact Hk|].
        constructor; [split; assumption | constructor].
Qed.

Lemma update_bullets_sweep g :
  update_bullets g
  = Some (swept g (sweep (width g) (height g) (bullets g) [] (enemies g) (score g))).
Proof.
  unfold update_bullets.
  apply (update_bullets_loop_sweep (bullets g) [] g); [reflexivity | constructor].
Qed.

End BackupBullets.

(** ** [backup.py]: what the bullet loop leaves *)

Section BackupSweep.

Import Backup.

Lemma off_grid_false w h b : off_grid w h b = false <-> in_grid w h b.
Proof.
  unfold off_grid, in_grid. rewrite !orb_false_iff, !Z.ltb_ge, !Z.leb_gt. lia.
Qed.

Lemma sweep_bullets_settled w h : forall todo kept es sc,
  Forall (settled w h es) kept ->
  Forall (settled w h (snd (fst (sweep w h todo kept es sc))))
         (fst (fst (sweep w h todo kept es sc))).
Proof.
  induction todo as [|b rest IH]; intros kept es sc Hk; cbn [sweep]; auto.
  destruct (off_grid w h (advance b)) eqn:Hoff; auto.
  destruct (Py.find_index (hits (advance b)) es) as [j|] eqn:Hj.
  - apply IH. now apply settled_remove_nth.
  - apply IH. apply Forall_app. split; auto.
    constructor; [|constructor]. split; auto.
    destruct (find (hits (advance b)) es) as [e|] eqn:Hf; auto.
    destruct (find_index_Some _ _ _ Hf) as (k & Hk' & _). congruence.
Qed.

(** Every collision takes one enemy and adds 10 to the score. *)
Lemma sweep_enemies w h : forall todo kept es sc,
  10 * Z.of_nat (List.length (snd (fst (sweep w h todo kept es sc))))
  + snd (sweep w h todo kept es sc)
  = 10 * Z.of_nat (List.length es) + sc.
Proof.
  induction todo as [|b rest IH]; intros kept es sc; cbn [sweep]; auto.
  destruct (off_grid w h (advance b)); auto.
  destruct (Py.find_index (hits (advance b)) es) as [j|] eqn:Hj; auto.
  rewrite IH. destruct (find_index_find _ _ _ Hj) as (a & _ & _ & _ & Hl).
  pose proof (remove_nth_length j es Hl). lia.
Qed.

(** Every bullet is kept, or leaves the grid, or goes with a collision. *)
Lemma sweep_bullets w h : forall todo kept es sc,
  10 * Z.of_nat (List.length (fst (fst (sweep w h todo kept es sc))))
  + 10 * Z.of_nat (List.length (filter (off_grid w h) (List.map advance todo)))
  + snd (sweep w h todo kept es sc)
  = 10 * Z.of_nat (List.length kept + List.length todo) + sc.
Proof.
  induction todo as [|b rest IH]; intros kept es sc; cbn [sweep List.map filter].
  - cbn [fst snd List.length]. lia.
  - destruct (off_grid w h (advance b)).
    + specialize (IH kept es sc). cbn [List.length]. lia.
    + destruct (Py.find_index (hits (advance b)) es) as [j|].
      * specialize (IH kept (Py.remove_nth j es) (sc + 10)).
        cbn [List.length]. lia.
      * specialize (IH (kept ++ [advance b]) es sc).
        rewrite length_app in IH. cbn [List.length] in *. lia.
Qed.

Lemma sweep_enemies_In w h : forall todo kept es sc e,
  In e (snd (fst (sweep w h todo kept es sc))) -> In e es.
Proof.
  induction todo as [|b rest IH]; intros kept es sc e; cbn [sweep]; auto.
  destruct (off_grid w h (advance b)); [now apply IH|].
  destruct (Py.find_index (hits (advance b)) es) as [j|]; [|now apply IH].
  intro H. apply IH in H. eapply remove_nth_In. exact H.
Qed.

Lemma sweep_bullets_In w h : forall todo kept es sc b,
  In b (fst (fst (sweep w h todo kept es sc))) ->
  In b kept \/ In b (List.map advance todo).
Proof.
  induction todo as [|a rest IH]; intros kept es sc b; cbn [sweep List.map]; auto.
  destruct (off_grid w h (advance a)).
  - intro H. apply IH in H. simpl. tauto.
  - destruct (Py.find_index (hits (advance a)) es) as [j|].
    + intro H. apply IH in H. simpl. tauto.
    + intro H. apply IH in H. rewrite in_app_iff in H. simpl in *. tauto.
Qed.

Lemma sweep_score_up w h : forall todo kept es sc,
  sc <= snd (sweep w h todo kept es sc).
Proof.
  induction todo as [|b rest IH]; intros kept es sc; cbn [sweep]; [cbn [snd]; lia|].
  destruct (off_grid w h (advance b)); auto.
  destruct (Py.find_index (hits (advance b)) es) as [j|]; auto.
  specialize (IH kept (Py.remove_nth j es) (sc + 10)). lia.
Qed.

End BackupSweep.

(** ** [backup.py]: the enemies' step and the invariant of the loop *)

Section BackupInvariant.

Import Backup.

Lemma stride_table_40 : stride_table 40 = true.
Proof. vm_compute. reflexivity. Qed.

Lemma span_In n d : - n <= d <= n -> In d (span n).
Proof.
  intro H. unfold span. apply in_map_iff.
  exists (Z.to_nat (d + n)). split; [lia|].
  apply in_seq. lia.
Qed.

Lemma stride_range d e : 0 <= stride d e <= 1.
Proof. unfold stride. destruct ((0 <? d) && (e * e <=? 3 * d * d)); lia. Qed.

Lemma stride_towards d e : stride d e = 1 -> 0 < d.
Proof.
  unfold stride. destruct (0 <? d) eqn:E; simpl.
  - intros _. now apply Z.ltb_lt.
  - discriminate.
Qed.

Lemma stride_table_sound n d e :
  stride_table n = true -> - n <= d <= n -> - n <= e <= n ->
  stride_agrees d e = true.
Proof.
  intros T Hd He. unfold stride_table in T.
  rewrite forallb_forall in T. specialize (T _ (span_In n _ Hd)).
  rewrite forallb_forall in T. exact (T _ (span_In n _ He)).
Qed.

(** On the displacements of the grid, the floating-point step is [stride]. *)
Lemma move_enemy_stride p e :
  - 40 <= x p - x e <= 40 -> - 40 <= y p - y e <= 40 ->
  move_enemy p e
  = Some (set_xy e (x e + stride (x p - x e) (y p - y e))
                   (y e + stride (y p - y e) (x p - x e))).
Proof.
  intros Hd He.
  pose proof (stride_table_sound 40 _ _ stride_table_40 Hd He) as T.
  unfold stride_agrees, move_enemy in T. cbn [x y] in T.
  rewrite !Z.sub_0_r in T.
  unfold move_enemy.
  destruct (negb (PrimFloat.eqb _ 0)).
  - destruct (rounded (x p - x e) _) as [sx|]; [|discriminate T].
    destruct (rounded (y p - y e) _) as [sy|]; [|discriminate T].
    cbn [Py.bind set_xy x y] in *.
    apply andb_prop in T. destruct T as [T1 T2].
    apply Z.eqb_eq in T1, T2. now rewrite <- T1, <- T2.
  - cbn [x y] in T. apply andb_prop in T. destruct T as [T1 T2].
    apply Z.eqb_eq in T1, T2. rewrite <- T1, <- T2, !Z.add_0_r.
    now destruct e.
Qed.

Lemma move_enemy_in_grid p e :
  in_grid 40 20 p -> in_grid 40 20 e ->
  exists e', move_enemy p e = Some e' /\ in_grid 40 20 e'.
Proof.
  unfold in_grid. intros Hp He.
  rewrite move_enemy_stride by lia.
  eexists. split; [reflexivity|]. cbn [set_xy x y].
  pose proof (stride_range (x p - x e) (y p - y e)) as R1.
  pose proof (stride_range (y p - y e) (x p - x e)) as R2.
  pose proof (stride_towards (x p - x e) (y p - y e)) as T1.
  pose proof (stride_towards (y p - y e) (x p - x e)) as T2.
  lia.
Qed.

Lemma move_enemies_loop_in_grid p : forall es over,
  in_grid 40 20 p -> Forall (in_grid 40 20) es ->
  exists r, move_enemies_loop p es over = Some r /\ Forall (in_grid 40 20) (fst r).
Proof.
  induction es as [|e es IH]; intros over Hp Hes; cbn [move_enemies_loop].
  - eexists. split; [reflexivity|]. constructor.
  - inversion Hes as [|? ? He Hrest]; subst.
    destruct (move_enemy_in_grid p e Hp He) as (e' & -> & He').
    cbn [Py.bind].
    destruct (IH (if touches p e' then true else over) Hp Hrest) as (r & -> & Hr).
    cbn [Py.bind]. eexists. split; [reflexivity|]. now constructor.
Qed.

Lemma handle_char_on_grid c g :
  width g = 40 -> height g = 20 -> in_grid 40 20 (player g) ->
  width (handle_char c g) = 40 /\ height (handle_char c g) = 20
  /\ in_grid 40 20 (player (handle_char c g))
  /\ enemies (handle_char c g) = enemies g.
Proof.
  intros Hw Hh Hp. unfold handle_char, in_grid in *.
  repeat match goal with
         | |- context [if ?b then _ else _] => destruct b eqn:?
         end;
    cbn [width height player enemies set_player set_xy shoot set_bullets x y];
    repeat match goal with
           | E : (_ && _) = true |- _ => apply andb_prop in E; destruct E
           | E : (_ <? _) = true |- _ => apply Z.ltb_lt in E
           end;
    repeat split; try lia.
Qed.

Lemma spawn_enemy_on_grid t sd r g :
  width g = 40 -> height g = 20 ->
  match sd with
  | top | bottom => 0 <= r <= width g - 1
  | left | right => 0 <= r <= height g - 1
  end ->
  Forall (in_grid 40 20) (enemies g) ->
  width (spawn_enemy t sd r g) = 40 /\ height (spawn_enemy t sd r g) = 20
  /\ player (spawn_enemy t sd r g) = player g
  /\ Forall (in_grid 40 20) (enemies (spawn_enemy t sd r g)).
Proof.
  intros Hw Hh Hr Hes. unfold spawn_enemy.
  destruct (Qle_bool 1 (t - last_spawn_time g)); [|repeat split; auto].
  rewrite Hw, Hh in *.
  destruct sd; cbn; (repeat split; auto); apply Forall_app; (split; [auto|]);
    (constructor; [unfold in_grid; cbn; lia | constructor]).
Qed.

Lemma update_bullets_on_grid g :
  exists g', update_bullets g = Some g'
    /\ width g' = width g /\ height g' = height g /\ player g' = player g
    /\ Forall (in_grid (width g) (height g)) (bullets g')
    /\ (forall e, In e (enemies g') -> In e (enemies g)).
Proof.
  rewrite update_bullets_sweep. eexists. split; [reflexivity|].
  cbn [swept width height player bullets enemies]. repeat split; auto.
  - pose proof (sweep_bullets_settled (width g) (height g) (bullets g) [] (enemies g)
                  (score g) (Forall_nil _)) as H.
    eapply Forall_impl; [|exact H]. intros b [Hb _]. now apply off_grid_false.
  - intros e. apply sweep_enemies_In.
Qed.

Lemma frame_on_grid inp g g' :
  on_grid g -> randint_ok g inp -> frame inp g = Some g' -> on_grid g'.
Proof.
  intros (Hw & Hh & Hp & Hes & _) Hr. unfold frame.
  set (g1 := match key inp with Some c => handle_char c g | None => g end).
  assert (H1 : width g1 = 40 /\ height g1 = 20 /\ in_grid 40 20 (player g1)
               /\ enemies g1 = enemies g).
  { unfold g1. destruct (key inp); [now apply handle_char_on_grid | auto]. }
  destruct H1 as (Hw1 & Hh1 & Hp1 & He1).
  assert (Hr1 : match side inp with
                | top | bottom => 0 <= randint inp <= width g1 - 1
                | left | right => 0 <= randint inp <= height g1 - 1
                end).
  { unfold randint_ok in Hr. rewrite Hw1, Hh1. rewrite Hw, Hh in Hr. exact Hr. }
  rewrite <- He1 in Hes.
  destruct (spawn_enemy_on_grid (spawn_time inp) (side inp) (randint inp) g1
              Hw1 Hh1 Hr1 Hes) as (Hw2 & Hh2 & Hp2 & Hes2).
  set (g2 := spawn_enemy _ _ _ g1) in *.
  unfold move_enemies.
  rewrite <- Hp2 in Hp1.
  destruct (move_enemies_loop_in_grid (player g2) (enemies g2) (game_over g2)
              Hp1 Hes2) as (r & -> & Hr2).
  cbn [Py.bind].
  set (g3 := set_game_over (set_enemies g2 (fst r)) (snd r)).
  destruct (update_bullets_on_grid g3) as (g4 & -> & Hw4 & Hh4 & Hp4 & Hb4 & He4).
  cbn [Py.bind]. destruct (draw g4); [|discriminate].
  cbn [Py.bind]. intro E. injection E as <-.
  unfold on_grid.
  cbn [width height player enemies bullets set_last_update_time].
  rewrite Hw4, Hh4, Hp4. unfold g3.
  cbn [width height player set_game_over set_enemies].
  repeat split; try tauto; try apply Hp1.
  - rewrite Forall_forall. intros e He. apply He4 in He.
    unfold g3 in He. cbn in He. rewrite Forall_forall in Hr2. now apply Hr2.
  - unfold g3 in Hb4. cbn [width height set_game_over set_enemies] in Hb4.
    now rewrite Hw2, Hh2 in Hb4.
Qed.

Lemma reachable_on_grid g : reachable g -> on_grid g.
Proof.
  induction 1 as [t1 t2 | g inp g' _ IH _ _ _ Hr Hf].
  - unfold on_grid, init, in_grid. cbn. repeat split; try lia; constructor.
  - eapply frame_on_grid; eauto.
Qed.

End BackupInvariant.

(** ** [main.py]: the projectile loop *)

Section MainProjectiles.

Import Main.

(** The loop over the live list returns what the loop over values returns. *)
Lemma update_projectiles_loop_sweep dt : forall todo kept g,
  projectiles g = kept ++ todo ->
  update_projectiles_loop dt (List.length todo) (List.length kept) g
  = option_map (swept g)
      (sweep dt (width g) (height g) (map g) todo kept (enemies g) (player g)
         (game_over g)).
Proof.
  induction todo as [|p rest IH]; intros kept g Hp.
  - cbn. rewrite app_nil_r in Hp. destruct g; cbn in *. now subst.
  - cbn [List.length update_projectiles_loop sweep].
    rewrite Hp, nth_error_middle. cbn [Py.bind].
    rewrite set_nth_middle.
    cbn [width height map projectiles enemies player set_projectiles].
    destruct (off_grid (width g) (height g) (advance dt p)).
    { rewrite remove_nth_middle. now rewrite IH. }
    destruct (tile (map g) _ _) as [c|]; [|reflexivity]. cbn [Py.bind].
    destruct (String.eqb c WALL_CHAR).
    { rewrite remove_nth_middle. now rewrite IH. }
    destruct (Projectile.is_enemy (advance dt p)).
    + destruct (on_player (player g) (advance dt p)).
      * cbn [projectiles set_player set_projectiles player Player.health
             Player.set_health].
        rewrite remove_nth_middle.
        destruct (Player.health (player g) - 10 <=? 0); now rewrite IH.
      * replace (S (List.length kept)) with (List.length (kept ++ [advance dt p]))
          by (rewrite length_app; simpl; lia).
        rewrite IH; [reflexivity | cbn; now rewrite <- app_assoc].
    + destruct (Py.find_index (on_enemy (advance dt p)) (enemies g)) as [j|].
      * cbn [projectiles enemies set_player set_projectiles set_enemies player].
        rewrite remove_nth_middle. now rewrite IH.
      * replace (S (List.length kept)) with (List.length (kept ++ [advance dt p]))
          by (rewrite length_app; simpl; lia).
        rewrite IH; [reflexivity | cbn; now rewrite <- app_assoc].
Qed.

Lemma update_projectiles_sweep dt g :
  update_projectiles dt g
  = option_map (swept g)
      (sweep dt (width g) (height g) (map g) (projectiles g) [] (enemies g)
         (player g) (game_over g)).
Proof. apply (update_projectiles_loop_sweep dt (projectiles g) [] g eq_refl). Qed.

End MainProjectiles.

(** ** [main.py]: what the projectile loop leaves *)

Section MainSweep.

Import Main.

Variables (dt : Q) (w h : Z) (m : list (list string)).

Lemma strikes_health pl v p :
  strikes dt w h m (Player.set_health pl v) p = strikes dt w h m pl p.
Proof. reflexivity. Qed.

Lemma strikes_ammo pl v p :
  strikes dt w h m (Player.set_ammo pl v) p = strikes dt w h m pl p.
Proof. reflexivity. Qed.

(** The player after the loop: same place, 10 health less per strike. *)
Lemma sweep_player : forall todo kept es pl over r,
  sweep dt w h m todo kept es pl over = Some r ->
  Player.x (snd (fst r)) = Player.x pl
  /\ Player.y (snd (fst r)) = Player.y pl
  /\ Player.char (snd (fst r)) = Player.char pl
  /\ Player.health (snd (fst r))
     = Player.health pl
       - 10 * Z.of_nat (List.length (filter (strikes dt w h m pl) todo)).
Proof.
  induction todo as [|p rest IH]; intros kept es pl over r; cbn [sweep filter].
  - intro E. injection E as <-. cbn. repeat split; lia.
  - unfold strikes at 1.
    destruct (off_grid w h (advance dt p)); [apply IH|].
    destruct (tile m _ _) as [c|]; [|discriminate]. cbn [Py.bind].
    destruct (String.eqb c WALL_CHAR); [apply IH|].
    destruct (Projectile.is_enemy (advance dt p)).
    + destruct (on_player pl (advance dt p)); [|apply IH].
      intro E. apply IH in E. destruct E as (Ex & Ey & Ec & Eh).
      cbn [negb andb List.length]. rewrite Ex, Ey, Ec, Eh.
      cbn [Player.x Player.y Player.char Player.health Player.set_health].
      rewrite (filter_ext _ _ (strikes_health pl (Player.health pl - 10))).
      repeat split; lia.
    + destruct (Py.find_index _ es) as [j|]; [|apply IH].
      intro E. apply IH in E. destruct E as (Ex & Ey & Ec & Eh).
      cbn [negb andb]. rewrite Ex, Ey, Ec, Eh.
      cbn [Player.x Player.y Player.char Player.health Player.set_ammo].
      rewrite (filter_ext _ _ (strikes_ammo pl (Player.ammo pl + 2))).
      repeat split; lia.
Qed.

(** The flag after the loop: raised by a strike that leaves no health. *)
Lemma sweep_game_over : forall todo kept es pl over r,
  sweep dt w h m todo kept es pl over = Some r ->
  snd r = over
          || ((Player.health (snd (fst r)) <? Player.health pl)
              && (Player.health (snd (fst r)) <=? 0)).
Proof.
  induction todo as [|p rest IH]; intros kept es pl over r; cbn [sweep].
  - intro E. injection E as <-. cbn [fst snd].
    rewrite Z.ltb_irrefl. now rewrite orb_false_r.
  - destruct (off_grid w h (advance dt p)); [apply IH|].
    destruct (tile m _ _) as [c|]; [|discriminate]. cbn [Py.bind].
    destruct (String.eqb c WALL_CHAR); [apply IH|].
    destruct (Projectile.is_enemy (advance dt p)).
    + destruct (on_player pl (advance dt p)); [|apply IH].
      intro E. pose proof (sweep_player _ _ _ _ _ _ E) as (_ & _ & _ & Eh).
      apply IH in E. rewrite E. clear E.
      cbn [Player.health Player.set_health] in *.
      set (k := Z.of_nat _) in Eh. assert (0 <= k) by (unfold k; lia).
      set (h' := Player.health (snd (fst r))) in *.
      set (h0 := Player.health pl) in *.
      destruct (h0 - 10 <=? 0) eqn:E1; destruct over;
        destruct (h' <? h0 - 10) eqn:E2; destruct (h' <? h0) eqn:E3;
        destruct (h' <=? 0) eqn:E4; try reflexivity; exfalso;
        rewrite ?Z.leb_le, ?Z.leb_gt, ?Z.ltb_lt, ?Z.ltb_ge in *; lia.
    + destruct (Py.find_index _ es) as [j|]; [|apply IH].
      intro E. apply IH in E. exact E.
Qed.

(** Every kill takes one enemy and adds 2 to the ammunition. *)
Lemma sweep_ammo : forall todo kept es pl over r,
  sweep dt w h m todo kept es pl over = Some r ->
  Player.ammo (snd (fst r)) + 2 * Z.of_nat (List.length (snd (fst (fst r))))
  = Player.ammo pl + 2 * Z.of_nat (List.length es)
  /\ (List.length (snd (fst (fst r))) <= List.length es)%nat.
Proof.
  induction todo as [|p rest IH]; intros kept es pl over r; cbn [sweep].
  - intro E. injection E as <-. cbn [fst snd]. lia.
  - destruct (off_grid w h (advance dt p)); [apply IH|].
    destruct (tile m _ _) as [c|]; [|discriminate]. cbn [Py.bind].
    destruct (String.eqb c WALL_CHAR); [apply IH|].
    destruct (Projectile.is_enemy (advance dt p)).
    + destruct (on_player pl (advance dt p)); [|apply IH].
      intro E. apply IH in E. exact E.
    + destruct (Py.find_index _ es) as [j|] eqn:Hj; [|apply IH].
      intro E. apply IH in E. cbn [Player.ammo Player.set_ammo] in E.
      destruct (find_index_find _ _ _ Hj) as (a & _ & _ & _ & Hl).
      pose proof (remove_nth_length j es Hl). lia.
Qed.

Lemma sweep_enemies_sub : forall todo kept es pl over r e,
  sweep dt w h m todo kept es pl over = Some r ->
  In e (snd (fst (fst r))) -> In e es.
Proof.
  induction todo as [|p rest IH]; intros kept es pl over r e; cbn [sweep].
  - intro E. injection E as <-. auto.
  - destruct (off_grid w h (advance dt p)); [apply IH|].
    destruct (tile m _ _) as [c|]; [|discriminate]. cbn [Py.bind].
    destruct (String.eqb c WALL_CHAR); [apply IH|].
    destruct (Projectile.is_enemy (advance dt p)).
    + destruct (on_player pl (advance dt p)); apply IH.
    + destruct (Py.find_index _ es) as [j|]; [|apply IH].
      intros E H. eapply remove_nth_In. eapply IH; eauto.
Qed.

Lemma sweep_projectiles_sub : forall todo kept es pl over r p,
  sweep dt w h m todo kept es pl over = Some r ->
  In p (fst (fst (fst r))) -> In p kept \/ In p (List.map (advance dt) todo).
Proof.
  induction todo as [|a rest IH]; intros kept es pl over r p;
    cbn [sweep List.map].
  - intro E. injection E as <-. auto.
  - assert (K : forall es' pl' over',
               sweep dt w h m rest kept es' pl' over' = Some r ->
               In p (fst (fst (fst r))) ->
               In p kept \/ In p (advance dt a :: List.map (advance dt) rest)).
    { intros es' pl' over' E H. destruct (IH _ _ _ _ _ _ E H); simpl; tauto. }
    assert (K' : forall es' pl' over',
               sweep dt w h m rest (kept ++ [advance dt a]) es' pl' over' = Some r ->
               In p (fst (fst (fst r))) ->
               In p kept \/ In p (advance dt a :: List.map (advance dt) rest)).
    { intros es' pl' over' E H. destruct (IH _ _ _ _ _ _ E H) as [H1|H1].
      - rewrite in_app_iff in H1. simpl in *. tauto.
      - simpl. tauto. }
    destruct (off_grid w h (advance dt a)); [apply K|].
    destruct (tile m _ _) as [c|]; [|discriminate]. cbn [Py.bind].
    destruct (String.eqb c WALL_CHAR); [apply K|].
    destruct (Projectile.is_enemy (advance dt a)).
    + destruct (on_player pl (advance dt a)); [apply K | apply K'].
    + destruct (Py.find_index _ es) as [j|]; [apply K | apply K'].
Qed.

Lemma settled_health pl v es p :
  settled w h m pl es p -> settled w h m (Player.set_health pl v) es p.
Proof. intro H. exact H. Qed.

Lemma settled_kill pl v es j p :
  settled w h m pl es p ->
  settled w h m (Player.set_ammo pl v) (Py.remove_nth j es) p.
Proof.
  intros (H1 & H2 & H3). repeat split; auto.
  destruct (Projectile.is_enemy p); [exact H3|].
  now apply find_remove_nth_None.
Qed.

(** What is kept is on the grid, on no wall and on no opposing cell. *)
Lemma sweep_settled : forall todo kept es pl over r,
  Forall (settled w h m pl es) kept ->
  sweep dt w h m todo kept es pl over = Some r ->
  Forall (settled w h m (snd (fst r)) (snd (fst (fst r)))) (fst (fst (fst r))).
Proof.
  induction todo as [|p rest IH]; intros kept es pl over r Hk; cbn [sweep].
  - intro E. injection E as <-. exact Hk.
  - destruct (off_grid w h (advance dt p)) eqn:Hoff; [now apply IH|].
    destruct (tile m _ _) as [c|] eqn:Ht; [|discriminate]. cbn [Py.bind].
    destruct (String.eqb c WALL_CHAR) eqn:Hc; [now apply IH|].
    destruct (Projectile.is_enemy (advance dt p)) eqn:Hen.
    + destruct (on_player pl (advance dt p)) eqn:Hon.
      * apply IH. eapply Forall_impl; [|exact Hk].
        intros a. apply settled_health.
      * apply IH. apply Forall_app. split; [exact Hk|].
        constructor; [|constructor]. repeat split; auto.
        -- exists c. auto.
        -- now rewrite Hen.
    + destruct (Py.find_index _ es) as [j|] eqn:Hj.
      * apply IH. eapply Forall_impl; [|exact Hk].
        intros a. apply settled_kill.
      * apply IH. apply Forall_app. split; [exact Hk|].
        constructor; [|constructor]. repeat split; auto.
        -- exists c. auto.
        -- rewrite Hen.
           destruct (find (on_enemy (advance dt p)) es) as [e|] eqn:Hf; auto.
           destruct (find_index_Some _ _ _ Hf) as (k & Hk' & _). congruence.
Qed.

(** Every projectile is kept, or lost, or strikes the player, or kills. *)
Lemma sweep_count : forall todo kept es pl over r,
  sweep dt w h m todo kept es pl over = Some r ->
  (List.length (fst (fst (fst r)))
   + List.length (filter (lost dt w h m) todo)
   + List.length (filter (strikes dt w h m pl) todo)
   + (List.length es - List.length (snd (fst (fst r))))
   = List.length kept + List.length todo)%nat.
Proof.
  induction todo as [|p rest IH]; intros kept es pl over r; cbn [sweep filter].
  - intro E. injection E as <-. cbn. lia.
  - unfold lost at 1, strikes at 1.
    destruct (off_grid w h (advance dt p)).
    { intro E. apply IH in E. cbn [orb negb andb List.length]. lia. }
    destruct (tile m _ _) as [c|]; [|discriminate]. cbn [Py.bind].
    destruct (String.eqb c WALL_CHAR).
    { intro E. apply IH in E. cbn [orb negb andb List.length]. lia. }
    cbn [orb negb andb].
    destruct (Projectile.is_enemy (advance dt p)).
    + destruct (on_player pl (advance dt p)).
      * intro E. apply IH in E.
        rewrite (filter_ext _ _ (strikes_health pl (Player.health pl - 10))) in E.
        cbn [andb List.length]. lia.
      * intro E. apply IH in E. rewrite length_app in E.
        cbn [andb List.length] in *. lia.
    + destruct (Py.find_index _ es) as [j|] eqn:Hj.
      * intro E. pose proof (sweep_ammo _ _ _ _ _ _ E) as [_ Hle].
        apply IH in E.
        rewrite (filter_ext _ _ (strikes_ammo pl (Player.ammo pl + 2))) in E.
        destruct (find_index_find _ _ _ Hj) as (a & _ & _ & _ & Hl).
        pose proof (remove_nth_length j es Hl). cbn [andb List.length]. lia.
      * intro E. apply IH in E. rewrite length_app in E.
        cbn [andb List.length] in *. lia.
Qed.

End MainSweep.

(** ** Rationals: comparisons and [int] *)

Section QFacts.

Lemma Qlt_bool_false a b : Main.Qlt_bool a b = false <-> (b <= a)%Q.
Proof.
  unfold Main.Qlt_bool. rewrite negb_false_iff. apply Qle_bool_iff.
Qed.

Lemma Qle_bool_false a b : Qle_bool a b = false <-> (b < a)%Q.
Proof.
  split; intro H.
  - apply Qnot_le_lt. intro L. apply Qle_bool_iff in L. congruence.
  - destruct (Qle_bool a b) eqn:E; auto.
    apply Qle_bool_iff in E. exfalso. exact (Qlt_not_le _ _ H E).
Qed.

Lemma int_of_Q_range q w :
  (0 <= q)%Q -> (q < inject_Z w)%Q -> 0 <= Py.int_of_Q q < w.
Proof.
  destruct q as [n d]. unfold Qle, Qlt, Py.int_of_Q. cbn. intros H0 Hw.
  rewrite Z.quot_div_nonneg by lia. split.
  - apply Z.div_pos; lia.
  - apply Z.div_lt_upper_bound; lia.
Qed.

Lemma int_of_Q_inside q k :
  1 <= Py.int_of_Q q -> Py.int_of_Q q <= k ->
  (0 <= q)%Q /\ (q < inject_Z (k + 1))%Q.
Proof.
  destruct q as [n d]. unfold Qle, Qlt, Py.int_of_Q. cbn. intros H1 Hk.
  assert (Hn : 0 <= n).
  { destruct (Z.lt_ge_cases n 0) as [Hneg|]; [|assumption].
    exfalso. assert (E : n = - (- n)) by lia. rewrite E in H1.
    rewrite Z.quot_opp_l in H1 by lia.
    pose proof (Z.quot_pos (- n) (Z.pos d)). lia. }
  rewrite Z.quot_div_nonneg in * by lia.
  pose proof (Z.div_mod n (Z.pos d)).
  pose proof (Z.mod_pos_bound n (Z.pos d)).
  nia.
Qed.

Lemma main_off_grid_false w h p :
  Main.off_grid w h p = false
  <-> Main.in_grid w h (Main.Projectile.x p) (Main.Projectile.y p).
Proof.
  unfold Main.off_grid, Main.in_grid.
  rewrite !orb_false_iff, !Qlt_bool_false, !Qle_bool_false. tauto.
Qed.

Lemma in_grid_inject w h px py :
  0 <= px < w -> 0 <= py < h -> Main.in_grid w h (inject_Z px) (inject_Z py).
Proof.
  intros Hx Hy. unfold Main.in_grid.
  change 0%Q with (inject_Z 0).
  rewrite <- !Zle_Qle, <- !Zlt_Qlt. lia.
Qed.

End QFacts.

(** ** [main.py]: the map *)

Section MapFacts.

Import Main.

Lemma index_lt len i n : Py.index len i = Some n -> (Z.of_nat n < len).
Proof.
  unfold Py.index.
  destruct ((0 <=? i) && (i <? len)) eqn:E1.
  - intro E. injection E as <-. apply andb_prop in E1. lia.
  - destruct ((- len <=? i) && (i <? 0)) eqn:E2; [|discriminate].
    intro E. injection E as <-. apply andb_prop in E2. lia.
Qed.

Lemma index_in_range len i :
  0 <= i < len -> Py.index len i = Some (Z.to_nat i).
Proof.
  intro H. unfold Py.index.
  replace ((0 <=? i) && (i <? len)) with true; [reflexivity|].
  symmetry. apply andb_true_intro. split; [apply Z.leb_le | apply Z.ltb_lt]; lia.
Qed.

Lemma set_nth_length {A} n (v : A) : forall l,
  List.length (Py.set_nth n v l) = List.length l.
Proof.
  induction n as [|n IH]; intros [|a l]; simpl; auto.
Qed.

Lemma set_nth_nth_error {A} n (v : A) : forall l k,
  (n < List.length l)%nat ->
  nth_error (Py.set_nth n v l) k = if (n =? k)%nat then Some v else nth_error l k.
Proof.
  induction n as [|n IH]; intros [|a l] k H; simpl in H; try lia.
  - destruct k; reflexivity.
  - destruct k; simpl; [reflexivity|]. apply IH. lia.
Qed.

Lemma set_nth_Forall {A} (P : A -> Prop) n v : forall l,
  Forall P l -> P v -> Forall P (Py.set_nth n v l).
Proof.
  induction n as [|n IH]; intros [|a l] Hl Hv; simpl; auto;
    inversion Hl; subst; constructor; auto.
Qed.

(** Writing a wall keeps the shape of the map and every wall it had. *)
Lemma set_tile_wall w h m cy cx m' :
  set_tile m cy cx WALL_CHAR = Some m' ->
  shaped w h m ->
  shaped w h m'
  /\ (forall ty tx, tile m ty tx = Some WALL_CHAR -> tile m' ty tx = Some WALL_CHAR).
Proof.
  unfold set_tile, tile, Py.getitem, Py.setitem. intros E [Hlen Hrows].
  destruct (Py.index (Z.of_nat (List.length m)) cy) as [ny|] eqn:Hy; [|discriminate].
  cbn [Py.bind] in E.
  destruct (nth_error m ny) as [row|] eqn:Hrow; [|discriminate].
  cbn [Py.bind] in E.
  destruct (Py.index (Z.of_nat (List.length row)) cx) as [nx|] eqn:Hx; [|discriminate].
  cbn [Py.bind] in E. injection E as <-.
  pose proof (index_lt _ _ _ Hy) as Ly. pose proof (index_lt _ _ _ Hx) as Lx.
  assert (Hrl : List.length row = Z.to_nat w).
  { rewrite Forall_forall in Hrows. apply Hrows. eapply nth_error_In; eauto. }
  split.
  - split; [now rewrite set_nth_length|].
    apply set_nth_Forall; [exact Hrows | now rewrite set_nth_length].
  - intros ty tx. rewrite set_nth_length.
    destruct (Py.index (Z.of_nat (List.length m)) ty) as [my|]; [|discriminate].
    cbn [Py.bind]. rewrite set_nth_nth_error by lia.
    destruct (ny =? my)%nat eqn:Eny.
    + apply Nat.eqb_eq in Eny. subst my. rewrite Hrow. cbn [Py.bind].
      rewrite set_nth_length.
      destruct (Py.index (Z.of_nat (List.length row)) tx) as [mx|]; [|discriminate].
      cbn [Py.bind]. rewrite set_nth_nth_error by lia.
      destruct (nx =? mx)%nat; auto.
    + auto.
Qed.

Lemma random_walls_ok w h walls : forall rounds m m',
  random_walls m walls rounds = Some m' ->
  shaped w h m ->
  shaped w h m'
  /\ (forall ty tx, tile m ty tx = Some WALL_CHAR -> tile m' ty tx = Some WALL_CHAR).
Proof.
  induction rounds as [|i rest IH]; intros m m' E Hs; cbn [random_walls] in E.
  - injection E as <-. auto.
  - destruct (set_tile m _ _ WALL_CHAR) as [m1|] eqn:E1; [|discriminate].
    cbn [Py.bind] in E.
    destruct (set_tile_wall w h _ _ _ _ E1 Hs) as [Hs1 Hw1].
    destruct (IH _ _ E Hs1) as [Hs' Hw']. auto.
Qed.

Lemma shaped_b_true w h m : shaped_b w h m = true -> shaped w h m.
Proof.
  unfold shaped_b, shaped. intro H. apply andb_prop in H. destruct H as [H1 H2].
  apply Nat.eqb_eq in H1. split; [exact H1|].
  rewrite forallb_forall in H2. apply Forall_forall.
  intros row Hr. apply Nat.eqb_eq. now apply H2.
Qed.

Lemma walled_b_true w h m : walled_b w h m = true -> walled w h m.
Proof.
  unfold walled_b, walled. intros H cy cx Hy Hx Hb.
  rewrite forallb_forall in H.
  assert (Iy : In (Z.to_nat cy) (seq 0 (Z.to_nat h))) by (apply in_seq; lia).
  specialize (H _ Iy). rewrite forallb_forall in H.
  assert (Ix : In (Z.to_nat cx) (seq 0 (Z.to_nat w))) by (apply in_seq; lia).
  specialize (H _ Ix). cbn zeta in H. rewrite !Z2Nat.id in H by lia.
  replace ((cy =? 0) || (cy =? h - 1) || (cx =? 0) || (cx =? w - 1)) with true in H.
  - destruct (tile m cy cx) as [c|]; [|discriminate].
    apply String.eqb_eq in H. now subst.
  - symmetry. rewrite !orb_true_iff, !Z.eqb_eq. tauto.
Qed.

Lemma borders_ok :
  exists m, borders MAP_WIDTH MAP_HEIGHT = Some m
            /\ shaped MAP_WIDTH MAP_HEIGHT m /\ walled MAP_WIDTH MAP_HEIGHT m.
Proof.
  assert (E : match borders MAP_WIDTH MAP_HEIGHT with
              | Some m => shaped_b MAP_WIDTH MAP_HEIGHT m
                          && walled_b MAP_WIDTH MAP_HEIGHT m
              | None => false
              end = true) by (vm_compute; reflexivity).
  destruct (borders MAP_WIDTH MAP_HEIGHT) as [m|]; [|discriminate].
  apply andb_prop in E. destruct E as [E1 E2].
  exists m. split; [reflexivity|].
  split; [now apply shaped_b_true | now apply walled_b_true].
Qed.

Lemma generate_map_ok walls m :
  generate_map MAP_WIDTH MAP_HEIGHT walls = Some m ->
  shaped MAP_WIDTH MAP_HEIGHT m /\ walled MAP_WIDTH MAP_HEIGHT m.
Proof.
  unfold generate_map. destruct borders_ok as (m0 & -> & Hs & Hw).
  cbn [Py.bind]. intro E.
  destruct (random_walls_ok _ _ _ _ _ _ E Hs) as [Hs' Hmono].
  split; [exact Hs'|]. intros cy cx Hy Hx Hb. apply Hmono. now apply Hw.
Qed.

(** On a map of the right shape every cell of the grid has a tile. *)
Lemma tile_shaped w h m cy cx :
  shaped w h m -> 0 <= cy < h -> 0 <= cx < w ->
  exists c, tile m cy cx = Some c.
Proof.
  intros [Hlen Hrows] Hy Hx. unfold tile, Py.getitem.
  rewrite index_in_range by lia. cbn [Py.bind].
  destruct (nth_error m (Z.to_nat cy)) as [row|] eqn:Hrow.
  - cbn [Py.bind].
    assert (Hrl : List.length row = Z.to_nat w).
    { rewrite Forall_forall in Hrows. apply Hrows. eapply nth_error_In; eauto. }
    rewrite index_in_range by lia. cbn [Py.bind].
    destruct (nth_error row (Z.to_nat cx)) as [c|] eqn:Hc; [eauto|].
    apply nth_error_None in Hc. lia.
  - apply nth_error_None in Hrow. lia.
Qed.

Lemma floor_not_wall c :
  String.eqb c FLOOR_CHAR = true -> String.eqb c WALL_CHAR = false.
Proof. intro H. apply String.eqb_eq in H. now subst. Qed.

(** A floor tile of a walled map is off the border. *)
Lemma floor_inside w h m cy cx c :
  walled w h m -> 0 <= cy < h -> 0 <= cx < w ->
  tile m cy cx = Some c -> String.eqb c WALL_CHAR = false ->
  1 <= cy <= h - 2 /\ 1 <= cx <= w - 2.
Proof.
  intros Hw Hy Hx Ht Hc.
  assert (N : ~ (cy = 0 \/ cy = h - 1 \/ cx = 0 \/ cx = w - 1)).
  { intro Hb. rewrite (Hw cy cx Hy Hx Hb) in Ht. injection Ht as <-.
    discriminate Hc. }
  lia.
Qed.

End MapFacts.

(** ** [main.py]: the invariant of the loop *)

Section MainInvariant.

Import Main.

Variable sqrt : Q -> Q.

Lemma move_entity_on_grid g ddx ddy g' :
  on_grid g -> move_entity g ddx ddy = Some g' -> on_grid g'.
Proof.
  intros Hg. pose proof Hg as (Hw & Hh & Hs & Hwall & Hp & He & Hpr).
  unfold move_entity.
  destruct (_ && _) eqn:C; [|intro E; injection E as <-; exact Hg].
  destruct (tile (map g) _ _) as [c|]; [|discriminate]. cbn [Py.bind].
  destruct (String.eqb c FLOOR_CHAR);
    intro E; injection E as <-; [|exact Hg].
  repeat (apply andb_prop in C; destruct C as [C ?]).
  rewrite Hw, Hh in *.
  unfold on_grid, player_in_grid.
  cbn [width height map player enemies projectiles set_player Player.x Player.y
       Player.set_xy].
  repeat match goal with |- _ /\ _ => split end; try assumption; lia.
Qed.

Lemma shoot_on_grid sx sy sdx sdy e g :
  on_grid g -> in_grid MAP_WIDTH MAP_HEIGHT sx sy ->
  on_grid (shoot sx sy sdx sdy e g).
Proof.
  intros Hg Hin. pose proof Hg as (Hw & Hh & Hs & Hwall & Hp & He & Hpr).
  unfold shoot.
  assert (Hnew : Forall projectile_in_grid
                   (projectiles g ++ [Projectile.new sx sy sdx sdy e])).
  { apply Forall_app. split; [exact Hpr|]. constructor; [exact Hin | constructor]. }
  destruct (negb e); [destruct (Player.ammo (player g) <=? 0)|];
    try exact Hg; unfold on_grid;
    cbn [width height map player enemies projectiles set_player set_projectiles];
    repeat match goal with |- _ /\ _ => split end; assumption.
Qed.

Lemma handle_input_on_grid k g g' :
  on_grid g -> handle_input k g = Some g' -> on_grid g'.
Proof.
  intros Hg. pose proof Hg as (Hw & Hh & Hs & Hwall & Hp & He & Hpr).
  assert (Hin : in_grid MAP_WIDTH MAP_HEIGHT (inject_Z (Player.x (player g)))
                  (inject_Z (Player.y (player g)))).
  { apply in_grid_inject; apply Hp. }
  destruct k; cbn [handle_input]; try apply move_entity_on_grid; auto.
  - repeat match goal with
           | |- context [if ?b then _ else _] => destruct b
           end;
      intro E; injection E as <-; unfold player_shoot;
      try (apply shoot_on_grid; assumption); exact Hg.
  - intro E. injection E as <-. exact Hg.
Qed.

Lemma update_projectiles_on_grid dt g g' :
  on_grid g -> update_projectiles dt g = Some g' -> on_grid g'.
Proof.
  intros (Hw & Hh & Hs & Hwall & Hp & He & Hpr).
  rewrite update_projectiles_sweep.
  destruct (sweep _ _ _ _ _ _ _ _ _) as [r|] eqn:E; [|discriminate].
  cbn [option_map]. intro E'. injection E' as <-.
  pose proof (sweep_player _ _ _ _ _ _ _ _ _ _ E) as (Px & Py' & _ & _).
  pose proof (sweep_settled _ _ _ _ _ _ _ _ _ _ (Forall_nil _) E) as Hk.
  unfold on_grid, player_in_grid.
  cbn [swept width height map player enemies projectiles].
  rewrite Px, Py'.
  repeat match goal with |- _ /\ _ => split end; try assumption; try apply Hp.
  - rewrite Forall_forall in *. intros e Hin. apply He.
    eapply sweep_enemies_sub; eauto.
  - eapply Forall_impl; [|exact Hk]. intros p (Hoff & _).
    rewrite Hw, Hh in Hoff. now apply main_off_grid_false.
Qed.

Lemma is_free_inside g new_x new_y :
  on_grid g -> is_free g new_x new_y = Some true ->
  in_grid MAP_WIDTH MAP_HEIGHT new_x new_y.
Proof.
  intros (Hw & Hh & Hs & Hwall & _) E. unfold is_free in E.
  destruct (_ && _) eqn:C; [|discriminate].
  destruct (tile (map g) _ _) as [c|] eqn:Ht; [|discriminate].
  cbn [Py.bind] in E. injection E as E.
  repeat (apply andb_prop in C; destruct C as [C ?]).
  rewrite Hw, Hh in *.
  apply Z.leb_le in C, H0. apply Z.ltb_lt in H1, H.
  destruct (floor_inside MAP_WIDTH MAP_HEIGHT (map g) (Py.int_of_Q new_y)
              (Py.int_of_Q new_x) c Hwall) as [Iy Ix];
    auto using floor_not_wall; try lia.
  destruct (int_of_Q_inside new_x (MAP_WIDTH - 2)) as [X0 X1]; try lia.
  destruct (int_of_Q_inside new_y (MAP_HEIGHT - 2)) as [Y0 Y1]; try lia.
  unfold in_grid. repeat split; auto.
  - eapply Qlt_le_trans; [exact X1|]. rewrite <- Zle_Qle. lia.
  - eapply Qlt_le_trans; [exact Y1|]. rewrite <- Zle_Qle. lia.
Qed.

Lemma step_enemy_on_grid dt u1 u2 g e e' :
  on_grid g -> enemy_in_grid e ->
  step_enemy sqrt dt u1 u2 g e = Some e' -> enemy_in_grid e'.
Proof.
  intros Hg He. unfold step_enemy.
  destruct (is_free g _ _) as [[|]|] eqn:F; [| |discriminate];
    cbn [Py.bind]; intro E; injection E as <-; [|exact He].
  unfold enemy_in_grid. cbn [Enemy.x Enemy.y Enemy.set_xy].
  eapply is_free_inside; eauto.
Qed.

(** What [update_enemies] leaves alone, and what it appends. *)
Lemma update_enemies_loop_frame dt now rnd : forall es k g r,
  update_enemies_loop sqrt dt now rnd k es g = Some r ->
  width (snd r) = width g /\ height (snd r) = height g
  /\ map (snd r) = map g /\ player (snd r) = player g
  /\ enemies (snd r) = enemies g
  /\ last_update (snd r) = last_update g /\ game_over (snd r) = game_over g
  /\ List.length (fst r) = List.length es
  /\ exists shots, projectiles (snd r) = projectiles g ++ shots
                   /\ Forall (fun p => Projectile.is_enemy p = true) shots.
Proof.
  induction es as [|e rest IH]; intros k g r; cbn [update_enemies_loop].
  - intro E. injection E as <-. cbn. repeat split; auto.
    exists []. now rewrite app_nil_r.
  - destruct (step_enemy sqrt dt _ _ g e) as [e'|]; [|discriminate].
    cbn [Py.bind].
    destruct (Qle_bool _ _).
    + destruct (update_enemies_loop _ _ _ _ _ rest _) as [r'|] eqn:E';
        [|discriminate].
      cbn [Py.bind]. intro E. injection E as <-.
      destruct (IH _ _ _ E') as (H1 & H2 & H3 & H4 & H5 & H6 & H7 & H8 & sh & H9 & H10).
      cbn [fst snd List.length]. unfold enemy_shot, shoot in *.
      cbn [negb width height map player enemies last_update game_over projectiles
           set_projectiles] in *.
      repeat split; auto.
      exists (Projectile.new (Enemy.x e') (Enemy.y e')
                (fst (normalized sqrt (inject_Z (Player.x (player g)) - Enemy.x e')
                        (inject_Z (Player.y (player g)) - Enemy.y e')))
                (snd (normalized sqrt (inject_Z (Player.x (player g)) - Enemy.x e')
                        (inject_Z (Player.y (player g)) - Enemy.y e')))
                true :: sh).
      split; [now rewrite H9, <- app_assoc | now constructor].
    + destruct (update_enemies_loop _ _ _ _ _ rest _) as [r'|] eqn:E';
        [|discriminate].
      cbn [Py.bind]. intro E. injection E as <-.
      destruct (IH _ _ _ E') as (H1 & H2 & H3 & H4 & H5 & H6 & H7 & H8 & H9).
      cbn [fst snd List.length]. repeat split; auto.
Qed.

Lemma update_enemies_loop_on_grid dt now rnd : forall es k g r,
  on_grid g -> Forall enemy_in_grid es ->
  update_enemies_loop sqrt dt now rnd k es g = Some r ->
  Forall enemy_in_grid (fst r) /\ Forall projectile_in_grid (projectiles (snd r)).
Proof.
  induction es as [|e rest IH]; intros k g r Hg Hes; cbn [update_enemies_loop].
  - intro E. injection E as <-. cbn. split; [constructor | apply Hg].
  - inversion Hes as [|? ? He Hrest]; subst.
    destruct (step_enemy sqrt dt _ _ g e) as [e'|] eqn:S1; [|discriminate].
    pose proof (step_enemy_on_grid _ _ _ _ _ _ Hg He S1) as He'.
    cbn [Py.bind].
    destruct (Qle_bool _ _).
    + destruct (update_enemies_loop _ _ _ _ _ rest _) as [r'|] eqn:E';
        [|discriminate].
      cbn [Py.bind]. intro E. injection E as <-.
      assert (Hg1 : on_grid (enemy_shot sqrt g e'))
        by (apply shoot_on_grid; assumption).
      destruct (IH _ _ _ Hg1 Hrest E') as [A B].
      cbn [fst snd]. split; [constructor; assumption | exact B].
    + destruct (update_enemies_loop _ _ _ _ _ rest _) as [r'|] eqn:E';
        [|discriminate].
      cbn [Py.bind]. intro E. injection E as <-.
      destruct (IH _ _ _ Hg Hrest E') as [A B].
      cbn [fst snd]. split; [constructor; assumption | exact B].
Qed.

Lemma update_enemies_on_grid dt now rnd g g' :
  on_grid g -> update_enemies sqrt dt now rnd g = Some g' -> on_grid g'.
Proof.
  intros Hg. unfold update_enemies.
  destruct (update_enemies_loop _ _ _ _ _ _ _) as [r|] eqn:E; [|discriminate].
  cbn [Py.bind]. intro E'. injection E' as <-.
  pose proof Hg as (Hw & Hh & Hs & Hwall & Hp & He & Hpr).
  destruct (update_enemies_loop_frame _ _ _ _ _ _ _ E)
    as (H1 & H2 & H3 & H4 & _).
  destruct (update_enemies_loop_on_grid _ _ _ _ _ _ _ Hg He E) as [A B].
  unfold on_grid. cbn [width height map player enemies projectiles set_enemies].
  rewrite H1, H2, H3, H4.
  repeat match goal with |- _ /\ _ => split end; assumption.
Qed.

Lemma tick_on_grid inp g g' :
  on_grid g -> tick sqrt inp g = Some g' -> on_grid g'.
Proof.
  intros Hg. unfold tick.
  assert (H0 : on_grid (set_last_update g (current_time inp))) by exact Hg.
  destruct (handle_input _ _) as [g1|] eqn:E1; [|discriminate]. cbn [Py.bind].
  destruct (update_projectiles _ g1) as [g2|] eqn:E2; [|discriminate].
  cbn [Py.bind].
  destruct (update_enemies _ _ _ _ g2) as [g3|] eqn:E3; [|discriminate].
  cbn [Py.bind]. destruct (render _ g3); [|discriminate]. cbn [Py.bind].
  intro E. injection E as <-.
  eapply update_enemies_on_grid; [|exact E3].
  eapply update_projectiles_on_grid; [|exact E2].
  eapply handle_input_on_grid; [|exact E1]. exact H0.
Qed.

Lemma spawn_entity_inside m : forall draws pos,
  Forall draw_ok draws -> spawn_entity m draws = Some pos -> draw_ok pos.
Proof.
  induction draws as [|[sx sy] rest IH]; intros pos Hd; cbn [spawn_entity];
    [discriminate|].
  inversion Hd as [|? ? H1 H2]; subst.
  destruct (tile m sy sx) as [c|]; [|discriminate]. cbn [Py.bind].
  destruct (String.eqb c FLOOR_CHAR); [|now apply IH].
  intro E. now injection E as <-.
Qed.

Lemma spawn_enemies_on_grid m sd : forall ks es,
  (forall k, Forall draw_ok (enemy_draws sd k)) ->
  spawn_enemies m sd ks = Some es ->
  Forall enemy_in_grid es /\ List.length es = List.length ks.
Proof.
  induction ks as [|k rest IH]; intros es Hd; cbn [spawn_enemies].
  - intro E. injection E as <-. split; [constructor | reflexivity].
  - destruct (spawn_entity m (enemy_draws sd k)) as [pos|] eqn:S1; [|discriminate].
    cbn [Py.bind].
    destruct (spawn_enemies m sd rest) as [es'|] eqn:S2; [|discriminate].
    cbn [Py.bind]. intro E. injection E as <-.
    destruct (IH _ Hd eq_refl) as [A B].
    pose proof (spawn_entity_inside _ _ _ (Hd k) S1) as [Ix Iy].
    split; [|cbn; now rewrite B].
    constructor; [|exact A].
    unfold enemy_in_grid. cbn [Enemy.x Enemy.y Enemy.new].
    apply in_grid_inject; unfold MAP_WIDTH, MAP_HEIGHT in *; lia.
Qed.

Lemma init_on_grid sd g :
  seed_ok sd -> init sd = Some g ->
  on_grid g /\ List.length (enemies g) = NUM_ENEMIES
  /\ Player.health (player g) = 100 /\ game_over g = false.
Proof.
  intros (Hwalls & Hpd & Hed & Hr). unfold init.
  destruct (generate_map _ _ _) as [m|] eqn:G; [|discriminate]. cbn [Py.bind].
  destruct (spawn_entity m (player_draws sd)) as [pos|] eqn:S1; [|discriminate].
  cbn [Py.bind].
  destruct (spawn_enemies m sd _) as [es|] eqn:S2; [|discriminate].
  cbn [Py.bind]. intro E. injection E as <-.
  destruct (generate_map_ok _ _ G) as [Hs Hwall].
  pose proof (spawn_entity_inside _ _ _ Hpd S1) as [Ix Iy].
  destruct (spawn_enemies_on_grid _ _ _ _ Hed S2) as [A B].
  rewrite length_seq in B. destruct Ix, Iy.
  split; [|split; [exact B | split; reflexivity]].
  unfold on_grid, player_in_grid.
  cbn [width height map player enemies projectiles Player.new Player.x Player.y].
  repeat match goal with |- _ /\ _ => split end;
    try assumption; try reflexivity; try constructor;
    unfold MAP_WIDTH, MAP_HEIGHT in *; lia.
Qed.

Lemma main_reachable_on_grid g : reachable sqrt g -> on_grid g.
Proof.
  induction 1 as [sd g Hsd Hi | g inp g' _ IH _ _ Ht _
                  | g inp g' sd g0 _ _ _ _ _ _ Hsd Hi
                  | g inp g' _ IH _ _ Ht _].
  - now apply init_on_grid in Hi.
  - eapply tick_on_grid; eauto.
  - now apply init_on_grid in Hi.
  - apply (tick_on_grid _ _ _ IH) in Ht. exact Ht.
Qed.

End MainInvariant.

(** ** [main.py]: health and the flag along the loop *)

Section MainHealth.

Import Main.

Variable sqrt : Q -> Q.

Lemma shoot_frame sx sy sdx sdy e g :
  width (shoot sx sy sdx sdy e g) = width g
  /\ height (shoot sx sy sdx sdy e g) = height g
  /\ map (shoot sx sy sdx sdy e g) = map g
  /\ enemies (shoot sx sy sdx sdy e g) = enemies g
  /\ game_over (shoot sx sy sdx sdy e g) = game_over g
  /\ Player.health (player (shoot sx sy sdx sdy e g)) = Player.health (player g)
  /\ Player.x (player (shoot sx sy sdx sdy e g)) = Player.x (player g)
  /\ Player.y (player (shoot sx sy sdx sdy e g)) = Player.y (player g).
Proof.
  unfold shoot. destruct (negb e); [destruct (Player.ammo (player g) <=? 0)|];
    cbn; repeat split.
Qed.

Lemma move_entity_frame g ddx ddy g' :
  move_entity g ddx ddy = Some g' ->
  enemies g' = enemies g /\ game_over g' = game_over g
  /\ Player.health (player g') = Player.health (player g)
  /\ projectiles g' = projectiles g.
Proof.
  unfold move_entity. destruct (_ && _).
  - destruct (tile (map g) _ _) as [c|]; [|discriminate]. cbn [Py.bind].
    destruct (String.eqb c FLOOR_CHAR); intro E; injection E as <-;
      cbn; repeat split.
  - intro E. injection E as <-. repeat split.
Qed.

(** [handle_input] leaves the enemies and the health alone and can only
    raise the flag. *)
Lemma handle_input_frame k g g' :
  handle_input k g = Some g' ->
  enemies g' = enemies g
  /\ Player.health (player g') = Player.health (player g)
  /\ (game_over g = true -> game_over g' = true).
Proof.
  destruct k; cbn [handle_input];
    try (intro E; apply move_entity_frame in E;
         destruct E as (E1 & E2 & E3 & _); rewrite E1, E2, E3; auto).
  - repeat match goal with
           | |- context [if ?b then _ else _] => destruct b
           end;
      intro E; injection E as <-; unfold player_shoot;
      try (match goal with
           | |- context [shoot ?a ?b ?c ?d ?e ?g] =>
               destruct (shoot_frame a b c d e g) as (_ & _ & _ & E1 & E2 & E3 & _);
               rewrite E1, E2, E3; auto
           end);
      cbn; auto.
  - intro E. injection E as <-. auto.
Qed.

Lemma update_projectiles_health dt g g' :
  update_projectiles dt g = Some g' ->
  Player.x (player g') = Player.x (player g)
  /\ Player.y (player g') = Player.y (player g)
  /\ Player.health (player g')
     = Player.health (player g)
       - 10 * Z.of_nat (List.length
                          (filter (strikes dt (width g) (height g) (map g) (player g))
                                  (projectiles g)))
  /\ game_over g'
     = game_over g
       || ((Player.health (player g') <? Player.health (player g))
           && (Player.health (player g') <=? 0)).
Proof.
  rewrite update_projectiles_sweep.
  destruct (sweep _ _ _ _ _ _ _ _ _) as [r|] eqn:E; [|discriminate].
  cbn [option_map]. intro E'. injection E' as <-.
  pose proof (sweep_player _ _ _ _ _ _ _ _ _ _ E) as (Px & Py' & _ & Ph).
  pose proof (sweep_game_over _ _ _ _ _ _ _ _ _ _ E) as Po.
  cbn [swept player game_over]. auto.
Qed.

Lemma tick_health inp g g' :
  tick sqrt inp g = Some g' ->
  Player.health (player g') <= Player.health (player g)
  /\ (Player.health (player g') <= 0 -> Player.health (player g) <= 0 ->
      game_over g = true -> game_over g' = true)
  /\ (Player.health (player g') <= 0 -> 0 < Player.health (player g) ->
      game_over g' = true).
Proof.
  unfold tick.
  destruct (handle_input _ _) as [g1|] eqn:E1; [|discriminate]. cbn [Py.bind].
  destruct (update_projectiles _ g1) as [g2|] eqn:E2; [|discriminate].
  cbn [Py.bind].
  destruct (update_enemies _ _ _ _ g2) as [g3|] eqn:E3; [|discriminate].
  cbn [Py.bind]. destruct (render _ g3); [|discriminate]. cbn [Py.bind].
  intro E. injection E as <-.
  apply handle_input_frame in E1. destruct E1 as (_ & H1 & O1).
  cbn [player game_over set_last_update] in H1, O1.
  apply update_projectiles_health in E2. destruct E2 as (_ & _ & H2 & O2).
  unfold update_enemies in E3.
  destruct (update_enemies_loop _ _ _ _ _ _ _) as [r|] eqn:E; [|discriminate].
  cbn [Py.bind] in E3. injection E3 as <-.
  destruct (update_enemies_loop_frame _ _ _ _ _ _ _ _ E)
    as (_ & _ & _ & P3 & _ & _ & O3 & _).
  cbn [player game_over set_enemies]. rewrite P3, O3, O2.
  set (k := Z.of_nat _) in H2. assert (0 <= k) by (unfold k; lia).
  rewrite H1 in *.
  set (h2 := Player.health (player g2)) in *.
  set (h0 := Player.health (player g)) in *.
  repeat split.
  - lia.
  - intros _ _ Hov. now rewrite (O1 Hov).
  - intros Hle Hpos.
    replace (h2 <? h0) with true by (symmetry; apply Z.ltb_lt; lia).
    replace (h2 <=? 0) with true by (symmetry; apply Z.leb_le; lia).
    apply orb_true_r.
Qed.

(** Along the loop: the health is at most 100, no health means the flag is
    raised, and a running game has enemies. *)
Lemma reachable_alive g :
  reachable sqrt g ->
  Player.health (player g) <= 100
  /\ (Player.health (player g) <= 0 -> game_over g = true)
  /\ (game_over g = false -> enemies g <> []).
Proof.
  induction 1 as [sd g Hsd Hi | g inp g' _ IH Hrun _ Ht Hw
                  | g inp g' sd g0 _ _ _ _ _ _ Hsd Hi
                  | g inp g' _ IH _ _ Ht _].
  - destruct (init_on_grid _ _ Hsd Hi) as (_ & Hl & Hh & Ho).
    rewrite Hh. repeat split; try lia.
    intros _ Hn. rewrite Hn in Hl. discriminate Hl.
  - destruct IH as (I1 & I2 & _).
    destruct (tick_health _ _ _ Ht) as (T1 & T2 & T3).
    repeat split.
    + lia.
    + intro Hle. destruct (Z.lt_ge_cases 0 (Player.health (player g))).
      * now apply T3.
      * rewrite I2 in Hrun by lia. discriminate Hrun.
    + intros _ Hn. unfold wins in Hw. rewrite Hn in Hw. discriminate Hw.
  - destruct (init_on_grid _ _ Hsd Hi) as (_ & Hl & Hh & Ho).
    rewrite Hh. repeat split; try lia.
    intros _ Hn. rewrite Hn in Hl. discriminate Hl.
  - destruct IH as (I1 & I2 & _).
    destruct (tick_health _ _ _ Ht) as (T1 & T2 & T3).
    cbn [player game_over enemies set_game_over]. repeat split.
    + lia.
    + discriminate.
Qed.

End MainHealth.

(** ** The concrete runs are runs of the programs *)

Section Runs.

Lemma run_frames_reachable : forall inps g g',
  Backup.reachable g -> Backup.run_frames inps g = Some g' ->
  Backup.reachable g'.
Proof.
  induction inps as [|inp rest IH]; intros g g' Hg; cbn [Backup.run_frames].
  - intro E. now injection E as <-.
  - destruct (_ && _) eqn:C; [|discriminate].
    destruct (Backup.frame inp g) as [g1|] eqn:F; [|discriminate].
    cbn [Py.bind]. apply IH.
    repeat (apply andb_prop in C; destruct C as [C ?]).
    apply (Backup.reach_frame g inp g1); auto.
    + now apply negb_true_iff.
    + intro K. rewrite K in *. discriminate.
    + now apply Qle_bool_iff.
    + unfold Backup.randint_ok, Backup.randint_ok_b in *.
      destruct (Backup.side inp);
        match goal with
        | E : (_ && _) = true |- _ => apply andb_prop in E; destruct E
        end; lia.
Qed.

Lemma run_ticks_reachable sqrt : forall inps g g',
  Main.reachable sqrt g ->
  Forall (fun inp => forall k, Main.random_ok (Main.rnd inp k)) inps ->
  Main.run_ticks sqrt inps g = Some g' ->
  Main.reachable sqrt g'.
Proof.
  induction inps as [|inp rest IH]; intros g g' Hg Hr; cbn [Main.run_ticks].
  - intro E. now injection E as <-.
  - inversion Hr as [|? ? R1 R2]; subst.
    destruct (Main.game_over g) eqn:O; [discriminate|].
    destruct (Main.tick sqrt inp g) as [g1|] eqn:T; [|discriminate].
    cbn [Py.bind]. destruct (Main.wins g1) eqn:W; [discriminate|].
    apply IH; [|exact R2].
    now apply (Main.reach_tick sqrt g inp g1).
Qed.

Lemma at_top_edge_reachable : Backup.reachable Examples.at_top_edge.
Proof.
  apply (run_frames_reachable Examples.walk_up (Backup.init 40 20 0 0));
    [apply Backup.reach_init | vm_compute; reflexivity].
Qed.

Lemma crowded_seed_ok : Main.seed_ok Examples.crowded_seed.
Proof.
  unfold Main.seed_ok, Main.draw_ok, Main.random_ok, Examples.crowded_seed.
  cbn. repeat split; try (intros; cbv; intuition congruence).
  - repeat constructor; cbv; congruence.
  - intro k. repeat constructor; cbv; congruence.
  - destruct k; cbv; congruence.
  - destruct k; reflexivity.
Qed.

Lemma crowded_init : Main.init Examples.crowded_seed = Some Examples.crowded.
Proof. vm_compute. reflexivity. Qed.

Lemma crowded_reachable sqrt : Main.reachable sqrt Examples.crowded.
Proof.
  apply (Main.reach_init sqrt Examples.crowded_seed);
    [apply crowded_seed_ok | apply crowded_init].
Qed.

Lemma calm_random_ok now k : Main.random_ok (Main.rnd (Examples.calm now) k).
Proof.
  unfold Main.random_ok, Examples.calm. cbn [Main.rnd].
  destruct k as [|[|[|k]]]; split; cbv; congruence.
Qed.

Lemma fired_reachable : Main.reachable Examples.sqrt_Q Examples.fired.
Proof.
  apply (run_ticks_reachable Examples.sqrt_Q [Examples.calm 1] Examples.crowded);
    [apply crowded_reachable
    | repeat constructor; apply calm_random_ok
    | vm_compute; reflexivity].
Qed.

Lemma fallen_reachable : Main.reachable Examples.sqrt_Q Examples.fallen.
Proof.
  apply (run_ticks_reachable Examples.sqrt_Q
           [Examples.calm 1; Examples.calm 2; Examples.calm 3] Examples.crowded);
    [apply crowded_reachable
    | repeat constructor; apply calm_random_ok
    | vm_compute; reflexivity].
Qed.

End Runs.

(** * The claims *)

(** C1 (defect shown at the failing inputs).  An enemy one tile right of the
    player, and one one tile below, is not moved by [move_enemies] and the
    game goes on: [int(-1.0 + 0.5)] is [int(-0.5)], which is 0.  An enemy one
    tile left of the player is moved onto it and raises the flag. *)
Theorem C1_enemy_right_of_player_stays :
  let start := Backup.init 40 20 0 0 in
  let right := Backup.set_enemies start [Backup.mkEntity 21 10 "E" 0 0 true] in
  let below := Backup.set_enemies start [Backup.mkEntity 20 11 "E" 0 0 true] in
  let left := Backup.set_enemies start [Backup.mkEntity 19 10 "E" 0 0 true] in
  Backup.move_enemies right = Some right
  /\ Backup.move_enemies below = Some below
  /\ Backup.move_enemies left
     = Some (Backup.set_game_over
               (Backup.set_enemies start [Backup.mkEntity 20 10 "E" 0 0 true])
               true).
Proof. vm_compute. repeat split; reflexivity. Qed.

(** C6 (amended).  In [backup.py] the glyph of the bullet that [shoot]
    appends is a function of its direction: right, left, down and up arrows
    for the four directions the keys give.  In [main.py] the glyph of a
    projectile is decided by the side that fired it, [*] for the player and
    [+] for an enemy, whatever its direction, and [shoot] appends either
    nothing or one such projectile. *)
Theorem C6_glyph_by_direction_or_by_side :
  (forall (g : Backup.Game) (ddx ddy : Z),
     Backup.bullets (Backup.shoot (ddx, ddy) g)
     = Backup.bullets g
       ++ [Backup.mkEntity (Backup.x (Backup.player g) + ddx)
             (Backup.y (Backup.player g) + ddy)
             (Backup.bullet_char ddx ddy) ddx ddy false])
  /\ (Backup.bullet_char 1 0 = "→" /\ Backup.bullet_char (-1) 0 = "←"
      /\ Backup.bullet_char 0 1 = "↓" /\ Backup.bullet_char 0 (-1) = "↑")
  /\ (forall (sx sy sdx sdy : Q) (enemy : bool),
        Main.Projectile.char (Main.Projectile.new sx sy sdx sdy enemy)
        = if enemy then "+" else "*")
  /\ (forall (sx sy sdx sdy : Q) (enemy : bool) (g : Main.Game),
        Main.projectiles (Main.shoot sx sy sdx sdy enemy g) = Main.projectiles g
        \/ Main.projectiles (Main.shoot sx sy sdx sdy enemy g)
           = Main.projectiles g ++ [Main.Projectile.new sx sy sdx sdy enemy]).
Proof.
  split; [|split; [|split]].
  - intros g ddx ddy. reflexivity.
  - repeat split; reflexivity.
  - intros sx sy sdx sdy enemy. destruct enemy; reflexivity.
  - intros sx sy sdx sdy enemy g. unfold Main.shoot.
    destruct enemy; cbn [negb]; [right; reflexivity|].
    destruct (Main.Player.ammo (Main.player g) <=? 0);
      [left | right]; reflexivity.
Qed.

(** C6 (counterexample).  In [main.py] the player and an enemy firing from
    the same place in the same direction leave projectiles with the same
    direction vector and different glyphs. *)
Lemma C6_same_direction_two_glyphs :
  List.map (fun p => (Main.Projectile.dx p, Main.Projectile.dy p, Main.Projectile.char p))
    (Main.projectiles (Main.shoot 5 5 1 0 false Examples.crowded))
  = [(1%Q, 0%Q, "*")]
  /\ List.map (fun p => (Main.Projectile.dx p, Main.Projectile.dy p, Main.Projectile.char p))
       (Main.projectiles (Main.shoot 5 5 1 0 true Examples.crowded))
     = [(1%Q, 0%Q, "+")].
Proof. split; reflexivity. Qed.

(** C8.  In [main.py] a player shot with no ammunition changes nothing; with
    ammunition it appends exactly one projectile and takes 1 from the
    counter; and over a projectile update the counter grows by 2 for each
    enemy removed. *)
Theorem C8_ammo_gates_player_shots :
  forall (sx sy sdx sdy : Q) (g : Main.Game),
    (Main.Player.ammo (Main.player g) = 0 ->
     Main.shoot sx sy sdx sdy false g = g)
    /\ (0 < Main.Player.ammo (Main.player g) ->
        Main.shoot sx sy sdx sdy false g
        = Main.set_projectiles
            (Main.set_player g
               (Main.Player.set_ammo (Main.player g)
                  (Main.Player.ammo (Main.player g) - 1)))
            (Main.projectiles g ++ [Main.Projectile.new sx sy sdx sdy false]))
    /\ (forall (dt : Q) (g' : Main.Game),
          Main.update_projectiles dt g = Some g' ->
          Main.Player.ammo (Main.player g')
          = Main.Player.ammo (Main.player g)
            + 2 * (Z.of_nat (List.length (Main.enemies g))
                   - Z.of_nat (List.length (Main.enemies g')))).
Proof.
  intros sx sy sdx sdy g. split; [|split].
  - intro H. unfold Main.shoot. cbn [negb]. now rewrite H.
  - intro H. unfold Main.shoot. cbn [negb].
    destruct (Main.Player.ammo (Main.player g) <=? 0) eqn:E; [|reflexivity].
    apply Z.leb_le in E. lia.
  - intros dt g'. rewrite update_projectiles_sweep.
    destruct (Main.sweep _ _ _ _ _ _ _ _ _) as [r|] eqn:E; [|discriminate].
    cbn [option_map]. intro E'. injection E' as <-.
    destruct (sweep_ammo _ _ _ _ _ _ _ _ _ _ E) as [A _].
    cbn [Main.swept Main.player Main.enemies]. lia.
Qed.

(** C8 at concrete states: the key [w] with no ammunition, the key [s] with
    ten rounds, and the update in which that shot removes an enemy. *)
Lemma C8_shots_and_a_kill :
  Main.shoot 5 5 0 (-1) false Examples.empty_handed = Examples.empty_handed
  /\ Main.Player.ammo (Main.player (Main.shoot 5 5 0 1 false Examples.crowded)) = 9
  /\ exists g',
       Main.update_projectiles (1 # 10)
         (Main.shoot 5 5 0 1 false Examples.crowded) = Some g'
       /\ List.length (Main.enemies g') = 9%nat
       /\ Main.Player.ammo (Main.player g') = 11.
Proof.
  split; [|split].
  - apply (proj1 (C8_ammo_gates_player_shots 5 5 0 (-1) Examples.empty_handed)).
    reflexivity.
  - rewrite (proj1 (proj2 (C8_ammo_gates_player_shots 5 5 0 1 Examples.crowded)));
      reflexivity.
  - destruct (Main.update_projectiles (1 # 10)
                (Main.shoot 5 5 0 1 false Examples.crowded)) as [g'|] eqn:E;
      [|vm_compute in E; discriminate E].
    exists g'. split; [reflexivity|].
    pose proof (proj2 (proj2 (C8_ammo_gates_player_shots 5 5 0 1
                                (Main.shoot 5 5 0 1 false Examples.crowded)))
                  (1 # 10)%Q g' E) as K.
    assert (L : List.length (Main.enemies g') = 9%nat)
      by (vm_compute in E; injection E as <-; reflexivity).
    split; [exact L|]. rewrite K, L. reflexivity.
Defined.

(** C10.  In [main.py] a shot fired for an enemy appends exactly one
    projectile whatever the ammunition counter holds and leaves the player
    (ammunition, health, position) as it was; [update_enemies], which fires
    those shots, leaves the player as it was and only appends enemy
    projectiles. *)
Theorem C10_enemy_shots_are_free :
  forall (sqrt : Q -> Q) (sx sy sdx sdy : Q) (g : Main.Game),
    Main.shoot sx sy sdx sdy true g
    = Main.set_projectiles g
        (Main.projectiles g ++ [Main.Projectile.new sx sy sdx sdy true])
    /\ Main.player (Main.shoot sx sy sdx sdy true g) = Main.player g
    /\ (forall (dt now : Q) (rnd : nat -> Q) (g' : Main.Game),
          Main.update_enemies sqrt dt now rnd g = Some g' ->
          Main.player g' = Main.player g
          /\ exists shots,
               Main.projectiles g' = Main.projectiles g ++ shots
               /\ Forall (fun p => Main.Projectile.is_enemy p = true) shots).
Proof.
  intros sqrt sx sy sdx sdy g. split; [reflexivity | split; [reflexivity|]].
  intros dt now rnd g'. unfold Main.update_enemies.
  destruct (Main.update_enemies_loop _ _ _ _ _ _ _) as [r|] eqn:E; [|discriminate].
  cbn [Py.bind]. intro E'. injection E' as <-.
  destruct (update_enemies_loop_frame _ _ _ _ _ _ _ _ E)
    as (_ & _ & _ & P & _ & _ & _ & _ & shots & S1 & S2).
  cbn [Main.player Main.projectiles Main.set_enemies]. split; [exact P|].
  exists shots. auto.
Qed.

(** C10 at a concrete state: the enemies of a player without ammunition
    fire all the same. *)
Lemma C10_fire_at_the_empty_handed :
  exists g',
    Main.update_enemies Examples.sqrt_Q 1 1 (Main.rnd (Examples.calm 1))
      Examples.empty_handed = Some g'
    /\ Main.player g' = Main.player Examples.empty_handed
    /\ List.length (Main.projectiles g') = 1%nat.
Proof.
  destruct (Main.update_enemies Examples.sqrt_Q 1 1 (Main.rnd (Examples.calm 1))
              Examples.empty_handed) as [g'|] eqn:E;
    [|vm_compute in E; discriminate E].
  exists g'. split; [reflexivity|]. split.
  - exact (proj1 (proj2 (proj2 (C10_enemy_shots_are_free Examples.sqrt_Q 0 0 0 0
                                  Examples.empty_handed)) 1%Q 1%Q _ g' E)).
  - vm_compute in E. injection E as <-. reflexivity.
Defined.

(** ** Drawing *)

Section Drawing.

Lemma setitem_getitem {A} (l l' : list A) i v :
  Py.setitem l i v = Some l' -> Py.getitem l' i = Some v.
Proof.
  unfold Py.setitem, Py.getitem.
  destruct (Py.index (Z.of_nat (List.length l)) i) as [n|] eqn:E; [|discriminate].
  cbn [Py.bind]. intro H. injection H as <-.
  rewrite set_nth_length, E. cbn [Py.bind].
  pose proof (index_lt _ _ _ E).
  rewrite set_nth_nth_error by lia. now rewrite Nat.eqb_refl.
Qed.

Lemma put_cell grid e grid' :
  Backup.put grid e = Some grid' ->
  Backup.cell grid' (Backup.y e) (Backup.x e) = Some (Backup.char e).
Proof.
  unfold Backup.put, Backup.cell.
  destruct (Py.getitem grid (Backup.y e)) as [row|]; [|discriminate].
  cbn [Py.bind].
  destruct (Py.setitem row (Backup.x e) (Backup.char e)) as [row'|] eqn:R;
    [|discriminate].
  cbn [Py.bind]. intro G.
  rewrite (setitem_getitem _ _ _ _ G). cbn [Py.bind].
  exact (setitem_getitem _ _ _ _ R).
Qed.

Lemma find_app {A} (f : A -> bool) (l1 l2 : list A) :
  find f (l1 ++ l2) = match find f l1 with
                      | Some a => Some a
                      | None => find f l2
                      end.
Proof.
  induction l1 as [|a l1 IH]; simpl; [reflexivity|].
  destruct (f a); [reflexivity | exact IH].
Qed.

Lemma render_projectiles_shown win cy cx : forall ps scr scr',
  Main.render_projectiles win ps scr = Some scr' ->
  Main.shown scr' cy cx
  = match find (fun p => (Py.int_of_Q (Main.Projectile.y p) =? cy)
                         && (Py.int_of_Q (Main.Projectile.x p) =? cx)) (rev ps) with
    | Some p => Some (Main.projectile_glyph p)
    | None => Main.shown scr cy cx
    end.
Proof.
  induction ps as [|p rest IH]; intros scr scr'; cbn [Main.render_projectiles rev].
  - intro E. now injection E as <-.
  - unfold Main.addch. destruct (_ && _); [|discriminate]. cbn [Py.bind].
    intro E. rewrite (IH _ _ E), find_app. cbn [find Main.shown].
    destruct (find _ (rev rest)); [reflexivity|].
    destruct (_ && _); reflexivity.
Qed.

Lemma render_enemies_shown win cy cx : forall es scr scr',
  Main.render_enemies win es scr = Some scr' ->
  Main.shown scr' cy cx
  = match find (fun e => (Py.int_of_Q (Main.Enemy.y e) =? cy)
                         && (Py.int_of_Q (Main.Enemy.x e) =? cx)) (rev es) with
    | Some e => Some (Main.Enemy.char e, Main.COLOR_ENEMY)
    | None => Main.shown scr cy cx
    end.
Proof.
  induction es as [|e rest IH]; intros scr scr'; cbn [Main.render_enemies rev].
  - intro E. now injection E as <-.
  - unfold Main.addch. destruct (_ && _); [|discriminate]. cbn [Py.bind].
    intro E. rewrite (IH _ _ E), find_app. cbn [find Main.shown].
    destruct (find _ (rev rest)); [reflexivity|].
    destruct (_ && _); reflexivity.
Qed.

Lemma addstr_other_row win row attr cy cx : forall s col scr scr',
  Main.addstr win row col s attr scr = Some scr' ->
  cy <> row ->
  Main.shown scr' cy cx = Main.shown scr cy cx.
Proof.
  induction s as [|c rest IH]; intros col scr scr'; cbn [Main.addstr].
  - intro E. now injection E as <-.
  - unfold Main.addch. destruct (_ && _); [|discriminate]. cbn [Py.bind].
    intros E N. rewrite (IH _ _ _ E N). cbn [Main.shown].
    replace (row =? cy) with false; [reflexivity|].
    symmetry. apply Z.eqb_neq. congruence.
Qed.

Lemma render_shown win g scr :
  Main.render win g = Some scr ->
  Main.Player.y (Main.player g) <> Main.height g ->
  Main.shown scr (Main.Player.y (Main.player g)) (Main.Player.x (Main.player g))
  = Some (Main.visible_at_player g).
Proof.
  unfold Main.render.
  destruct (Main.render_map _ _ _ _ _) as [scr0|]; [|discriminate].
  cbn [Py.bind].
  destruct (Main.addch win _ _ _ _ scr0) as [scr1|] eqn:A; [|discriminate].
  cbn [Py.bind].
  destruct (Main.render_enemies win _ scr1) as [scr2|] eqn:E2; [|discriminate].
  cbn [Py.bind].
  destruct (Main.render_projectiles win _ scr2) as [scr3|] eqn:E3; [|discriminate].
  cbn [Py.bind]. intros E4 N.
  rewrite (addstr_other_row _ _ _ _ _ _ _ _ _ E4 N).
  rewrite (render_projectiles_shown _ _ _ _ _ _ E3).
  rewrite (render_enemies_shown _ _ _ _ _ _ E2).
  unfold Main.addch in A. destruct (_ && _); [|discriminate].
  injection A as <-. cbn [Main.shown]. rewrite !Z.eqb_refl. cbn [andb].
  unfold Main.visible_at_player, Main.over_player.
  destruct (find _ (rev (Main.projectiles g))); [reflexivity|].
  destruct (find _ (rev (Main.enemies g))); reflexivity.
Qed.

End Drawing.

(** C2 (amended).  In [backup.py] the player is drawn last: whenever [draw]
    returns a grid, the cell of the player holds the player's glyph.  In
    [main.py] the player is drawn first of the entities: whenever [render]
    returns a screen (the player standing on a row of the map), the cell of
    the player shows the last projectile drawn there, else the last enemy
    drawn there, and the player only when no other entity is on its cell. *)
Theorem C2_player_cell_after_drawing :
  forall (gb : Backup.Game) (grid : Backup.Grid)
         (gm : Main.Game) (win : Z * Z) (scr : Main.Screen),
    Backup.draw gb = Some grid ->
    Main.render win gm = Some scr ->
    Main.Player.y (Main.player gm) <> Main.height gm ->
    Backup.cell grid (Backup.y (Backup.player gb)) (Backup.x (Backup.player gb))
    = Some (Backup.char (Backup.player gb))
    /\ Main.shown scr (Main.Player.y (Main.player gm))
         (Main.Player.x (Main.player gm))
       = Some (Main.visible_at_player gm).
Proof.
  intros gb grid gm win scr D R N. split.
  - unfold Backup.draw in D.
    destruct (Backup.put_all _ (Backup.bullets gb)) as [g1|]; [|discriminate].
    cbn [Py.bind] in D.
    destruct (Backup.put_all g1 (Backup.enemies gb)) as [g2|]; [|discriminate].
    cbn [Py.bind] in D. eapply put_cell. exact D.
  - eapply render_shown; eassumption.
Qed.

(** C2 at concrete states: the simple game with the player on the top row,
    and the richer game after the first enemy shot, where the player's cell
    shows the enemy projectile. *)
Lemma C2_two_screens :
  exists grid scr,
    Backup.draw Examples.at_top_edge = Some grid
    /\ Main.render (24, 80) Examples.fired = Some scr
    /\ Backup.cell grid 0 20 = Some "@"
    /\ Main.shown scr 5 5 = Some ("+", Main.COLOR_ENEMY_PROJECTILE).
Proof.
  destruct (Backup.draw Examples.at_top_edge) as [grid|] eqn:D;
    [|vm_compute in D; discriminate D].
  destruct (Main.render (24, 80) Examples.fired) as [scr|] eqn:R;
    [|vm_compute in R; discriminate R].
  exists grid, scr. split; [reflexivity | split; [reflexivity|]].
  apply (C2_player_cell_after_drawing Examples.at_top_edge grid Examples.fired
           (24, 80) scr D R).
  vm_compute. discriminate.
Defined.

(** C2 (counterexample).  In [main.py], with an enemy on the player's cell,
    the cell shows the enemy's glyph in the enemy's colour, not the
    player's. *)
Lemma C2_enemy_drawn_over_player :
  exists scr,
    Main.render (24, 80) Examples.crowded = Some scr
    /\ (Main.Player.y (Main.player Examples.crowded),
        Main.Player.x (Main.player Examples.crowded)) = (5, 5)
    /\ Main.shown scr 5 5 = Some ("E", Main.COLOR_ENEMY).
Proof.
  destruct (Main.render (24, 80) Examples.crowded) as [scr|] eqn:R;
    [|vm_compute in R; discriminate R].
  exists scr. split; [reflexivity | split; [reflexivity|]].
  vm_compute in R. injection R as <-. vm_compute. reflexivity.
Qed.

(** ** Projectiles that leave the grid or enter a wall *)

Section Leaving.

(** On a map of the right shape the projectile loop raises nothing. *)
Lemma sweep_total dt w h m :
  Main.shaped w h m ->
  forall todo kept es pl over,
    exists r, Main.sweep dt w h m todo kept es pl over = Some r.
Proof.
  intros Hs. induction todo as [|p rest IH]; intros kept es pl over;
    cbn [Main.sweep]; [eauto|].
  destruct (Main.off_grid w h (Main.advance dt p)) eqn:Hoff; [apply IH|].
  apply main_off_grid_false in Hoff. destruct Hoff as (X0 & X1 & Y0 & Y1).
  destruct (tile_shaped w h m (Py.int_of_Q (Main.Projectile.y (Main.advance dt p)))
              (Py.int_of_Q (Main.Projectile.x (Main.advance dt p))) Hs)
    as [c ->]; try (apply int_of_Q_range; assumption).
  cbn [Py.bind]. destruct (String.eqb c Main.WALL_CHAR); [apply IH|].
  destruct (Main.Projectile.is_enemy _).
  - destruct (Main.on_player pl _); apply IH.
  - destruct (Py.find_index _ es); apply IH.
Qed.

Lemma update_projectiles_total dt g :
  Main.shaped (Main.width g) (Main.height g) (Main.map g) ->
  exists g', Main.update_projectiles dt g = Some g'.
Proof.
  intro Hs. rewrite update_projectiles_sweep.
  destruct (sweep_total dt _ _ _ Hs (Main.projectiles g) [] (Main.enemies g)
              (Main.player g) (Main.game_over g)) as [r ->].
  cbn [option_map]. eauto.
Qed.

(** The lost projectiles could as well not have been there. *)
Lemma sweep_without_lost dt w h m : forall todo kept es pl over,
  Main.sweep dt w h m
    (filter (fun p => negb (Main.lost dt w h m p)) todo) kept es pl over
  = Main.sweep dt w h m todo kept es pl over.
Proof.
  induction todo as [|p rest IH]; intros kept es pl over; [reflexivity|].
  cbn [filter]. unfold Main.lost at 1.
  cbn [Main.sweep].
  destruct (Main.off_grid w h (Main.advance dt p)) eqn:Hoff;
    cbn [orb negb]; [apply IH|].
  destruct (Main.tile m _ _) as [c|] eqn:Ht.
  - cbn [Py.bind].
    destruct (String.eqb c Main.WALL_CHAR) eqn:Hc; cbn [negb].
    + apply IH.
    + cbn [Main.sweep]. rewrite Hoff, Ht. cbn [Py.bind]. rewrite Hc.
      destruct (Main.Projectile.is_enemy _).
      * destruct (Main.on_player pl _); apply IH.
      * destruct (Py.find_index _ es); apply IH.
  - cbn [negb Main.sweep]. rewrite Hoff, Ht. reflexivity.
Qed.

Lemma bullets_without_off_grid w h : forall todo kept es sc,
  Backup.sweep w h
    (filter (fun b => negb (Backup.off_grid w h (Backup.advance b))) todo)
    kept es sc
  = Backup.sweep w h todo kept es sc.
Proof.
  induction todo as [|b rest IH]; intros kept es sc; [reflexivity|].
  cbn [filter Backup.sweep].
  destruct (Backup.off_grid w h (Backup.advance b)) eqn:Hoff; cbn [negb];
    [apply IH|].
  cbn [Backup.sweep]. rewrite Hoff.
  destruct (Py.find_index _ es); apply IH.
Qed.

End Leaving.

(** C9.  In [backup.py], [update_bullets] always returns; every bullet it
    leaves is on the grid, so a bullet whose advanced position is off the
    grid is gone after the update, and the update would have returned the
    same state had those bullets not been there.  In [main.py], on a map of
    the grid's shape, [update_projectiles] always returns; every projectile
    it leaves is on the grid and not on a wall, so a projectile whose
    advanced position is off the grid or on a wall is gone, and the update
    would have returned the same state had those projectiles not been there:
    their removal touches no entity. *)
Theorem C9_leaving_projectiles_are_dropped :
  forall (gb : Backup.Game) (dt : Q) (gm : Main.Game),
    Main.shaped (Main.width gm) (Main.height gm) (Main.map gm) ->
    (exists gb',
        Backup.update_bullets gb = Some gb'
        /\ Forall (Backup.in_grid (Backup.width gb) (Backup.height gb))
                  (Backup.bullets gb')
        /\ (forall b, In b (Backup.bullets gb) ->
              Backup.off_grid (Backup.width gb) (Backup.height gb)
                (Backup.advance b) = true ->
              ~ In (Backup.advance b) (Backup.bullets gb'))
        /\ Backup.update_bullets
             (Backup.set_bullets gb
                (filter (fun b => negb (Backup.off_grid (Backup.width gb)
                                          (Backup.height gb) (Backup.advance b)))
                        (Backup.bullets gb)))
           = Some gb')
    /\ (exists gm',
          Main.update_projectiles dt gm = Some gm'
          /\ Forall (fun p =>
                       Main.off_grid (Main.width gm) (Main.height gm) p = false
                       /\ exists c,
                            Main.tile (Main.map gm)
                              (Py.int_of_Q (Main.Projectile.y p))
                              (Py.int_of_Q (Main.Projectile.x p)) = Some c
                            /\ c <> Main.WALL_CHAR)
                    (Main.projectiles gm')
          /\ (forall p, In p (Main.projectiles gm) ->
                Main.lost dt (Main.width gm) (Main.height gm) (Main.map gm) p = true ->
                ~ In (Main.advance dt p) (Main.projectiles gm'))
          /\ Main.update_projectiles dt
               (Main.set_projectiles gm
                  (filter (fun p => negb (Main.lost dt (Main.width gm)
                                            (Main.height gm) (Main.map gm) p))
                          (Main.projectiles gm)))
             = Some gm').
Proof.
  intros gb dt gm Hs. split.
  - destruct (update_bullets_on_grid gb) as (gb' & E & _ & _ & _ & Hin & _).
    exists gb'. split; [exact E|]. split; [exact Hin|]. split.
    + intros b _ Hoff Hb. rewrite Forall_forall in Hin.
      apply Hin, off_grid_false in Hb. congruence.
    + rewrite update_bullets_sweep in *.
      cbn [Backup.set_bullets Backup.width Backup.height Backup.bullets
           Backup.enemies Backup.score].
      rewrite bullets_without_off_grid. exact E.
  - destruct (update_projectiles_total dt gm Hs) as [gm' E].
    exists gm'. split; [exact E|].
    pose proof E as E0. rewrite update_projectiles_sweep in E0.
    destruct (Main.sweep _ _ _ _ _ _ _ _ _) as [r|] eqn:S; [|discriminate].
    cbn [option_map] in E0. injection E0 as <-.
    pose proof (sweep_settled _ _ _ _ _ _ _ _ _ _ (Forall_nil _) S) as K.
    assert (K' : Forall (fun p =>
                   Main.off_grid (Main.width gm) (Main.height gm) p = false
                   /\ exists c,
                        Main.tile (Main.map gm)
                          (Py.int_of_Q (Main.Projectile.y p))
                          (Py.int_of_Q (Main.Projectile.x p)) = Some c
                        /\ c <> Main.WALL_CHAR)
                 (fst (fst (fst r)))).
    { eapply Forall_impl; [|exact K]. intros p (H1 & (c & H2 & H3) & _).
      split; [exact H1|]. exists c. split; [exact H2|].
      intro Hc. subst c. discriminate H3. }
    cbn [Main.swept Main.projectiles]. split; [exact K'|]. split.
    + intros p _ Hl Hp. rewrite Forall_forall in K'.
      destruct (K' _ Hp) as (H1 & c & H2 & H3).
      unfold Main.lost in Hl. rewrite H1, H2 in Hl. cbn [orb] in Hl.
      apply String.eqb_eq in Hl. contradiction.
    + rewrite update_projectiles_sweep.
      cbn [Main.set_projectiles Main.width Main.height Main.map Main.projectiles
           Main.enemies Main.player Main.game_over].
      rewrite sweep_without_lost, S. reflexivity.
Qed.

(** C9 at concrete states: the bullet fired upwards from the top row, and
    the projectile the player fires to the left, which after 2.5 s is on the
    border wall. *)
Lemma C9_off_the_top_and_into_the_wall :
  (exists gb',
      Backup.update_bullets (Backup.handle_char "i" Examples.at_top_edge) = Some gb'
      /\ Backup.bullets gb' = [])
  /\ (exists gm',
        Main.update_projectiles (5 # 2) (Main.player_shoot Examples.crowded (-1) 0)
        = Some gm'
        /\ Main.projectiles gm' = []
        /\ Main.enemies gm' = Main.enemies Examples.crowded).
Proof.
  assert (Hs : Main.shaped
                 (Main.width (Main.player_shoot Examples.crowded (-1) 0))
                 (Main.height (Main.player_shoot Examples.crowded (-1) 0))
                 (Main.map (Main.player_shoot Examples.crowded (-1) 0)))
    by (apply shaped_b_true; vm_compute; reflexivity).
  destruct (C9_leaving_projectiles_are_dropped
              (Backup.handle_char "i" Examples.at_top_edge) (5 # 2)
              (Main.player_shoot Examples.crowded (-1) 0) Hs)
    as [(gb' & B1 & _) (gm' & M1 & _)].
  split.
  - exists gb'. split; [exact B1|].
    vm_compute in B1. injection B1 as <-. reflexivity.
  - exists gm'. split; [exact M1|].
    vm_compute in M1. injection M1 as <-. split; reflexivity.
Defined.

(** C3 (amended).  In [main.py], at the top of every round of the loop the
    health is at most 100 and a health of 0 or less comes with the flag
    raised; a round that starts with the flag down and ends with a health of
    0 or less ends with the flag raised.  In [update_projectiles] the health
    drops by exactly 10 for each enemy projectile that strikes the player,
    the remaining projectiles of the tick being processed after the one that
    brings it to 0, and the flag is raised exactly when a strike leaves the
    health at 0 or less. *)
Theorem C3_health_and_flag :
  forall (sqrt : Q -> Q) (g : Main.Game),
    Main.reachable sqrt g ->
    Main.Player.health (Main.player g) <= 100
    /\ (Main.Player.health (Main.player g) <= 0 -> Main.game_over g = true)
    /\ (forall inp g',
          Main.game_over g = false -> Main.tick sqrt inp g = Some g' ->
          Main.Player.health (Main.player g') <= 0 -> Main.game_over g' = true)
    /\ (forall dt g',
          Main.update_projectiles dt g = Some g' ->
          Main.Player.health (Main.player g')
          = Main.Player.health (Main.player g)
            - 10 * Z.of_nat
                     (List.length
                        (filter (Main.strikes dt (Main.width g) (Main.height g)
                                   (Main.map g) (Main.player g))
                                (Main.projectiles g)))
          /\ Main.game_over g'
             = Main.game_over g
               || ((Main.Player.health (Main.player g')
                    <? Main.Player.health (Main.player g))
                   && (Main.Player.health (Main.player g') <=? 0))).
Proof.
  intros sqrt g Hg.
  destruct (reachable_alive sqrt g Hg) as (H1 & H2 & _).
  split; [exact H1|]. split; [exact H2|]. split.
  - intros inp g' Hrun Ht Hle.
    destruct (tick_health sqrt inp g g' Ht) as (_ & _ & T3).
    apply T3; [exact Hle|].
    destruct (Z.lt_ge_cases 0 (Main.Player.health (Main.player g))) as [|Hn];
      [assumption|].
    rewrite H2 in Hrun by lia. discriminate Hrun.
  - intros dt g' E.
    destruct (update_projectiles_health dt g g' E) as (_ & _ & A & B). auto.
Qed.

(** C3 at a concrete state: the game after the first enemy shot, whose next
    projectile update takes 10 from the health of 100. *)
Lemma C3_first_strike :
  Main.Player.health (Main.player Examples.fired) <= 100
  /\ exists g',
       Main.update_projectiles 1 Examples.fired = Some g'
       /\ Main.Player.health (Main.player g') = 90
       /\ Main.game_over g' = false.
Proof.
  destruct (C3_health_and_flag Examples.sqrt_Q Examples.fired fired_reachable)
    as (H1 & _ & _ & H4).
  split; [exact H1|].
  destruct (Main.update_projectiles 1 Examples.fired) as [g'|] eqn:E;
    [|vm_compute in E; discriminate E].
  exists g'. split; [reflexivity|].
  destruct (H4 1%Q g' E) as [A B]. rewrite B, A. split; reflexivity.
Defined.

(** C3 (counterexample).  The state reached from a legal start in three
    rounds, in which eleven enemy projectiles have struck the player: the
    health is -10. *)
Lemma C3_health_below_zero :
  Main.reachable Examples.sqrt_Q Examples.fallen
  /\ Main.Player.health (Main.player Examples.fallen) = -10
  /\ Main.game_over Examples.fallen = true.
Proof. split; [apply fallen_reachable | split; reflexivity]. Qed.

(** ** The steps of the two projectile loops *)

Section Collisions.

Lemma find_index_first {A} (f : A -> bool) before e after :
  (forall a, In a before -> f a = false) -> f e = true ->
  Py.find_index f (before ++ e :: after) = Some (List.length before).
Proof.
  intros Hb He. induction before as [|a before IH]; cbn [app Py.find_index].
  - now rewrite He.
  - rewrite (Hb a) by (left; reflexivity).
    rewrite IH; [reflexivity | intros a0 H0; apply Hb; right; exact H0].
Qed.

Lemma find_index_nowhere {A} (f : A -> bool) l :
  Py.find_index f l = None <-> forall a, In a l -> f a = false.
Proof.
  induction l as [|b l IH]; cbn [Py.find_index In].
  - split; [intros _ a [] | reflexivity].
  - destruct (f b) eqn:Hb.
    + split; [discriminate|]. intro H. rewrite (H b) in Hb by auto.
      discriminate.
    + destruct (Py.find_index f l) as [k|].
      * split; [discriminate|]. intro H.
        assert (X : Some k = None) by (apply IH; intros a Ha; apply H; now right).
        discriminate X.
      * split; [|reflexivity]. intros _ a [<- | Ha]; [exact Hb|].
        now apply IH.
Qed.

Lemma bullet_leaves w h b rest kept es sc :
  Backup.off_grid w h (Backup.advance b) = true ->
  Backup.sweep w h (b :: rest) kept es sc = Backup.sweep w h rest kept es sc.
Proof. intro H. cbn [Backup.sweep]. now rewrite H. Qed.

Lemma bullet_misses w h b rest kept es sc :
  Backup.off_grid w h (Backup.advance b) = false ->
  (forall e, In e es -> Backup.hits (Backup.advance b) e = false) ->
  Backup.sweep w h (b :: rest) kept es sc
  = Backup.sweep w h rest (kept ++ [Backup.advance b]) es sc.
Proof.
  intros H N. cbn [Backup.sweep]. rewrite H.
  now rewrite (proj2 (find_index_nowhere _ es) N).
Qed.

Lemma bullet_hits w h b rest kept before e after sc :
  Backup.off_grid w h (Backup.advance b) = false ->
  (forall e0, In e0 before -> Backup.hits (Backup.advance b) e0 = false) ->
  Backup.hits (Backup.advance b) e = true ->
  Backup.sweep w h (b :: rest) kept (before ++ e :: after) sc
  = Backup.sweep w h rest kept (before ++ after) (sc + 10).
Proof.
  intros H N He. cbn [Backup.sweep]. rewrite H.
  rewrite (find_index_first _ before e after N He).
  now rewrite remove_nth_middle.
Qed.

Lemma projectile_lost dt w h m p rest kept es pl over :
  Main.lost dt w h m p = true ->
  Main.sweep dt w h m (p :: rest) kept es pl over
  = Main.sweep dt w h m rest kept es pl over.
Proof.
  unfold Main.lost. cbn [Main.sweep].
  destruct (Main.off_grid w h (Main.advance dt p)); [reflexivity|].
  cbn [orb]. destruct (Main.tile m _ _) as [c|]; [|discriminate].
  cbn [Py.bind]. intros ->. reflexivity.
Qed.

Lemma projectile_strikes dt w h m p rest kept es pl over c :
  Main.off_grid w h (Main.advance dt p) = false ->
  Main.tile m (Py.int_of_Q (Main.Projectile.y (Main.advance dt p)))
    (Py.int_of_Q (Main.Projectile.x (Main.advance dt p))) = Some c ->
  String.eqb c Main.WALL_CHAR = false ->
  Main.Projectile.is_enemy p = true ->
  Main.on_player pl (Main.advance dt p) = true ->
  Main.sweep dt w h m (p :: rest) kept es pl over
  = Main.sweep dt w h m rest kept es
      (Main.Player.set_health pl (Main.Player.health pl - 10))
      (if Main.Player.health pl - 10 <=? 0 then true else over).
Proof.
  intros H T W S O. cbn [Main.sweep]. rewrite H, T. cbn [Py.bind].
  rewrite W.
  change (Main.Projectile.is_enemy (Main.advance dt p))
    with (Main.Projectile.is_enemy p).
  now rewrite S, O.
Qed.

Lemma projectile_passes dt w h m p rest kept es pl over c :
  Main.off_grid w h (Main.advance dt p) = false ->
  Main.tile m (Py.int_of_Q (Main.Projectile.y (Main.advance dt p)))
    (Py.int_of_Q (Main.Projectile.x (Main.advance dt p))) = Some c ->
  String.eqb c Main.WALL_CHAR = false ->
  (if Main.Projectile.is_enemy p
   then Main.on_player pl (Main.advance dt p) = false
   else forall e, In e es -> Main.on_enemy (Main.advance dt p) e = false) ->
  Main.sweep dt w h m (p :: rest) kept es pl over
  = Main.sweep dt w h m rest (kept ++ [Main.advance dt p]) es pl over.
Proof.
  intros H T W N. cbn [Main.sweep]. rewrite H, T. cbn [Py.bind].
  rewrite W.
  change (Main.Projectile.is_enemy (Main.advance dt p))
    with (Main.Projectile.is_enemy p).
  destruct (Main.Projectile.is_enemy p).
  - now rewrite N.
  - now rewrite (proj2 (find_index_nowhere _ es) N).
Qed.

Lemma projectile_kills dt w h m p rest kept before e after pl over c :
  Main.off_grid w h (Main.advance dt p) = false ->
  Main.tile m (Py.int_of_Q (Main.Projectile.y (Main.advance dt p)))
    (Py.int_of_Q (Main.Projectile.x (Main.advance dt p))) = Some c ->
  String.eqb c Main.WALL_CHAR = false ->
  Main.Projectile.is_enemy p = false ->
  (forall e0, In e0 before -> Main.on_enemy (Main.advance dt p) e0 = false) ->
  Main.on_enemy (Main.advance dt p) e = true ->
  Main.sweep dt w h m (p :: rest) kept (before ++ e :: after) pl over
  = Main.sweep dt w h m rest kept (before ++ after)
      (Main.Player.set_ammo pl (Main.Player.ammo pl + 2)) over.
Proof.
  intros H T W S N He. cbn [Main.sweep]. rewrite H, T. cbn [Py.bind].
  rewrite W.
  change (Main.Projectile.is_enemy (Main.advance dt p))
    with (Main.Projectile.is_enemy p).
  rewrite S, (find_index_first _ before e after N He).
  now rewrite remove_nth_middle.
Qed.

End Collisions.

(** C4 (amended).  In both variants the projectile update visits the
    projectiles in order, each one advanced first, and is the fold [sweep]
    of these steps over the projectiles visited and kept, the enemies left
    and the counters.  A projectile that leaves the grid (in [main.py] also
    one that enters a wall) is dropped.  A player projectile on the cell of
    an enemy is dropped together with exactly one enemy, the first of the
    list on that cell: the enemies before it and after it stay, in order,
    and 10 points ([backup.py]) or 2 rounds ([main.py]) are added.  A
    projectile on no such cell is kept.  In [main.py] an enemy projectile on
    the player's cell is dropped and the player is not removed: it keeps
    its place and loses 10 health.  So after the update no player projectile
    is left on the cell of an enemy that is left and no enemy projectile on
    the player's cell, and the projectiles left, those lost, those that
    struck and those that killed add up to the projectiles there were. *)
Theorem C4_collisions_remove_one_of_each :
  forall (gb : Backup.Game) (dt : Q) (gm gm' : Main.Game),
    Main.update_projectiles dt gm = Some gm' ->
    (exists gb',
        Backup.update_bullets gb = Some gb'
        /\ gb' = Backup.swept gb
                   (Backup.sweep (Backup.width gb) (Backup.height gb)
                      (Backup.bullets gb) [] (Backup.enemies gb)
                      (Backup.score gb))
        /\ (forall b e, In b (Backup.bullets gb') -> In e (Backup.enemies gb') ->
              Backup.hits b e = false)
        /\ 10 * Z.of_nat (List.length (Backup.enemies gb')) + Backup.score gb'
           = 10 * Z.of_nat (List.length (Backup.enemies gb)) + Backup.score gb
        /\ 10 * Z.of_nat (List.length (Backup.bullets gb'))
           + 10 * Z.of_nat
                    (List.length
                       (filter (Backup.off_grid (Backup.width gb) (Backup.height gb))
                               (List.map Backup.advance (Backup.bullets gb))))
           + Backup.score gb'
           = 10 * Z.of_nat (List.length (Backup.bullets gb)) + Backup.score gb)
    /\ (forall w h b rest kept es sc,
          Backup.sweep w h [] kept es sc = (kept, es, sc)
          /\ (Backup.off_grid w h (Backup.advance b) = true ->
              Backup.sweep w h (b :: rest) kept es sc
              = Backup.sweep w h rest kept es sc)
          /\ (Backup.off_grid w h (Backup.advance b) = false ->
              (forall e, In e es -> Backup.hits (Backup.advance b) e = false) ->
              Backup.sweep w h (b :: rest) kept es sc
              = Backup.sweep w h rest (kept ++ [Backup.advance b]) es sc)
          /\ (forall before e after,
                Backup.off_grid w h (Backup.advance b) = false ->
                es = before ++ e :: after ->
                (forall e0, In e0 before ->
                   Backup.hits (Backup.advance b) e0 = false) ->
                Backup.hits (Backup.advance b) e = true ->
                Backup.sweep w h (b :: rest) kept es sc
                = Backup.sweep w h rest kept (before ++ after) (sc + 10)))
    /\ (exists r,
          Main.sweep dt (Main.width gm) (Main.height gm) (Main.map gm)
            (Main.projectiles gm) [] (Main.enemies gm) (Main.player gm)
            (Main.game_over gm) = Some r
          /\ gm' = Main.swept gm r)
    /\ (forall w h m p rest kept es pl over,
          Main.sweep dt w h m [] kept es pl over = Some (kept, es, pl, over)
          /\ (Main.lost dt w h m p = true ->
              Main.sweep dt w h m (p :: rest) kept es pl over
              = Main.sweep dt w h m rest kept es pl over)
          /\ (forall c,
                Main.off_grid w h (Main.advance dt p) = false ->
                Main.tile m (Py.int_of_Q (Main.Projectile.y (Main.advance dt p)))
                  (Py.int_of_Q (Main.Projectile.x (Main.advance dt p))) = Some c ->
                String.eqb c Main.WALL_CHAR = false ->
                (Main.Projectile.is_enemy p = true ->
                 Main.on_player pl (Main.advance dt p) = true ->
                 Main.sweep dt w h m (p :: rest) kept es pl over
                 = Main.sweep dt w h m rest kept es
                     (Main.Player.set_health pl (Main.Player.health pl - 10))
                     (if Main.Player.health pl - 10 <=? 0 then true else over))
                /\ ((if Main.Projectile.is_enemy p
                     then Main.on_player pl (Main.advance dt p) = false
                     else forall e, In e es ->
                            Main.on_enemy (Main.advance dt p) e = false) ->
                    Main.sweep dt w h m (p :: rest) kept es pl over
                    = Main.sweep dt w h m rest (kept ++ [Main.advance dt p])
                        es pl over)
                /\ (forall before e after,
                      Main.Projectile.is_enemy p = false ->
                      es = before ++ e :: after ->
                      (forall e0, In e0 before ->
                         Main.on_enemy (Main.advance dt p) e0 = false) ->
                      Main.on_enemy (Main.advance dt p) e = true ->
                      Main.sweep dt w h m (p :: rest) kept es pl over
                      = Main.sweep dt w h m rest kept (before ++ after)
                          (Main.Player.set_ammo pl (Main.Player.ammo pl + 2))
                          over)))
    /\ (forall p e, In p (Main.projectiles gm') ->
          Main.Projectile.is_enemy p = false -> In e (Main.enemies gm') ->
          Main.on_enemy p e = false)
    /\ (forall p, In p (Main.projectiles gm') ->
          Main.Projectile.is_enemy p = true ->
          Main.on_player (Main.player gm') p = false)
    /\ (List.length (Main.projectiles gm')
        + List.length (filter (Main.lost dt (Main.width gm) (Main.height gm)
                                 (Main.map gm)) (Main.projectiles gm))
        + List.length (filter (Main.strikes dt (Main.width gm) (Main.height gm)
                                 (Main.map gm) (Main.player gm))
                              (Main.projectiles gm))
        + (List.length (Main.enemies gm) - List.length (Main.enemies gm'))
        = List.length (Main.projectiles gm))%nat
    /\ (List.length (Main.enemies gm') <= List.length (Main.enemies gm))%nat
    /\ Main.Player.x (Main.player gm') = Main.Player.x (Main.player gm)
    /\ Main.Player.y (Main.player gm') = Main.Player.y (Main.player gm)
    /\ Main.Player.health (Main.player gm')
       = Main.Player.health (Main.player gm)
         - 10 * Z.of_nat
                  (List.length
                     (filter (Main.strikes dt (Main.width gm) (Main.height gm)
                                (Main.map gm) (Main.player gm))
                             (Main.projectiles gm))).
Proof.
  intros gb dt gm gm' E. split; [|split].
  - rewrite update_bullets_sweep. eexists. split; [reflexivity|].
    split; [reflexivity|].
    cbn [Backup.swept Backup.bullets Backup.enemies Backup.score].
    split; [|split].
    + intros b e Hb He.
      pose proof (sweep_bullets_settled (Backup.width gb) (Backup.height gb)
                    (Backup.bullets gb) [] (Backup.enemies gb) (Backup.score gb)
                    (Forall_nil _)) as K.
      rewrite Forall_forall in K. destruct (K b Hb) as [_ Hf].
      exact (find_none _ _ Hf e He).
    + apply sweep_enemies.
    + pose proof (sweep_bullets (Backup.width gb) (Backup.height gb)
                    (Backup.bullets gb) [] (Backup.enemies gb) (Backup.score gb))
        as K.
      cbn [List.length Nat.add] in K. exact K.
  - intros w h b rest kept es sc. split; [reflexivity|].
    split; [apply bullet_leaves|]. split; [apply bullet_misses|].
    intros before e after H -> N He. now apply bullet_hits.
  - pose proof (update_projectiles_health dt gm gm' E) as (Px & Py' & Ph & _).
    rewrite update_projectiles_sweep in E.
    destruct (Main.sweep _ _ _ _ _ _ _ _ _) as [r|] eqn:S; [|discriminate].
    cbn [option_map] in E. injection E as <-.
    split; [exists r; split; reflexivity|].
    split.
    { intros w h m p rest kept es pl over. split; [reflexivity|].
      split; [apply projectile_lost|].
      intros c H T W. split; [now apply (projectile_strikes _ _ _ _ _ _ _ _ _ _ c)|].
      split; [now apply (projectile_passes _ _ _ _ _ _ _ _ _ _ c)|].
      intros before e after Sd -> N He.
      now apply (projectile_kills _ _ _ _ _ _ _ _ _ _ _ _ c). }
    pose proof (sweep_settled _ _ _ _ _ _ _ _ _ _ (Forall_nil _) S) as K.
    pose proof (sweep_count _ _ _ _ _ _ _ _ _ _ S) as C.
    pose proof (sweep_ammo _ _ _ _ _ _ _ _ _ _ S) as [_ L].
    cbn [Main.swept Main.projectiles Main.enemies Main.player] in *.
    rewrite Forall_forall in K.
    repeat match goal with |- _ /\ _ => split end; auto.
    + intros p e Hp Hside He. destruct (K p Hp) as (_ & _ & H3).
      rewrite Hside in H3. exact (find_none _ _ H3 e He).
    + intros p Hp Hside. destruct (K p Hp) as (_ & _ & H3).
      now rewrite Hside in H3.
Qed.

(** C4 at concrete states.  In [backup.py] a bullet reaches a cell that
    holds two enemies: it goes with the first of them.  In [main.py] the
    player fires from the cell it shares with ten enemies while the
    projectile of the first enemy rests on that cell: the enemy projectile
    goes and the player loses 10 health, and the player's projectile goes
    with the first enemy of the list, the one that had fired. *)
Lemma C4_two_enemies_one_bullet :
  exists gb' gm',
    Backup.update_bullets Examples.two_on_a_cell = Some gb'
    /\ Main.update_projectiles (1 # 20)
         (Main.player_shoot Examples.fired 1 0) = Some gm'
    /\ Backup.enemies gb' = tl (Backup.enemies Examples.two_on_a_cell)
    /\ List.length (Backup.bullets gb') = 1%nat
    /\ Backup.score gb' = 10
    /\ List.length (Main.projectiles (Main.player_shoot Examples.fired 1 0))
       = 2%nat
    /\ Main.projectiles gm' = []
    /\ Main.enemies gm' = tl (Main.enemies Examples.fired)
    /\ Main.Player.health (Main.player gm') = 90.
Proof.
  destruct (Main.update_projectiles (1 # 20)
              (Main.player_shoot Examples.fired 1 0)) as [gm'|] eqn:E;
    [|vm_compute in E; discriminate E].
  destruct (C4_collisions_remove_one_of_each Examples.two_on_a_cell (1 # 20)
              (Main.player_shoot Examples.fired 1 0) gm' E)
    as ((gb' & B & Bs & _) & _ & (r & R & Rs) & _).
  exists gb', gm'. split; [exact B|]. split; [reflexivity|].
  subst gb'. vm_compute in R. injection R as <-. subst gm'.
  repeat split; reflexivity.
Defined.

(** C4 (counterexample).  In [main.py] an enemy projectile resting on the
    player's cell is removed by the update, and the player, the entity of
    the opposing side on that cell, is still there. *)
Lemma C4_player_struck_not_removed :
  exists g',
    Main.update_projectiles 1 Examples.fired = Some g'
    /\ List.map (fun p => (Main.Projectile.is_enemy p,
                           Py.floor (Main.Projectile.x (Main.advance 1 p)),
                           Py.floor (Main.Projectile.y (Main.advance 1 p))))
         (Main.projectiles Examples.fired) = [(true, 5, 5)]
    /\ Main.projectiles g' = []
    /\ Main.player g' = Main.Player.mk 5 5 "@" 90 1 10.
Proof.
  destruct (Main.update_projectiles 1 Examples.fired) as [g'|] eqn:E;
    [|vm_compute in E; discriminate E].
  exists g'. split; [reflexivity|].
  vm_compute in E. injection E as <-. repeat split; reflexivity.
Qed.

(** C5 (amended).  At the top of every round of the loop, in both variants,
    the player, every enemy and every projectile is within
    [0, width) x [0, height).  In [main.py] this also holds after each step
    of a round: after the key is handled (a projectile is created on the
    cell of its shooter), after the projectile update and after the enemy
    update (a fractional move is only made onto a floor tile, which the
    border walls keep inside the grid).  In [backup.py] the bullet that
    [shoot] appends starts one step ahead of the player, wherever that is;
    the bullet update of the same frame always returns and leaves only
    bullets that are on the grid. *)
Theorem C5_entities_stay_on_the_grid :
  forall (sqrt : Q -> Q) (gb : Backup.Game) (gm : Main.Game),
    Backup.reachable gb ->
    Main.reachable sqrt gm ->
    Backup.on_grid gb
    /\ (forall ddx ddy,
          Backup.bullets (Backup.shoot (ddx, ddy) gb)
          = Backup.bullets gb
            ++ [Backup.mkEntity (Backup.x (Backup.player gb) + ddx)
                  (Backup.y (Backup.player gb) + ddy)
                  (Backup.bullet_char ddx ddy) ddx ddy false])
    /\ (forall c, exists gb',
          Backup.update_bullets (Backup.handle_char c gb) = Some gb'
          /\ Forall (Backup.in_grid 40 20) (Backup.bullets gb'))
    /\ Main.on_grid gm
    /\ (forall k g1, Main.handle_input k gm = Some g1 ->
          Main.on_grid g1
          /\ forall dt g2, Main.update_projectiles dt g1 = Some g2 ->
               Main.on_grid g2
               /\ forall dt' now rnd g3,
                    Main.update_enemies sqrt dt' now rnd g2 = Some g3 ->
                    Main.on_grid g3).
Proof.
  intros sqrt gb gm Hb Hm.
  pose proof (reachable_on_grid gb Hb) as Gb.
  pose proof (main_reachable_on_grid sqrt gm Hm) as Gm.
  split; [exact Gb|]. split; [reflexivity|]. split; [|split; [exact Gm|]].
  - intro c. destruct Gb as (Hw & Hh & Hp & _).
    destruct (handle_char_on_grid c gb Hw Hh Hp) as (Hw' & Hh' & _).
    destruct (update_bullets_on_grid (Backup.handle_char c gb))
      as (gb' & E & _ & _ & _ & Hin & _).
    exists gb'. split; [exact E|]. now rewrite Hw', Hh' in Hin.
  - intros k g1 E1.
    pose proof (handle_input_on_grid k gm g1 Gm E1) as G1.
    split; [exact G1|]. intros dt g2 E2.
    pose proof (update_projectiles_on_grid dt g1 g2 G1 E2) as G2.
    split; [exact G2|]. intros dt' now rnd g3 E3.
    exact (update_enemies_on_grid sqrt dt' now rnd g2 g3 G2 E3).
Qed.

(** C5 at concrete states: the simple game with the player on the top row
    and the richer game after three rounds. *)
Lemma C5_two_games_on_the_grid :
  Backup.on_grid Examples.at_top_edge /\ Main.on_grid Examples.fallen.
Proof.
  destruct (C5_entities_stay_on_the_grid Examples.sqrt_Q Examples.at_top_edge
              Examples.fallen at_top_edge_reachable fallen_reachable)
    as (A & _ & _ & B & _).
  split; [exact A | exact B].
Defined.

(** C5 (counterexample).  In [backup.py], with the player on the top row,
    which the loop reaches in ten frames, the key [i] appends a bullet at
    y = -1: a bullet of the game state that is off the grid. *)
Lemma C5_bullet_born_off_the_grid :
  Backup.reachable Examples.at_top_edge
  /\ Backup.bullets (Backup.handle_char "i" Examples.at_top_edge)
     = [Backup.mkEntity 20 (-1) "↑" 0 (-1) false].
Proof. split; [apply at_top_edge_reachable | reflexivity]. Qed.

(** ** Counting the collisions *)

Section Counting.

Lemma backup_kills_count w h : forall todo kept es sc,
  (List.length (snd (fst (Backup.sweep w h todo kept es sc)))
   + Backup.kills w h todo es = List.length es)%nat
  /\ snd (Backup.sweep w h todo kept es sc)
     = sc + 10 * Z.of_nat (Backup.kills w h todo es).
Proof.
  induction todo as [|b rest IH]; intros kept es sc;
    cbn [Backup.sweep Backup.kills].
  - cbn [fst snd]. split; lia.
  - destruct (Backup.off_grid w h (Backup.advance b)); [apply IH|].
    destruct (Py.find_index _ es) as [j|] eqn:Hj; [|apply IH].
    destruct (IH kept (Py.remove_nth j es) (sc + 10)) as [I1 I2].
    destruct (find_index_find _ _ _ Hj) as (a & _ & _ & _ & Hl).
    pose proof (remove_nth_length j es Hl). split; lia.
Qed.

Lemma backup_kills_none w h : forall todo es,
  Backup.kills w h todo es = O
  <-> (forall b, In b todo -> Backup.off_grid w h (Backup.advance b) = false ->
         forall e, In e es -> Backup.hits (Backup.advance b) e = false).
Proof.
  induction todo as [|b rest IH]; intro es; cbn [Backup.kills In].
  - split; [intros _ b [] | reflexivity].
  - destruct (Backup.off_grid w h (Backup.advance b)) eqn:Hoff.
    + rewrite IH. split.
      * intros H b' [<- | Hin]; [congruence | now apply H].
      * intros H b' Hin. apply H. now right.
    + destruct (Py.find_index _ es) as [j|] eqn:Hj.
      * split; [discriminate|]. intro H.
        rewrite (proj2 (find_index_nowhere _ es) (H b (or_introl eq_refl) Hoff))
          in Hj.
        discriminate Hj.
      * rewrite IH. split.
        -- intros H b' [<- | Hin]; [|now apply H].
           intros _. now apply find_index_nowhere.
        -- intros H b' Hin. apply H. now right.
Qed.

Lemma main_kills_count dt w h m : forall todo kept es pl over r,
  Main.sweep dt w h m todo kept es pl over = Some r ->
  (List.length (snd (fst (fst r))) + Main.kills dt w h m todo es
   = List.length es)%nat
  /\ Main.Player.ammo (snd (fst r))
     = Main.Player.ammo pl + 2 * Z.of_nat (Main.kills dt w h m todo es).
Proof.
  induction todo as [|p rest IH]; intros kept es pl over r;
    cbn [Main.sweep Main.kills].
  - intro E. injection E as <-. cbn [fst snd]. split; lia.
  - unfold Main.lost.
    destruct (Main.off_grid w h (Main.advance dt p)); [apply IH|].
    cbn [orb].
    destruct (Main.tile m _ _) as [c|]; [|discriminate]. cbn [Py.bind].
    destruct (String.eqb c Main.WALL_CHAR); [apply IH|].
    destruct (Main.Projectile.is_enemy (Main.advance dt p)).
    + destruct (Main.on_player pl (Main.advance dt p)); [|apply IH].
      intro E. apply IH in E. exact E.
    + destruct (Py.find_index _ es) as [j|] eqn:Hj; [|apply IH].
      intro E. apply IH in E.
      cbn [Main.Player.ammo Main.Player.set_ammo] in E.
      destruct (find_index_find _ _ _ Hj) as (a & _ & _ & _ & Hl).
      pose proof (remove_nth_length j es Hl). split; lia.
Qed.

Lemma main_kills_none dt w h m : forall todo es,
  Main.kills dt w h m todo es = O
  <-> (forall p, In p todo -> Main.lost dt w h m p = false ->
         Main.Projectile.is_enemy p = false ->
         forall e, In e es -> Main.on_enemy (Main.advance dt p) e = false).
Proof.
  induction todo as [|p rest IH]; intro es; cbn [Main.kills In].
  - split; [intros _ p [] | reflexivity].
  - change (Main.Projectile.is_enemy (Main.advance dt p))
      with (Main.Projectile.is_enemy p).
    destruct (Main.lost dt w h m p) eqn:Hl.
    + rewrite IH. split.
      * intros H p' [<- | Hin]; [congruence | now apply H].
      * intros H p' Hin. apply H. now right.
    + destruct (Main.Projectile.is_enemy p) eqn:Hs.
      * rewrite IH. split.
        -- intros H p' [<- | Hin]; [congruence | now apply H].
        -- intros H p' Hin. apply H. now right.
      * destruct (Py.find_index _ es) as [j|] eqn:Hj.
        -- split; [discriminate|]. intro H.
           rewrite (proj2 (find_index_nowhere _ es)
                      (H p (or_introl eq_refl) Hl Hs)) in Hj.
           discriminate Hj.
        -- rewrite IH. split.
           ++ intros H p' [<- | Hin]; [|now apply H].
              intros _ _. now apply find_index_nowhere.
           ++ intros H p' Hin. apply H. now right.
Qed.

Lemma cornered_seed_ok : Main.seed_ok Examples.cornered_seed.
Proof.
  unfold Main.seed_ok, Main.draw_ok, Main.random_ok, Examples.cornered_seed.
  cbn.
  repeat split; try (repeat constructor); cbn; try lia; try discriminate;
    try reflexivity.
Qed.

Lemma last_stand_reachable : Main.reachable Examples.sqrt_Q Examples.last_stand.
Proof.
  apply (run_ticks_reachable Examples.sqrt_Q Examples.hunt Examples.cornered).
  - apply (Main.reach_init Examples.sqrt_Q Examples.cornered_seed);
      [exact cornered_seed_ok | vm_compute; reflexivity].
  - unfold Examples.hunt. apply Forall_forall. intros inp Hin.
    apply in_map_iff in Hin. destruct Hin as (k & <- & _). intro j.
    unfold Main.random_ok, Examples.shot_right. cbn [Main.rnd].
    destruct (Nat.even j); split; (discriminate || reflexivity).
  - vm_compute. reflexivity.
Qed.

End Counting.

(** C7.  In both variants the projectile update removes one enemy for each
    collision it detects, no more and no less.  The collisions are counted
    by [kills]: the player's projectiles, taken in order, whose advanced
    position is on the grid (in [main.py] also not on a wall) and on the
    cell of an enemy still there; [kills] is 0 exactly when no such
    projectile is on the cell of any enemy, and each collision counted takes
    the first enemy on the cell out of the list the later projectiles meet.
    The number of enemies after the update is the number before less
    [kills]; the score grows by 10 for each ([backup.py]) and the ammunition
    by 2 ([main.py]).  In [main.py] a round of the loop starts with enemies
    left; the key handling and the enemy update leave the number of enemies
    as it is; so the number after the round is the number before less the
    collisions of its projectile update, and the round ends in the win
    prompt exactly when these are as many as the enemies there were. *)
Theorem C7_one_enemy_per_collision_and_win :
  forall (sqrt : Q -> Q) (gb : Backup.Game) (gm gm' : Main.Game)
         (inp : Main.TickInput),
    Main.reachable sqrt gm ->
    Main.game_over gm = false ->
    Main.tick sqrt inp gm = Some gm' ->
    (exists gb',
        Backup.update_bullets gb = Some gb'
        /\ (List.length (Backup.enemies gb')
            + Backup.kills (Backup.width gb) (Backup.height gb)
                (Backup.bullets gb) (Backup.enemies gb)
            = List.length (Backup.enemies gb))%nat
        /\ Backup.score gb'
           = Backup.score gb
             + 10 * Z.of_nat (Backup.kills (Backup.width gb) (Backup.height gb)
                                (Backup.bullets gb) (Backup.enemies gb)))
    /\ (forall w h todo es,
          Backup.kills w h todo es = O
          <-> (forall b, In b todo ->
                 Backup.off_grid w h (Backup.advance b) = false ->
                 forall e, In e es -> Backup.hits (Backup.advance b) e = false))
    /\ (forall w h b rest before e after,
          Backup.off_grid w h (Backup.advance b) = false ->
          (forall e0, In e0 before -> Backup.hits (Backup.advance b) e0 = false) ->
          Backup.hits (Backup.advance b) e = true ->
          Backup.kills w h (b :: rest) (before ++ e :: after)
          = S (Backup.kills w h rest (before ++ after)))
    /\ (forall dt g g',
          Main.update_projectiles dt g = Some g' ->
          (List.length (Main.enemies g')
           + Main.kills dt (Main.width g) (Main.height g) (Main.map g)
               (Main.projectiles g) (Main.enemies g)
           = List.length (Main.enemies g))%nat
          /\ Main.Player.ammo (Main.player g')
             = Main.Player.ammo (Main.player g)
               + 2 * Z.of_nat (Main.kills dt (Main.width g) (Main.height g)
                                 (Main.map g) (Main.projectiles g)
                                 (Main.enemies g)))
    /\ (forall dt w h m todo es,
          Main.kills dt w h m todo es = O
          <-> (forall p, In p todo -> Main.lost dt w h m p = false ->
                 Main.Projectile.is_enemy p = false ->
                 forall e, In e es ->
                   Main.on_enemy (Main.advance dt p) e = false))
    /\ (forall dt w h m p rest before e after,
          Main.lost dt w h m p = false ->
          Main.Projectile.is_enemy p = false ->
          (forall e0, In e0 before ->
             Main.on_enemy (Main.advance dt p) e0 = false) ->
          Main.on_enemy (Main.advance dt p) e = true ->
          Main.kills dt w h m (p :: rest) (before ++ e :: after)
          = S (Main.kills dt w h m rest (before ++ after)))
    /\ Main.enemies gm <> []
    /\ (exists g1,
          Main.handle_input (Main.key inp)
            (Main.set_last_update gm (Main.current_time inp)) = Some g1
          /\ Main.enemies g1 = Main.enemies gm
          /\ (List.length (Main.enemies gm')
              + Main.kills (Main.current_time inp - Main.last_update gm)
                  (Main.width g1) (Main.height g1) (Main.map g1)
                  (Main.projectiles g1) (Main.enemies g1)
              = List.length (Main.enemies gm))%nat
          /\ (Main.wins gm' = true
              <-> Main.kills (Main.current_time inp - Main.last_update gm)
                    (Main.width g1) (Main.height g1) (Main.map g1)
                    (Main.projectiles g1) (Main.enemies g1)
                  = List.length (Main.enemies gm))).
Proof.
  intros sqrt gb gm gm' inp Hm Hrun Ht.
  assert (U : forall dt g g',
            Main.update_projectiles dt g = Some g' ->
            (List.length (Main.enemies g')
             + Main.kills dt (Main.width g) (Main.height g) (Main.map g)
                 (Main.projectiles g) (Main.enemies g)
             = List.length (Main.enemies g))%nat
            /\ Main.Player.ammo (Main.player g')
               = Main.Player.ammo (Main.player g)
                 + 2 * Z.of_nat (Main.kills dt (Main.width g) (Main.height g)
                                   (Main.map g) (Main.projectiles g)
                                   (Main.enemies g))).
  { intros dt g g'. rewrite update_projectiles_sweep.
    destruct (Main.sweep _ _ _ _ _ _ _ _ _) as [r|] eqn:S; [|discriminate].
    cbn [option_map]. intro E. injection E as <-.
    exact (main_kills_count _ _ _ _ _ _ _ _ _ _ S). }
  split.
  { rewrite update_bullets_sweep. eexists. split; [reflexivity|].
    cbn [Backup.swept Backup.enemies Backup.score].
    apply backup_kills_count. }
  split; [intros w h todo es; apply backup_kills_none|].
  split.
  { intros w h b rest before e after H N He. cbn [Backup.kills]. rewrite H.
    rewrite (find_index_first _ before e after N He).
    now rewrite remove_nth_middle. }
  split; [exact U|].
  split; [intros dt w h m todo es; apply main_kills_none|].
  split.
  { intros dt w h m p rest before e after L S N He. cbn [Main.kills].
    rewrite L.
    change (Main.Projectile.is_enemy (Main.advance dt p))
      with (Main.Projectile.is_enemy p).
    rewrite S, (find_index_first _ before e after N He).
    now rewrite remove_nth_middle. }
  split.
  { destruct (reachable_alive sqrt gm Hm) as (_ & _ & H3). now apply H3. }
  unfold Main.tick in Ht.
  destruct (Main.handle_input _ _) as [g1|] eqn:E1; [|discriminate].
  cbn [Py.bind] in Ht.
  destruct (Main.update_projectiles _ g1) as [g2|] eqn:E2; [|discriminate].
  cbn [Py.bind] in Ht.
  destruct (Main.update_enemies _ _ _ _ g2) as [g3|] eqn:E3; [|discriminate].
  cbn [Py.bind] in Ht. destruct (Main.render _ g3); [|discriminate].
  cbn [Py.bind] in Ht. injection Ht as <-.
  exists g1. split; [reflexivity|].
  apply handle_input_frame in E1. destruct E1 as (N1 & _).
  cbn [Main.enemies Main.set_last_update] in N1. split; [exact N1|].
  destruct (U _ _ _ E2) as [K _].
  assert (N3 : List.length (Main.enemies g3) = List.length (Main.enemies g2)).
  { unfold Main.update_enemies in E3.
    destruct (Main.update_enemies_loop _ _ _ _ _ _ _) as [r|] eqn:L;
      [|discriminate].
    cbn [Py.bind] in E3. injection E3 as <-.
    destruct (update_enemies_loop_frame _ _ _ _ _ _ _ _ L)
      as (_ & _ & _ & _ & _ & _ & _ & N3 & _).
    cbn [Main.enemies Main.set_enemies]. exact N3. }
  set (K1 := Main.kills _ _ _ _ _ (Main.enemies g1)) in *.
  rewrite N1 in K. split; [lia|].
  unfold Main.wins. destruct (Main.enemies g3) as [|e3 es3] eqn:E;
    cbn [List.length] in *; split; intro H; try reflexivity;
    try discriminate; lia.
Qed.

(** C7 at concrete states.  In [backup.py] a bullet reaches a cell that
    holds two enemies: one collision, one enemy less, 10 points.  In
    [main.py] the game in which nine rounds have removed nine enemies has
    one enemy left; the tenth round detects one collision, leaves no enemy
    and ends in the win prompt. *)
Lemma C7_the_winning_round :
  (exists gb',
      Backup.update_bullets Examples.two_on_a_cell = Some gb'
      /\ Backup.kills 40 20 (Backup.bullets Examples.two_on_a_cell)
           (Backup.enemies Examples.two_on_a_cell) = 1%nat
      /\ List.length (Backup.enemies Examples.two_on_a_cell) = 3%nat
      /\ List.length (Backup.enemies gb') = 2%nat /\ Backup.score gb' = 10)
  /\ Main.tick Examples.sqrt_Q (Examples.shot_right (10 # 20)) Examples.last_stand
     = Some Examples.won
  /\ List.length (Main.enemies Examples.last_stand) = 1%nat
  /\ Main.enemies Examples.won = []
  /\ Main.wins Examples.won = true.
Proof.
  assert (T : Main.tick Examples.sqrt_Q (Examples.shot_right (10 # 20))
                Examples.last_stand = Some Examples.won)
    by (vm_compute; reflexivity).
  destruct (C7_one_enemy_per_collision_and_win Examples.sqrt_Q
              Examples.two_on_a_cell Examples.last_stand Examples.won
              (Examples.shot_right (10 # 20)) last_stand_reachable eq_refl T)
    as ((gb' & B & B1 & B2) & _ & _ & _ & _ & _ & _ & (g1 & E1 & _ & _ & W)).
  split; [|split; [exact T | split; [reflexivity | split; [reflexivity|]]]].
  - exists gb'. split; [exact B|]. split; [reflexivity|].
    split; [reflexivity|].
    vm_compute in B. injection B as <-. split; reflexivity.
  - apply W. vm_compute in E1. injection E1 as <-. vm_compute. reflexivity.
Defined.

(** * Further properties of the two programs *)

(** ** [main.py]: writing and reading the map *)

Section GridFacts.

Import Main.

Lemma getitem_in_range {A} (l : list A) i :
  0 <= i < Z.of_nat (List.length l) -> Py.getitem l i = nth_error l (Z.to_nat i).
Proof.
  intro H. unfold Py.getitem. now rewrite index_in_range.
Qed.

Lemma tile_in_range w h m cy cx :
  shaped w h m -> 0 <= cy < h -> 0 <= cx < w ->
  tile m cy cx
  = match nth_error m (Z.to_nat cy) with
    | Some row => nth_error row (Z.to_nat cx)
    | None => None
    end.
Proof.
  intros [Hlen Hrows] Hy Hx. unfold tile.
  rewrite getitem_in_range by lia.
  destruct (nth_error m (Z.to_nat cy)) as [row|] eqn:Hrow; [|reflexivity].
  cbn [Py.bind]. rewrite getitem_in_range; [reflexivity|].
  rewrite Forall_forall in Hrows.
  rewrite (Hrows row) by (eapply nth_error_In; eauto). lia.
Qed.

(** [m[cy][cx] = c] on a cell of the grid: the cell holds [c] afterwards and
    every other cell holds what it held. *)
Lemma set_tile_spec w h m cy cx c :
  shaped w h m -> 0 <= cy < h -> 0 <= cx < w ->
  exists m',
    set_tile m cy cx c = Some m'
    /\ shaped w h m'
    /\ forall ty tx, 0 <= ty < h -> 0 <= tx < w ->
         tile m' ty tx
         = if (ty =? cy) && (tx =? cx) then Some c else tile m ty tx.
Proof.
  intros Hs Hy Hx. pose proof Hs as [Hlen Hrows].
  unfold set_tile. rewrite getitem_in_range by lia.
  destruct (nth_error m (Z.to_nat cy)) as [row|] eqn:Hrow;
    [|apply nth_error_None in Hrow; lia].
  cbn [Py.bind].
  assert (Hrl : List.length row = Z.to_nat w).
  { rewrite Forall_forall in Hrows. apply Hrows. eapply nth_error_In; eauto. }
  unfold Py.setitem. rewrite !index_in_range by lia. cbn [Py.bind].
  eexists. split; [reflexivity|].
  assert (Hs' : shaped w h
                  (Py.set_nth (Z.to_nat cy) (Py.set_nth (Z.to_nat cx) c row) m)).
  { split; [now rewrite set_nth_length|].
    apply set_nth_Forall; [exact Hrows | now rewrite set_nth_length]. }
  split; [exact Hs'|].
  intros ty tx Ty Tx.
  rewrite (tile_in_range w h _ ty tx Hs' Ty Tx).
  rewrite (tile_in_range w h m ty tx Hs Ty Tx).
  rewrite set_nth_nth_error by lia.
  destruct (ty =? cy) eqn:Ey.
  - apply Z.eqb_eq in Ey. subst ty. rewrite Nat.eqb_refl, Hrow.
    rewrite set_nth_nth_error by lia. cbn [andb].
    destruct (tx =? cx) eqn:Ex.
    + apply Z.eqb_eq in Ex. subst tx. now rewrite Nat.eqb_refl.
    + apply Z.eqb_neq in Ex.
      replace (Z.to_nat cx =? Z.to_nat tx)%nat with false; [reflexivity|].
      symmetry. apply Nat.eqb_neq. lia.
  - apply Z.eqb_neq in Ey. cbn [andb].
    replace (Z.to_nat cy =? Z.to_nat ty)%nat with false; [reflexivity|].
    symmetry. apply Nat.eqb_neq. lia.
Qed.

Lemma random_walls_spec w h walls : forall rounds m,
  shaped w h m ->
  (forall i, 0 <= snd (walls i) < h /\ 0 <= fst (walls i) < w) ->
  exists m',
    random_walls m walls rounds = Some m'
    /\ shaped w h m'
    /\ forall ty tx, 0 <= ty < h -> 0 <= tx < w ->
         tile m' ty tx
         = if drawn walls rounds ty tx then Some WALL_CHAR else tile m ty tx.
Proof.
  induction rounds as [|i rest IH]; intros m Hs Hd; cbn [random_walls drawn existsb].
  - exists m. auto.
  - destruct (Hd i) as [Dy Dx].
    destruct (set_tile_spec w h m _ _ WALL_CHAR Hs Dy Dx) as (m1 & -> & Hs1 & T1).
    cbn [Py.bind].
    destruct (IH m1 Hs1 Hd) as (m' & E & Hs' & T').
    exists m'. split; [exact E|]. split; [exact Hs'|].
    intros ty tx Ty Tx. rewrite (T' ty tx Ty Tx), (T1 ty tx Ty Tx).
    fold (drawn walls rest ty tx).
    rewrite (Z.eqb_sym ty), (Z.eqb_sym tx).
    destruct (drawn walls rest ty tx); [now rewrite orb_true_r|].
    rewrite orb_false_r. reflexivity.
Qed.

Lemma bordered_b_true w h m :
  bordered_b w h m = true ->
  forall cy cx, 0 <= cy < h -> 0 <= cx < w ->
    tile m cy cx = Some (if on_border w h cy cx then WALL_CHAR else FLOOR_CHAR).
Proof.
  unfold bordered_b. intros H cy cx Hy Hx.
  rewrite forallb_forall in H.
  assert (Iy : In (Z.to_nat cy) (seq 0 (Z.to_nat h))) by (apply in_seq; lia).
  specialize (H _ Iy). rewrite forallb_forall in H.
  assert (Ix : In (Z.to_nat cx) (seq 0 (Z.to_nat w))) by (apply in_seq; lia).
  specialize (H _ Ix). rewrite !Z2Nat.id in H by lia.
  destruct (tile m cy cx) as [c|]; [|discriminate].
  apply String.eqb_eq in H. now subst.
Qed.

Lemma borders_spec :
  exists m, borders MAP_WIDTH MAP_HEIGHT = Some m
            /\ shaped MAP_WIDTH MAP_HEIGHT m
            /\ bordered_b MAP_WIDTH MAP_HEIGHT m = true.
Proof.
  assert (E : match borders MAP_WIDTH MAP_HEIGHT with
              | Some m => shaped_b MAP_WIDTH MAP_HEIGHT m
                          && bordered_b MAP_WIDTH MAP_HEIGHT m
              | None => false
              end = true) by (vm_compute; reflexivity).
  destruct (borders MAP_WIDTH MAP_HEIGHT) as [m|]; [|discriminate].
  apply andb_prop in E. destruct E as [E1 E2].
  exists m. split; [reflexivity|]. split; [now apply shaped_b_true | exact E2].
Qed.

Lemma draw_ok_in_range d :
  draw_ok d -> 0 <= snd d < MAP_HEIGHT /\ 0 <= fst d < MAP_WIDTH.
Proof. unfold draw_ok, MAP_WIDTH, MAP_HEIGHT. lia. Qed.

End GridFacts.

(** X1.  [generate_map], given draws that [randint] can return, returns a
    map of 20 rows of 40 tiles in which a cell is a wall exactly when it is
    on the border or was drawn in one of the 26 rounds, and floor otherwise. *)
Theorem X1_generate_map_walls :
  forall (walls : nat -> Z * Z),
    (forall i, Main.draw_ok (walls i)) ->
    exists m,
      Main.generate_map Main.MAP_WIDTH Main.MAP_HEIGHT walls = Some m
      /\ Main.shaped Main.MAP_WIDTH Main.MAP_HEIGHT m
      /\ List.length (Main.wall_rounds Main.MAP_WIDTH Main.MAP_HEIGHT) = 26%nat
      /\ forall cy cx, 0 <= cy < Main.MAP_HEIGHT -> 0 <= cx < Main.MAP_WIDTH ->
           Main.tile m cy cx
           = Some (if Main.on_border Main.MAP_WIDTH Main.MAP_HEIGHT cy cx
                      || Main.drawn walls
                           (Main.wall_rounds Main.MAP_WIDTH Main.MAP_HEIGHT) cy cx
                   then Main.WALL_CHAR else Main.FLOOR_CHAR).
Proof.
  intros walls Hd. unfold Main.generate_map.
  destruct borders_spec as (m0 & -> & Hs0 & Hb0). cbn [Py.bind].
  destruct (random_walls_spec Main.MAP_WIDTH Main.MAP_HEIGHT walls
              (Main.wall_rounds Main.MAP_WIDTH Main.MAP_HEIGHT) m0 Hs0)
    as (m & E & Hs & T).
  { intro i. apply draw_ok_in_range, Hd. }
  exists m. split; [exact E|]. split; [exact Hs|]. split; [reflexivity|].
  intros cy cx Hy Hx. rewrite (T cy cx Hy Hx).
  rewrite (bordered_b_true _ _ _ Hb0 cy cx Hy Hx).
  destruct (Main.drawn _ _ cy cx); [now rewrite orb_true_r|].
  now rewrite orb_false_r.
Qed.

(** X1 on the draws of the crowded start: all 26 rounds draw tile (1, 1). *)
Lemma X1_one_wall_off_the_corner :
  exists m,
    Main.generate_map Main.MAP_WIDTH Main.MAP_HEIGHT
      (Main.walls Examples.crowded_seed) = Some m
    /\ Main.tile m 1 1 = Some "#" /\ Main.tile m 5 5 = Some "."
    /\ Main.tile m 0 7 = Some "#".
Proof.
  destruct (X1_generate_map_walls (Main.walls Examples.crowded_seed))
    as (m & E & _ & _ & T).
  - intro i. cbv. intuition congruence.
  - exists m. split; [exact E|].
    rewrite !T by (cbv; intuition congruence). repeat split; reflexivity.
Defined.

Lemma spawn_entity_first_floor :
  forall (m : list (list string)) (draws : list (Z * Z)) (pos : Z * Z),
    Main.spawn_entity m draws = Some pos ->
    Main.tile m (snd pos) (fst pos) = Some Main.FLOOR_CHAR
    /\ exists before after,
         draws = before ++ pos :: after
         /\ Forall (fun d => exists c, Main.tile m (snd d) (fst d) = Some c
                                       /\ c <> Main.FLOOR_CHAR) before.
Proof.
  intros m. induction draws as [|[sx sy] rest IH]; intros pos;
    cbn [Main.spawn_entity]; [discriminate|].
  destruct (Main.tile m sy sx) as [c|] eqn:T; [|discriminate]. cbn [Py.bind].
  destruct (String.eqb c Main.FLOOR_CHAR) eqn:F.
  - intro E. injection E as <-. apply String.eqb_eq in F. subst c.
    split; [exact T|]. exists [], rest. split; [reflexivity | constructor].
  - intro E. destruct (IH pos E) as (H1 & before & after & -> & H2).
    split; [exact H1|]. exists ((sx, sy) :: before), after.
    split; [reflexivity|]. constructor; [|exact H2].
    exists c. split; [exact T|]. apply String.eqb_neq. exact F.
Qed.

(** X2.  When [spawn_entity] returns, it returns the first of its draws that
    is a floor tile of the map: every draw before it was a tile that is not
    floor.  It never returns a wall tile. *)
Theorem X2_spawn_on_first_floor_draw :
  forall (m : list (list string)) (draws : list (Z * Z)) (pos : Z * Z),
    Main.spawn_entity m draws = Some pos ->
    Main.tile m (snd pos) (fst pos) = Some Main.FLOOR_CHAR
    /\ exists before after,
         draws = before ++ pos :: after
         /\ Forall (fun d => exists c, Main.tile m (snd d) (fst d) = Some c
                                       /\ c <> Main.FLOOR_CHAR) before.
Proof. exact spawn_entity_first_floor. Qed.

(** X2 on a concrete map: with draws (1, 1), a wall of the crowded map, and
    then (5, 5), the entity is placed on (5, 5). *)
Lemma X2_second_draw_taken :
  Main.tile (Main.map Examples.crowded) 5 5 = Some Main.FLOOR_CHAR
  /\ Main.spawn_entity (Main.map Examples.crowded) [(1, 1); (5, 5)] = Some (5, 5).
Proof.
  assert (E : Main.spawn_entity (Main.map Examples.crowded) [(1, 1); (5, 5)]
              = Some (5, 5)) by (vm_compute; reflexivity).
  split; [|exact E].
  exact (proj1 (X2_spawn_on_first_floor_draw _ _ _ E)).
Defined.

(** X3.  On a map of the grid's shape [move_entity] always returns.  The
    player moves by exactly the step asked for when the destination is a cell
    of the grid that is floor, and nothing else of the state changes; when
    the destination is off the grid or not floor, the state is returned as
    it is. *)
Theorem X3_move_entity_steps_or_stays :
  forall (g : Main.Game) (ddx ddy : Z),
    Main.shaped (Main.width g) (Main.height g) (Main.map g) ->
    let nx := Main.Player.x (Main.player g) + ddx in
    let ny := Main.Player.y (Main.player g) + ddy in
    exists g',
      Main.move_entity g ddx ddy = Some g'
      /\ ((0 <= nx < Main.width g /\ 0 <= ny < Main.height g
           /\ Main.tile (Main.map g) ny nx = Some Main.FLOOR_CHAR) ->
          g' = Main.set_player g (Main.Player.set_xy (Main.player g) nx ny))
      /\ (~ (0 <= nx < Main.width g /\ 0 <= ny < Main.height g
             /\ Main.tile (Main.map g) ny nx = Some Main.FLOOR_CHAR) ->
          g' = g).
Proof.
  intros g ddx ddy Hs. cbv zeta. unfold Main.move_entity.
  set (nx := Main.Player.x (Main.player g) + ddx).
  set (ny := Main.Player.y (Main.player g) + ddy).
  destruct ((0 <=? nx) && (nx <? Main.width g) && (0 <=? ny)
            && (ny <? Main.height g)) eqn:C.
  - repeat (apply andb_prop in C; destruct C as [C ?]).
    apply Z.leb_le in C. apply Z.ltb_lt in H1, H. apply Z.leb_le in H0.
    destruct (tile_shaped _ _ _ ny nx Hs) as [c T]; try lia.
    rewrite T. cbn [Py.bind].
    destruct (String.eqb c Main.FLOOR_CHAR) eqn:F.
    + eexists. split; [reflexivity|]. split; [reflexivity|].
      intro N. exfalso. apply N. apply String.eqb_eq in F. subst c.
      repeat split; auto; lia.
    + eexists. split; [reflexivity|]. split; [|reflexivity].
      intros (_ & _ & T'). injection T' as ->.
      rewrite String.eqb_refl in F. discriminate F.
  - eexists. split; [reflexivity|]. split; [|reflexivity].
    intros (Hx & Hy & _). exfalso.
    assert (C' : (0 <=? nx) && (nx <? Main.width g) && (0 <=? ny)
                 && (ny <? Main.height g) = true).
    { repeat (apply andb_true_intro; split);
        try apply Z.leb_le; try apply Z.ltb_lt; lia. }
    congruence.
Qed.

(** X3 on the crowded start: the player at (5, 5) steps left onto (4, 5). *)
Lemma X3_step_left :
  exists g',
    Main.move_entity Examples.crowded (-1) 0 = Some g'
    /\ (Main.Player.x (Main.player g'), Main.Player.y (Main.player g')) = (4, 5).
Proof.
  assert (Hs : Main.shaped (Main.width Examples.crowded)
                 (Main.height Examples.crowded) (Main.map Examples.crowded))
    by (apply shaped_b_true; vm_compute; reflexivity).
  destruct (X3_move_entity_steps_or_stays Examples.crowded (-1) 0 Hs)
    as (g' & E & M & _).
  exists g'. split; [exact E|].
  rewrite M; [reflexivity|]. vm_compute. intuition congruence.
Defined.

(** ** [main.py]: a new game, and where its entities stand *)

Section Placement.

Import Main.

Variable sqrt : Q -> Q.

Lemma int_of_Q_inject z : Py.int_of_Q (inject_Z z) = z.
Proof. unfold Py.int_of_Q, inject_Z. cbn. apply Z.quot_1_r. Qed.

Lemma uniform_1_3 u : random_ok u ->
  (1 <= uniform 1 3 u)%Q /\ (uniform 1 3 u <= 3)%Q.
Proof. unfold random_ok, uniform. intros [H0 H1]. split; lra. Qed.

Lemma spawn_enemies_placed m sd : forall ks es,
  (forall k, random_ok (enemy_random sd k)) ->
  spawn_enemies m sd ks = Some es ->
  Forall (fun e => on_floor m (Enemy.x e) (Enemy.y e)
                   /\ Enemy.health e = 50 /\ Enemy.speed e = (1 # 2)%Q
                   /\ delay_ok e) es.
Proof.
  induction ks as [|k rest IH]; intros es Hr; cbn [spawn_enemies].
  - intro E. injection E as <-. constructor.
  - destruct (spawn_entity m (enemy_draws sd k)) as [pos|] eqn:S1; [|discriminate].
    cbn [Py.bind].
    destruct (spawn_enemies m sd rest) as [es'|] eqn:S2; [|discriminate].
    cbn [Py.bind]. intro E. injection E as <-.
    constructor; [|now apply IH].
    destruct (spawn_entity_first_floor _ _ _ S1) as [T _].
    unfold on_floor, delay_ok.
    cbn [Enemy.new Enemy.x Enemy.y Enemy.health Enemy.speed Enemy.shoot_delay].
    rewrite !int_of_Q_inject. repeat split; auto; apply uniform_1_3, Hr.
Qed.

End Placement.

(** X4.  A game that [Game.__init__] returns, from draws its random calls can
    make, is 40 by 20 with a map of that shape walled on its border; the
    player has 100 health and 10 rounds of ammunition and stands on a floor
    tile; there are 10 enemies, each on a floor tile with 50 health, speed
    0.5 and a delay between 1 and 3; there is no projectile and the flag is
    down. *)
Theorem X4_new_game :
  forall (sd : Main.Seed) (g : Main.Game),
    Main.seed_ok sd ->
    Main.init sd = Some g ->
    Main.width g = 40 /\ Main.height g = 20
    /\ Main.shaped 40 20 (Main.map g) /\ Main.walled 40 20 (Main.map g)
    /\ Main.Player.health (Main.player g) = 100
    /\ Main.Player.ammo (Main.player g) = 10
    /\ Main.Player.char (Main.player g) = "@"
    /\ Main.well_placed g
    /\ List.length (Main.enemies g) = 10%nat
    /\ Forall (fun e => Main.Enemy.health e = 50
                        /\ Main.Enemy.speed e = (1 # 2)%Q
                        /\ Main.delay_ok e) (Main.enemies g)
    /\ Main.projectiles g = []
    /\ Main.game_over g = false.
Proof.
  intros sd g (Hwalls & Hpd & Hed & Hr). unfold Main.init.
  destruct (Main.generate_map _ _ _) as [m|] eqn:G; [|discriminate].
  cbn [Py.bind].
  destruct (Main.spawn_entity m (Main.player_draws sd)) as [pos|] eqn:S1;
    [|discriminate].
  cbn [Py.bind].
  destruct (Main.spawn_enemies m sd _) as [es|] eqn:S2; [|discriminate].
  cbn [Py.bind]. intro E. injection E as <-.
  destruct (generate_map_ok _ _ G) as [Hs Hwall].
  destruct (spawn_entity_first_floor _ _ _ S1) as [T _].
  pose proof (spawn_enemies_placed _ _ _ _ Hr S2) as P.
  destruct (spawn_enemies_on_grid _ _ _ _ Hed S2) as [_ L].
  rewrite length_seq in L.
  unfold Main.well_placed.
  cbn [Main.width Main.height Main.map Main.player Main.enemies Main.projectiles
       Main.game_over Main.Player.new Main.Player.x Main.Player.y
       Main.Player.health Main.Player.ammo Main.Player.char].
  repeat match goal with |- _ /\ _ => split end;
    try reflexivity; try assumption.
  - eapply Forall_impl; [|exact P]. intros e (H1 & _). exact H1.
  - eapply Forall_impl; [|exact P]. intros e (_ & H2 & H3 & H4). auto.
Qed.

(** X4 on the crowded start. *)
Lemma X4_crowded_start :
  Main.Player.health (Main.player Examples.crowded) = 100
  /\ List.length (Main.enemies Examples.crowded) = 10%nat
  /\ Main.well_placed Examples.crowded.
Proof.
  destruct (X4_new_game Examples.crowded_seed Examples.crowded
              crowded_seed_ok crowded_init)
    as (_ & _ & _ & _ & H & _ & _ & P & L & _).
  auto.
Defined.

(** ** [main.py]: what the steps of a round keep *)

Section Rounds.

Import Main.

Variable sqrt : Q -> Q.

Lemma shoot_keeps sx sy sdx sdy e g :
  map (shoot sx sy sdx sdy e g) = map g
  /\ enemies (shoot sx sy sdx sdy e g) = enemies g
  /\ Player.x (player (shoot sx sy sdx sdy e g)) = Player.x (player g)
  /\ Player.y (player (shoot sx sy sdx sdy e g)) = Player.y (player g)
  /\ (0 <= Player.ammo (player g) ->
      0 <= Player.ammo (player (shoot sx sy sdx sdy e g))
           <= Player.ammo (player g)).
Proof.
  unfold shoot.
  destruct (negb e); [destruct (Player.ammo (player g) <=? 0) eqn:A|];
    cbn [map enemies player set_player set_projectiles Player.x Player.y
         Player.ammo Player.set_ammo];
    repeat split; lia.
Qed.

Lemma handle_input_keeps k g g' :
  handle_input k g = Some g' ->
  map g' = map g /\ width g' = width g /\ height g' = height g
  /\ enemies g' = enemies g
  /\ (well_placed g -> well_placed g')
  /\ (0 <= Player.ammo (player g) ->
      0 <= Player.ammo (player g') <= Player.ammo (player g)).
Proof.
  assert (I : map g = map g /\ width g = width g /\ height g = height g
              /\ enemies g = enemies g
              /\ (well_placed g -> well_placed g)
              /\ (0 <= Player.ammo (player g) ->
                  0 <= Player.ammo (player g) <= Player.ammo (player g)))
    by (repeat match goal with |- _ /\ _ => split end; auto; intros; lia).
  assert (M : forall ddx ddy, move_entity g ddx ddy = Some g' ->
            map g' = map g /\ width g' = width g /\ height g' = height g
            /\ enemies g' = enemies g
            /\ (well_placed g -> well_placed g')
            /\ (0 <= Player.ammo (player g) ->
                0 <= Player.ammo (player g') <= Player.ammo (player g))).
  { intros ddx ddy. unfold move_entity. destruct (_ && _).
    - destruct (tile (map g) _ _) as [c|] eqn:T; [|discriminate]. cbn [Py.bind].
      destruct (String.eqb c FLOOR_CHAR) eqn:F;
        intro E; injection E as <-; [|exact I].
      apply String.eqb_eq in F. subst c.
      unfold well_placed.
      cbn [map width height enemies player set_player Player.x Player.y
           Player.ammo Player.set_xy].
      repeat match goal with |- _ /\ _ => split end; try lia; try tauto.
    - intro E. injection E as <-. exact I. }
  assert (S : forall sdx sdy, Some (player_shoot g sdx sdy) = Some g' ->
            map g' = map g /\ width g' = width g /\ height g' = height g
            /\ enemies g' = enemies g
            /\ (well_placed g -> well_placed g')
            /\ (0 <= Player.ammo (player g) ->
                0 <= Player.ammo (player g') <= Player.ammo (player g))).
  { intros sdx sdy E. injection E as <-. unfold player_shoot.
    destruct (shoot_keeps (inject_Z (Player.x (player g)))
                (inject_Z (Player.y (player g))) (inject_Z sdx) (inject_Z sdy)
                false g) as (K1 & K2 & K3 & K4 & K5).
    destruct (shoot_frame (inject_Z (Player.x (player g)))
                (inject_Z (Player.y (player g))) (inject_Z sdx) (inject_Z sdy)
                false g) as (F1 & F2 & _).
    unfold well_placed. rewrite K1, K2, K3, K4, F1, F2.
    repeat match goal with |- _ /\ _ => split end; auto. }
  destruct k; cbn [handle_input]; try apply M.
  - repeat match goal with
           | |- context [if ?b then _ else _] => destruct b
           end; try apply S;
      intro E; injection E as <-; exact I.
  - intro E. injection E as <-. exact I.
Qed.

Lemma update_projectiles_keeps dt g g' :
  update_projectiles dt g = Some g' ->
  map g' = map g /\ width g' = width g /\ height g' = height g
  /\ (forall e, In e (enemies g') -> In e (enemies g))
  /\ (well_placed g -> well_placed g')
  /\ Player.ammo (player g') + 2 * Z.of_nat (List.length (enemies g'))
     = Player.ammo (player g) + 2 * Z.of_nat (List.length (enemies g))
  /\ (List.length (enemies g') <= List.length (enemies g))%nat.
Proof using Type.
  rewrite update_projectiles_sweep.
  destruct (sweep _ _ _ _ _ _ _ _ _) as [r|] eqn:E; [|discriminate].
  cbn [option_map]. intro E'. injection E' as <-.
  pose proof (sweep_player _ _ _ _ _ _ _ _ _ _ E) as (Px & Py' & _ & _).
  pose proof (sweep_ammo _ _ _ _ _ _ _ _ _ _ E) as [A L].
  assert (Sub : forall e, In e (snd (fst (fst r))) -> In e (enemies g))
    by (intros e; eapply sweep_enemies_sub; eauto).
  unfold well_placed. cbn [swept map width height enemies player].
  rewrite Px, Py'.
  repeat match goal with |- _ /\ _ => split end; auto.
  intros [T F]. split; [exact T|].
  apply Forall_forall. intros e He.
  rewrite Forall_forall in F. apply F, Sub, He.
Qed.

Lemma is_free_floor g new_x new_y :
  is_free g new_x new_y = Some true -> on_floor (map g) new_x new_y.
Proof.
  unfold is_free, on_floor. destruct (_ && _); [|discriminate].
  destruct (tile (map g) _ _) as [c|]; [|discriminate]. cbn [Py.bind].
  intro E. injection E as E. apply String.eqb_eq in E. now subst.
Qed.

Lemma is_free_total g new_x new_y :
  shaped (width g) (height g) (map g) ->
  exists b, is_free g new_x new_y = Some b.
Proof.
  intro Hs. unfold is_free. destruct (_ && _) eqn:C; [|eauto].
  repeat (apply andb_prop in C; destruct C as [C ?]).
  apply Z.leb_le in C. apply Z.ltb_lt in H1, H. apply Z.leb_le in H0.
  destruct (tile_shaped _ _ _ (Py.int_of_Q new_y) (Py.int_of_Q new_x) Hs)
    as [c ->]; try lia.
  cbn [Py.bind]. eauto.
Qed.

Lemma step_enemy_stepped dt u1 u2 g e e' now :
  step_enemy sqrt dt u1 u2 g e = Some e' ->
  Enemy.char e' = Enemy.char e /\ Enemy.health e' = Enemy.health e
  /\ Enemy.speed e' = Enemy.speed e
  /\ Enemy.last_shot_time e' = Enemy.last_shot_time e
  /\ Enemy.shoot_delay e' = Enemy.shoot_delay e
  /\ elapsed now e' = elapsed now e
  /\ (on_floor (map g) (Enemy.x e) (Enemy.y e) ->
      on_floor (map g) (Enemy.x e') (Enemy.y e')).
Proof.
  unfold step_enemy.
  destruct (is_free g _ _) as [[|]|] eqn:F; [| |discriminate];
    cbn [Py.bind]; intro E; injection E as <-; [|repeat split; auto].
  cbn [Enemy.set_xy Enemy.char Enemy.health Enemy.speed Enemy.last_shot_time
       Enemy.shoot_delay Enemy.x Enemy.y].
  repeat split. intros _. now apply is_free_floor in F.
Qed.

(** The loop of [update_enemies]: every enemy is stepped, stays on the
    floor, and one projectile is appended for each elapsed delay. *)
Lemma update_enemies_loop_timers dt now rnd :
  (forall k, random_ok (rnd k)) ->
  forall es k g r,
    update_enemies_loop sqrt dt now rnd k es g = Some r ->
    Forall2 (stepped now) es (fst r)
    /\ (Forall (fun e => on_floor (map g) (Enemy.x e) (Enemy.y e)) es ->
        Forall (fun e => on_floor (map g) (Enemy.x e) (Enemy.y e)) (fst r))
    /\ List.length (projectiles (snd r))
       = (List.length (projectiles g) + List.length (filter (elapsed now) es))%nat.
Proof.
  intros Hr. induction es as [|e rest IH]; intros k g r;
    cbn [update_enemies_loop filter].
  - intro E. injection E as <-. cbn [fst snd filter List.length].
    split; [constructor | split; [auto | lia]].
  - destruct (step_enemy sqrt dt _ _ g e) as [e'|] eqn:S1; [|discriminate].
    cbn [Py.bind].
    destruct (step_enemy_stepped _ _ _ _ _ _ now S1)
      as (C1 & C2 & C3 & C4 & C5 & C6 & C7).
    fold (elapsed now e'). rewrite C6.
    destruct (elapsed now e) eqn:El.
    + destruct (update_enemies_loop _ _ _ _ _ rest _) as [r'|] eqn:E';
        [|discriminate].
      cbn [Py.bind]. intro E. injection E as <-.
      destruct (IH _ _ _ E') as (A & B & C).
      cbn [fst snd]. unfold enemy_shot, shoot in *.
      cbn [negb map projectiles set_projectiles] in *.
      split; [|split].
      * constructor; [|exact A]. unfold stepped, delay_ok.
        cbn [Enemy.set_timer Enemy.char Enemy.health Enemy.speed
             Enemy.last_shot_time Enemy.shoot_delay].
        rewrite El. repeat split; auto; try discriminate;
          apply uniform_1_3, Hr.
      * intro F. inversion F as [|? ? F1 F2]; subst.
        constructor; [exact (C7 F1) | exact (B F2)].
      * rewrite C, length_app. cbn [List.length]. lia.
    + destruct (update_enemies_loop _ _ _ _ _ rest _) as [r'|] eqn:E';
        [|discriminate].
      cbn [Py.bind]. intro E. injection E as <-.
      destruct (IH _ _ _ E') as (A & B & C).
      cbn [fst snd]. split; [|split].
      * constructor; [|exact A]. unfold stepped. rewrite El.
        repeat split; auto; discriminate.
      * intro F. inversion F as [|? ? F1 F2]; subst.
        constructor; [exact (C7 F1) | exact (B F2)].
      * exact C.
Qed.

Lemma update_enemies_loop_total dt now rnd : forall es k g,
  shaped (width g) (height g) (map g) ->
  exists r, update_enemies_loop sqrt dt now rnd k es g = Some r.
Proof.
  induction es as [|e rest IH]; intros k g Hs; cbn [update_enemies_loop];
    [eauto|].
  unfold step_enemy.
  destruct (is_free_total g
              (Enemy.x e
               + (fst (normalized sqrt (inject_Z (Player.x (player g)) - Enemy.x e)
                         (inject_Z (Player.y (player g)) - Enemy.y e))
                  + uniform (- (1 # 5)) (1 # 5) (rnd k))
                 * Enemy.speed e * dt)%Q
              (Enemy.y e
               + (snd (normalized sqrt (inject_Z (Player.x (player g)) - Enemy.x e)
                         (inject_Z (Player.y (player g)) - Enemy.y e))
                  + uniform (- (1 # 5)) (1 # 5) (rnd (S k)))
                 * Enemy.speed e * dt)%Q Hs) as [b ->].
  cbn [Py.bind]. destruct (Qle_bool _ _).
  - match goal with
    | |- context [update_enemies_loop sqrt dt now rnd ?k' rest ?g'] =>
        destruct (IH k' g') as [r ->]; [exact Hs|]
    end.
    cbn [Py.bind]. eauto.
  - destruct (IH (S (S k)) g Hs) as [r ->]. cbn [Py.bind]. eauto.
Qed.

Lemma move_entity_total g ddx ddy :
  on_grid g -> exists g', move_entity g ddx ddy = Some g'.
Proof.
  intros (Hw & Hh & Hs & _). unfold move_entity.
  destruct (_ && _) eqn:C; [|eauto].
  repeat (apply andb_prop in C; destruct C as [C ?]).
  apply Z.leb_le in C. apply Z.ltb_lt in H1, H. apply Z.leb_le in H0.
  rewrite Hw, Hh in *.
  destruct (tile_shaped _ _ _ (Player.y (player g) + ddy)
              (Player.x (player g) + ddx) Hs) as [c ->]; try lia.
  cbn [Py.bind]. destruct (String.eqb c FLOOR_CHAR); eauto.
Qed.

Lemma handle_input_total k g :
  on_grid g -> exists g', handle_input k g = Some g'.
Proof.
  intro Hg. destruct k; cbn [handle_input]; try (now apply move_entity_total);
    [|eauto].
  repeat match goal with
         | |- context [if ?b then _ else _] => destruct b
         end; eauto.
Qed.

End Rounds.

(** ** [main.py]: invariants of the loop *)

Section LoopInvariants.

Import Main.

Variable sqrt : Q -> Q.

Lemma update_enemies_keeps dt now rnd g g' :
  (forall k, random_ok (rnd k)) ->
  update_enemies sqrt dt now rnd g = Some g' ->
  map g' = map g /\ width g' = width g /\ height g' = height g
  /\ player g' = player g /\ game_over g' = game_over g
  /\ Forall2 (stepped now) (enemies g) (enemies g')
  /\ (well_placed g -> well_placed g')
  /\ List.length (projectiles g')
     = (List.length (projectiles g)
        + List.length (filter (elapsed now) (enemies g)))%nat.
Proof.
  intros Hr. unfold update_enemies.
  destruct (update_enemies_loop _ _ _ _ _ _ _) as [r|] eqn:E; [|discriminate].
  cbn [Py.bind]. intro E'. injection E' as <-.
  destruct (update_enemies_loop_frame _ _ _ _ _ _ _ _ E)
    as (H1 & H2 & H3 & H4 & _ & _ & H7 & _).
  destruct (update_enemies_loop_timers _ dt now rnd Hr _ _ _ _ E) as (A & B & C).
  unfold well_placed.
  cbn [map width height player game_over enemies projectiles set_enemies].
  rewrite H3, H4. repeat match goal with |- _ /\ _ => split end; auto;
    try tauto; intros [_ F]; auto.
Qed.

Lemma stepped_delay_ok now : forall es es',
  Forall2 (stepped now) es es' -> Forall delay_ok es -> Forall delay_ok es'.
Proof.
  induction 1 as [|e e' es es' S _ IH]; intro F; [constructor|].
  inversion F as [|? ? F1 F2]; subst. constructor; [|now apply IH].
  destruct S as (_ & _ & _ & S1 & S2).
  destruct (elapsed now e) eqn:El.
  - now apply S1.
  - destruct (S2 eq_refl) as [_ D]. unfold delay_ok in *. now rewrite D.
Qed.

Lemma stepped_length now : forall es es',
  Forall2 (stepped now) es es' -> List.length es' = List.length es.
Proof. induction 1; cbn; congruence. Qed.

Lemma init_sound sd g : seed_ok sd -> init sd = Some g -> sound g.
Proof.
  intros Hsd Hi. pose proof Hsd as (_ & _ & _ & Hr). unfold init in Hi.
  destruct (generate_map _ _ _) as [m|] eqn:G; [|discriminate].
  cbn [Py.bind] in Hi.
  destruct (spawn_entity m (player_draws sd)) as [pos|] eqn:S1; [|discriminate].
  cbn [Py.bind] in Hi.
  destruct (spawn_enemies m sd _) as [es|] eqn:S2; [|discriminate].
  cbn [Py.bind] in Hi. injection Hi as <-.
  destruct (spawn_entity_first_floor _ _ _ S1) as [T _].
  pose proof (spawn_enemies_placed _ _ _ _ Hr S2) as P.
  destruct (spawn_enemies_on_grid _ _ _ _ (proj1 (proj2 (proj2 Hsd))) S2) as [_ L].
  rewrite length_seq in L.
  unfold sound, well_placed.
  cbn [map player enemies Player.new Player.x Player.y Player.ammo Player.health].
  rewrite L. repeat match goal with |- _ /\ _ => split end.
  - exact T.
  - eapply Forall_impl; [|exact P]. intros e (H1 & _). exact H1.
  - eapply Forall_impl; [|exact P]. intros e (_ & _ & _ & H4). exact H4.
  - lia.
  - cbn. lia.
  - exists 0. lia.
Qed.

Lemma tick_sound inp g g' :
  (forall k, random_ok (rnd inp k)) ->
  tick sqrt inp g = Some g' -> sound g -> map g' = map g /\ sound g'.
Proof.
  intros Hr Ht (W & D & A0 & A1 & k & K0 & K1). unfold tick in Ht.
  destruct (handle_input _ _) as [g1|] eqn:E1; [|discriminate].
  cbn [Py.bind] in Ht.
  destruct (update_projectiles _ g1) as [g2|] eqn:E2; [|discriminate].
  cbn [Py.bind] in Ht.
  destruct (update_enemies _ _ _ _ g2) as [g3|] eqn:E3; [|discriminate].
  cbn [Py.bind] in Ht. destruct (render _ g3); [|discriminate].
  cbn [Py.bind] in Ht. injection Ht as <-.
  pose proof (handle_input_frame _ _ _ E1) as (_ & Hh1 & _).
  apply handle_input_keeps in E1.
  destruct E1 as (M1 & _ & _ & N1 & W1 & Am1).
  cbn [map enemies player set_last_update] in M1, N1, Am1, Hh1.
  pose proof (update_projectiles_health _ _ _ E2) as (_ & _ & Hh2 & _).
  apply update_projectiles_keeps in E2.
  destruct E2 as (M2 & _ & _ & N2 & W2 & Am2 & L2).
  apply (update_enemies_keeps _ _ _ _ _ Hr) in E3.
  destruct E3 as (M3 & _ & _ & P3 & _ & S3 & W3 & _).
  split; [congruence|].
  unfold sound. rewrite P3, (stepped_length _ _ _ S3).
  specialize (Am1 A0). rewrite N1 in *.
  repeat match goal with |- _ /\ _ => split end.
  - apply W3, W2, W1. exact W.
  - apply (stepped_delay_ok _ _ _ S3).
    rewrite Forall_forall in *. intros e He. apply D, N2, He.
  - lia.
  - lia.
  - rewrite Hh2, Hh1, K1.
    match goal with
    | |- context [Z.of_nat ?n] => exists (k + Z.of_nat n); lia
    end.
Qed.

Lemma reachable_sound g : reachable sqrt g -> sound g.
Proof.
  induction 1 as [sd g Hsd Hi | g inp g' _ IH _ Hr Ht _
                  | g inp g' sd g0 _ _ _ _ _ _ Hsd Hi
                  | g inp g' _ IH _ Hr Ht _].
  - eapply init_sound; eauto.
  - exact (proj2 (tick_sound _ _ _ Hr Ht IH)).
  - eapply init_sound; eauto.
  - exact (proj2 (tick_sound _ _ _ Hr Ht IH)).
Qed.

End LoopInvariants.

(** X5.  In [main.py], at the top of every round the player and every enemy
    stand on floor tiles of the map (an enemy's tile being the one [int]
    gives for its position): [move_entity] and [update_enemies] only move
    onto floor.  A round with legal random values does not change the map
    and leaves them on floor tiles. *)
Theorem X5_nobody_stands_on_a_wall :
  forall (sqrt : Q -> Q) (g : Main.Game),
    Main.reachable sqrt g ->
    Main.well_placed g
    /\ forall inp g',
         (forall k, Main.random_ok (Main.rnd inp k)) ->
         Main.tick sqrt inp g = Some g' ->
         Main.map g' = Main.map g /\ Main.well_placed g'.
Proof.
  intros sqrt g Hg. pose proof (reachable_sound sqrt g Hg) as S.
  split; [exact (proj1 S)|].
  intros inp g' Hr Ht. destruct (tick_sound sqrt inp g g' Hr Ht S) as [M S'].
  split; [exact M | exact (proj1 S')].
Qed.

(** X5 on the state after three rounds of the crowded game. *)
Lemma X5_fallen_on_the_floor : Main.well_placed Examples.fallen.
Proof.
  exact (proj1 (X5_nobody_stands_on_a_wall Examples.sqrt_Q Examples.fallen
                  fallen_reachable)).
Defined.

(** X6.  In [main.py], at the top of every round the ammunition counter is
    not negative, the counter plus twice the number of enemies is at most 30
    (a shot takes one round, a kill gives two and takes one enemy of the
    ten), and the health is 100 less a multiple of 10. *)
Theorem X6_ammunition_and_health_counters :
  forall (sqrt : Q -> Q) (g : Main.Game),
    Main.reachable sqrt g ->
    0 <= Main.Player.ammo (Main.player g)
    /\ Main.Player.ammo (Main.player g)
       + 2 * Z.of_nat (List.length (Main.enemies g)) <= 30
    /\ exists k, 0 <= k /\ Main.Player.health (Main.player g) = 100 - 10 * k.
Proof.
  intros sqrt g Hg.
  destruct (reachable_sound sqrt g Hg) as (_ & _ & A & B & C). auto.
Qed.

(** X6 on the state after three rounds of the crowded game. *)
Lemma X6_fallen_counters :
  0 <= Main.Player.ammo (Main.player Examples.fallen)
  /\ Main.Player.ammo (Main.player Examples.fallen)
     + 2 * Z.of_nat (List.length (Main.enemies Examples.fallen)) <= 30.
Proof.
  destruct (X6_ammunition_and_health_counters Examples.sqrt_Q Examples.fallen
              fallen_reachable) as (A & B & _).
  split; [exact A | exact B].
Defined.

(** X7.  In [main.py], when [update_enemies] returns with legal random
    values, the enemies are the same in number and order, each with its
    glyph, health and speed; an enemy whose delay had elapsed has fired
    exactly one projectile, its timer is reset to the clock and its new
    delay is between 1 and 3; an enemy whose delay had not elapsed keeps its
    timer and fires nothing.  The player, the map and the flag are left as
    they were. *)
Theorem X7_enemies_fire_when_due :
  forall (sqrt : Q -> Q) (dt now : Q) (rnd : nat -> Q) (g g' : Main.Game),
    (forall k, Main.random_ok (rnd k)) ->
    Main.update_enemies sqrt dt now rnd g = Some g' ->
    Forall2 (Main.stepped now) (Main.enemies g) (Main.enemies g')
    /\ List.length (Main.projectiles g')
       = (List.length (Main.projectiles g)
          + List.length (filter (Main.elapsed now) (Main.enemies g)))%nat
    /\ Main.player g' = Main.player g /\ Main.map g' = Main.map g
    /\ Main.game_over g' = Main.game_over g.
Proof.
  intros sqrt dt now rnd g g' Hr E.
  destruct (update_enemies_keeps sqrt dt now rnd g g' Hr E)
    as (M & _ & _ & P & O & S & _ & L).
  auto.
Qed.

(** X7 on the crowded start at clock 1: only the first enemy, whose delay is
    1, has fired. *)
Lemma X7_one_enemy_due :
  exists g',
    Main.update_enemies Examples.sqrt_Q 1 1 (Main.rnd (Examples.calm 1))
      Examples.crowded = Some g'
    /\ List.length (Main.projectiles g') = 1%nat
    /\ List.length (filter (Main.elapsed 1) (Main.enemies Examples.crowded)) = 1%nat.
Proof.
  destruct (Main.update_enemies Examples.sqrt_Q 1 1 (Main.rnd (Examples.calm 1))
              Examples.crowded) as [g'|] eqn:E;
    [|vm_compute in E; discriminate E].
  exists g'. split; [reflexivity|].
  destruct (X7_enemies_fire_when_due Examples.sqrt_Q 1 1
              (Main.rnd (Examples.calm 1)) Examples.crowded g'
              (calm_random_ok 1) E) as (_ & L & _).
  rewrite L. split; reflexivity.
Defined.

(** X8.  In [main.py], at the top of every round the delay of every enemy is
    between 1 and 3. *)
Theorem X8_delays_between_1_and_3 :
  forall (sqrt : Q -> Q) (g : Main.Game),
    Main.reachable sqrt g -> Forall Main.delay_ok (Main.enemies g).
Proof.
  intros sqrt g Hg.
  exact (proj1 (proj2 (reachable_sound sqrt g Hg))).
Qed.

(** X8 on the state after three rounds of the crowded game. *)
Lemma X8_fallen_delays : Forall Main.delay_ok (Main.enemies Examples.fallen).
Proof.
  exact (X8_delays_between_1_and_3 Examples.sqrt_Q Examples.fallen
           fallen_reachable).
Defined.

(** X9.  In [main.py], from a state at the top of a round the three update
    steps of a round always return (no index is out of range), whatever the
    key, the clocks and the random values, and they leave every entity on
    the grid. *)
Theorem X9_update_steps_always_return :
  forall (sqrt : Q -> Q) (g : Main.Game) (k : Main.Key) (t dt dt' now : Q)
         (rnd : nat -> Q),
    Main.reachable sqrt g ->
    exists g1 g2 g3,
      Main.handle_input k (Main.set_last_update g t) = Some g1
      /\ Main.update_projectiles dt g1 = Some g2
      /\ Main.update_enemies sqrt dt' now rnd g2 = Some g3
      /\ Main.on_grid g3.
Proof.
  intros sqrt g k t dt dt' now rnd Hg.
  pose proof (main_reachable_on_grid sqrt g Hg) as G.
  assert (G0 : Main.on_grid (Main.set_last_update g t)) by exact G.
  destruct (handle_input_total k _ G0) as [g1 E1].
  pose proof (handle_input_on_grid k _ g1 G0 E1) as G1.
  destruct (update_projectiles_total dt g1) as [g2 E2].
  { destruct G1 as (Hw & Hh & Hs & _). now rewrite Hw, Hh. }
  pose proof (update_projectiles_on_grid dt g1 g2 G1 E2) as G2.
  assert (E3 : exists g3, Main.update_enemies sqrt dt' now rnd g2 = Some g3).
  { unfold Main.update_enemies.
    destruct (update_enemies_loop_total sqrt dt' now rnd (Main.enemies g2) 0 g2)
      as [r ->].
    - destruct G2 as (Hw & Hh & Hs & _). now rewrite Hw, Hh.
    - cbn [Py.bind]. eauto. }
  destruct E3 as [g3 E3].
  exists g1, g2, g3.
  split; [exact E1 | split; [exact E2 | split; [exact E3|]]].
  exact (update_enemies_on_grid sqrt dt' now rnd g2 g3 G2 E3).
Qed.

(** X9 on the crowded start with the key [s]. *)
Lemma X9_a_round_of_the_crowded_game :
  exists g1 g2 g3,
    Main.handle_input (Main.Char "s") (Main.set_last_update Examples.crowded 1)
    = Some g1
    /\ Main.update_projectiles (1 # 10) g1 = Some g2
    /\ Main.update_enemies Examples.sqrt_Q (1 # 10) 1
         (Main.rnd (Examples.calm 1)) g2 = Some g3
    /\ Main.on_grid g3.
Proof.
  exact (X9_update_steps_always_return Examples.sqrt_Q Examples.crowded
           (Main.Char "s") 1 (1 # 10) (1 # 10) 1 (Main.rnd (Examples.calm 1))
           (crowded_reachable Examples.sqrt_Q)).
Defined.

(** ** [main.py]: [render] on a terminal that is large enough *)

Section RenderReturns.

Import Main.

Lemma addch_inside win cy cx ch attr scr :
  0 <= cy < fst win -> 0 <= cx < snd win ->
  addch win cy cx ch attr scr = Some ((cy, cx, (ch, attr)) :: scr).
Proof.
  intros Hy Hx. unfold addch.
  replace ((0 <=? cy) && (cy <? fst win) && (0 <=? cx) && (cx <? snd win))
    with true; [reflexivity|].
  symmetry. repeat (apply andb_true_intro; split);
    try apply Z.leb_le; try apply Z.ltb_lt; lia.
Qed.

Lemma render_row_returns win w h m cy :
  shaped w h m -> 0 <= cy < h -> cy < fst win -> w <= snd win ->
  forall xs scr, Forall (fun cx => Z.of_nat cx < w) xs ->
    exists scr', render_row win m cy xs scr = Some scr'.
Proof.
  intros Hs Hy Wy Wx. induction xs as [|cx rest IH]; intros scr F;
    cbn [render_row]; [eauto|].
  inversion F as [|? ? F1 F2]; subst.
  destruct (tile_shaped w h m cy (Z.of_nat cx) Hs) as [c ->]; try lia.
  cbn [Py.bind]. rewrite addch_inside by lia. cbn [Py.bind]. now apply IH.
Qed.

Lemma seq_below n : Forall (fun k => Z.of_nat k < Z.of_nat n) (seq 0 n).
Proof. apply Forall_forall. intros k Hk. apply in_seq in Hk. lia. Qed.

Lemma render_map_returns win w h m :
  shaped w h m -> 0 <= w -> h <= fst win -> w <= snd win ->
  forall ys scr, Forall (fun cy => Z.of_nat cy < h) ys ->
    exists scr', render_map win m w ys scr = Some scr'.
Proof.
  intros Hs Hw Wy Wx. induction ys as [|cy rest IH]; intros scr F;
    cbn [render_map]; [eauto|].
  inversion F as [|? ? F1 F2]; subst.
  destruct (render_row_returns win w h m (Z.of_nat cy) Hs) with
    (xs := seq 0 (Z.to_nat w)) (scr := scr) as [scr1 ->]; try lia.
  { pose proof (seq_below (Z.to_nat w)) as B.
    eapply Forall_impl; [|exact B]. intros k Hk. cbn beta in Hk. lia. }
  cbn [Py.bind]. now apply IH.
Qed.

Lemma render_enemies_returns win :
  MAP_HEIGHT <= fst win -> MAP_WIDTH <= snd win ->
  forall es scr, Forall enemy_in_grid es ->
    exists scr', render_enemies win es scr = Some scr'.
Proof.
  intros Wy Wx. induction es as [|e rest IH]; intros scr F;
    cbn [render_enemies]; [eauto|].
  inversion F as [|? ? (X0 & X1 & Y0 & Y1) F2]; subst.
  pose proof (int_of_Q_range _ _ X0 X1). pose proof (int_of_Q_range _ _ Y0 Y1).
  rewrite addch_inside by lia. cbn [Py.bind]. now apply IH.
Qed.

Lemma render_projectiles_returns win :
  MAP_HEIGHT <= fst win -> MAP_WIDTH <= snd win ->
  forall ps scr, Forall projectile_in_grid ps ->
    exists scr', render_projectiles win ps scr = Some scr'.
Proof.
  intros Wy Wx. induction ps as [|p rest IH]; intros scr F;
    cbn [render_projectiles]; [eauto|].
  inversion F as [|? ? (X0 & X1 & Y0 & Y1) F2]; subst.
  pose proof (int_of_Q_range _ _ X0 X1). pose proof (int_of_Q_range _ _ Y0 Y1).
  rewrite addch_inside by lia. cbn [Py.bind]. now apply IH.
Qed.

Lemma addstr_returns win cy attr : forall s cx scr,
  0 <= cy < fst win -> 0 <= cx ->
  cx + Z.of_nat (String.length s) <= snd win ->
  exists scr', addstr win cy cx s attr scr = Some scr'.
Proof.
  induction s as [|c rest IH]; intros cx scr Hy Hx Hl; cbn [addstr]; [eauto|].
  cbn [String.length] in Hl. rewrite addch_inside by lia. cbn [Py.bind].
  apply IH; lia.
Qed.

(** The text [render] writes below the map is [status]. *)
Lemma render_status win g :
  render win g
  = (scr <- render_map win (map g) (width g) (seq 0 (Z.to_nat (height g))) [] ;;
     scr <- addch win (Player.y (player g)) (Player.x (player g))
              (Player.char (player g)) COLOR_PLAYER scr ;;
     scr <- render_enemies win (enemies g) scr ;;
     scr <- render_projectiles win (projectiles g) scr ;;
     addstr win (height g) 0 (status g) COLOR_STATUS scr).
Proof. reflexivity. Qed.

End RenderReturns.

(** X10.  In [main.py], on a state whose entities are on the grid, [render]
    returns a screen whenever the terminal has more than 20 rows, at least
    40 columns and more columns than the status line has characters: no
    [addch] or [addstr] falls outside the window. *)
Theorem X10_render_fits_the_terminal :
  forall (g : Main.Game) (win : Z * Z),
    Main.on_grid g ->
    20 < fst win -> 40 <= snd win ->
    Z.of_nat (String.length (Main.status g)) < snd win ->
    exists scr, Main.render win g = Some scr.
Proof.
  intros g win (Hw & Hh & Hs & _ & (Px & Py') & He & Hp) Wy Wx Wl.
  rewrite render_status. rewrite Hw, Hh.
  unfold Main.MAP_WIDTH, Main.MAP_HEIGHT in *.
  destruct (render_map_returns win 40 20 (Main.map g) Hs) with
    (ys := seq 0 (Z.to_nat 20)) (scr := @nil (Z * Z * (string * Z)))
    as [scr0 ->]; try lia.
  { pose proof (seq_below (Z.to_nat 20)) as B.
    eapply Forall_impl; [|exact B]. intros k Hk. cbn beta in Hk. lia. }
  cbn [Py.bind]. rewrite addch_inside by lia. cbn [Py.bind].
  destruct (render_enemies_returns win) with
    (es := Main.enemies g)
    (scr := (Main.Player.y (Main.player g), Main.Player.x (Main.player g),
             (Main.Player.char (Main.player g), Main.COLOR_PLAYER)) :: scr0)
    as [scr2 ->]; unfold Main.MAP_WIDTH, Main.MAP_HEIGHT; try lia; auto.
  cbn [Py.bind].
  destruct (render_projectiles_returns win) with
    (ps := Main.projectiles g) (scr := scr2)
    as [scr3 ->]; unfold Main.MAP_WIDTH, Main.MAP_HEIGHT; try lia; auto.
  cbn [Py.bind]. apply addstr_returns; lia.
Qed.

(** X10 on the state after three rounds of the crowded game, on a terminal
    of 24 rows and 80 columns. *)
Lemma X10_fallen_on_24_by_80 :
  exists scr, Main.render (24, 80) Examples.fallen = Some scr.
Proof.
  apply X10_render_fits_the_terminal.
  - apply (main_reachable_on_grid Examples.sqrt_Q), fallen_reachable.
  - reflexivity.
  - discriminate.
  - vm_compute. reflexivity.
Defined.

(** ** [backup.py]: the enemies' step over the integers *)

Section BackupSteps.

Import Backup.

Lemma move_enemies_loop_pulled p : forall es over,
  in_grid 40 20 p -> Forall (in_grid 40 20) es ->
  move_enemies_loop p es over
  = Some (List.map (pulled p) es,
          over || existsb (touches p) (List.map (pulled p) es)).
Proof.
  induction es as [|e es IH]; intros over Hp Hes; cbn [move_enemies_loop].
  - cbn [List.map existsb]. now rewrite orb_false_r.
  - inversion Hes as [|? ? He Hrest]; subst.
    rewrite move_enemy_stride by (unfold in_grid in *; lia).
    cbn [Py.bind]. fold (pulled p e).
    rewrite (IH _ Hp Hrest). cbn [Py.bind fst snd List.map existsb].
    do 2 f_equal. destruct (touches p (pulled p e)), over; reflexivity.
Qed.

Lemma skirmish_reachable : reachable Examples.skirmish.
Proof.
  apply (run_frames_reachable Examples.skirmish_run (init 40 20 0 0));
    [apply reach_init | vm_compute; reflexivity].
Qed.

End BackupSteps.

(** X11.  In [backup.py], on a state of the 40 by 20 grid, [move_enemies]
    returns, and what its floating-point step [int(d/dist + 0.5)] adds to a
    coordinate of an enemy is 1 when the player is further along that axis
    (larger x, or larger y) by at least half the distance, and 0 otherwise:
    every enemy keeps its place or steps right, down or both, never left or
    up, and an enemy with the player to its left and above never moves.
    The flag is raised when an enemy stands on the player's cell after its
    step; the player, the bullets and the score are left alone. *)
Theorem X11_enemies_step_right_and_down_only :
  forall g : Backup.Game,
    Backup.on_grid g ->
    let p := Backup.player g in
    let es' := List.map (Backup.pulled p) (Backup.enemies g) in
    Backup.move_enemies g
    = Some (Backup.set_game_over (Backup.set_enemies g es')
              (Backup.game_over g || existsb (Backup.touches p) es'))
    /\ forall e,
         let e' := Backup.pulled p e in
         let ddx := Backup.x p - Backup.x e in
         let ddy := Backup.y p - Backup.y e in
         (Backup.x e' = Backup.x e + 1 <-> 0 < ddx /\ ddy * ddy <= 3 * ddx * ddx)
         /\ (Backup.x e' <> Backup.x e + 1 -> Backup.x e' = Backup.x e)
         /\ (Backup.y e' = Backup.y e + 1 <-> 0 < ddy /\ ddx * ddx <= 3 * ddy * ddy)
         /\ (Backup.y e' <> Backup.y e + 1 -> Backup.y e' = Backup.y e)
         /\ Backup.char e' = Backup.char e
         /\ Backup.is_enemy e' = Backup.is_enemy e.
Proof.
  intros g (Hw & Hh & Hp & Hes & _) p es'. split.
  - unfold Backup.move_enemies.
    rewrite (move_enemies_loop_pulled _ _ _ Hp Hes). reflexivity.
  - intros e e' ddx ddy. unfold e', Backup.pulled, Backup.stride.
    cbn [Backup.set_xy Backup.x Backup.y Backup.char Backup.is_enemy].
    fold ddx ddy.
    destruct (0 <? ddx) eqn:Ex; destruct (0 <? ddy) eqn:Ey;
      destruct (ddy * ddy <=? 3 * ddx * ddx) eqn:Lx;
      destruct (ddx * ddx <=? 3 * ddy * ddy) eqn:Ly;
      cbn [andb];
      rewrite ?Z.ltb_lt, ?Z.ltb_ge in Ex, Ey;
      rewrite ?Z.leb_le, ?Z.leb_gt in Lx, Ly;
      repeat match goal with |- _ /\ _ => split end;
      try reflexivity; try lia.
Qed.

(** X11 on the state after the 42 frames of the skirmish. *)
Lemma X11_skirmish_enemy_steps :
  Backup.move_enemies Examples.skirmish
  = Some (Backup.set_game_over
            (Backup.set_enemies Examples.skirmish
               (List.map (Backup.pulled (Backup.player Examples.skirmish))
                         (Backup.enemies Examples.skirmish)))
            (Backup.game_over Examples.skirmish
             || existsb (Backup.touches (Backup.player Examples.skirmish))
                  (List.map (Backup.pulled (Backup.player Examples.skirmish))
                            (Backup.enemies Examples.skirmish)))).
Proof.
  exact (proj1 (X11_enemies_step_right_and_down_only Examples.skirmish
                  (reachable_on_grid _ skirmish_reachable))).
Defined.

(** ** [backup.py]: the keys *)

Section BackupKeys.

Import Backup.

(** What no key touches. *)
Lemma handle_char_keeps c g :
  width (handle_char c g) = width g /\ height (handle_char c g) = height g
  /\ enemies (handle_char c g) = enemies g
  /\ score (handle_char c g) = score g
  /\ game_over (handle_char c g) = game_over g
  /\ last_spawn_time (handle_char c g) = last_spawn_time g
  /\ last_update_time (handle_char c g) = last_update_time g.
Proof.
  unfold handle_char.
  repeat match goal with
         | |- context [if ?b then _ else _] => destruct b
         end; repeat split.
Qed.

Lemma handle_char_inside c g :
  in_grid (width g) (height g) (player g) ->
  in_grid (width g) (height g) (player (handle_char c g)).
Proof.
  intros Hp. unfold handle_char, in_grid in *.
  repeat match goal with
         | |- context [if ?b then _ else _] => destruct b eqn:?
         end;
    cbn [player set_player set_xy shoot set_bullets x y];
    repeat match goal with
           | E : (_ && _) = true |- _ => apply andb_prop in E; destruct E
           | E : (_ <? _) = true |- _ => apply Z.ltb_lt in E
           end; lia.
Qed.

Lemma handle_char_shots c g :
  (bullets (handle_char c g) = bullets g
   \/ exists ddx ddy,
        In (c, (ddx, ddy))
           [("i"%char, (0, -1)); ("k"%char, (0, 1));
            ("j"%char, (-1, 0)); ("l"%char, (1, 0))]
        /\ player (handle_char c g) = player g
        /\ bullets (handle_char c g)
           = bullets g ++ [mkEntity (x (player g) + ddx) (y (player g) + ddy)
                             (bullet_char ddx ddy) ddx ddy false]).
Proof.
  unfold handle_char.
  repeat match goal with
         | |- context [if ?b then _ else _] => destruct b eqn:?
         end;
    try (left; reflexivity);
    repeat match goal with
           | E : Ascii.eqb _ _ = true |- _ => apply Ascii.eqb_eq in E; subst c
           end;
    right; do 2 eexists;
    (split; [|split; reflexivity]); cbn [In]; tauto.
Qed.

End BackupKeys.

(** X12.  In [backup.py] the key handling of a frame keeps a player that is
    on the grid on the grid, whatever the size of the grid, and moves it by
    at most one cell; a key other than w, s, a, d, i, k, j, l changes
    nothing; a move key pressed at the matching edge changes nothing; a move
    key never adds a bullet, and a shooting key leaves the player in place
    and appends exactly one bullet, one step from the player in the key's
    direction.  No key touches the enemies, the score, the flag or the
    size. *)
Theorem X12_keys_keep_the_player_on_the_grid :
  forall (c : ascii) (g : Backup.Game),
    Backup.in_grid (Backup.width g) (Backup.height g) (Backup.player g) ->
    let g' := Backup.handle_char c g in
    let p := Backup.player g in
    let p' := Backup.player g' in
    Backup.in_grid (Backup.width g) (Backup.height g) p'
    /\ Z.abs (Backup.x p' - Backup.x p) + Z.abs (Backup.y p' - Backup.y p) <= 1
    /\ Backup.char p' = Backup.char p
    /\ (~ In c ["w"; "s"; "a"; "d"; "i"; "k"; "j"; "l"]%char -> g' = g)
    /\ (c = "w"%char -> Backup.y p = 0 -> g' = g)
    /\ (c = "s"%char -> Backup.y p = Backup.height g - 1 -> g' = g)
    /\ (c = "a"%char -> Backup.x p = 0 -> g' = g)
    /\ (c = "d"%char -> Backup.x p = Backup.width g - 1 -> g' = g)
    /\ (In c ["w"; "s"; "a"; "d"]%char -> Backup.bullets g' = Backup.bullets g)
    /\ (In c ["i"; "k"; "j"; "l"]%char ->
        p' = p
        /\ exists b, Backup.bullets g' = Backup.bullets g ++ [b]
             /\ Backup.x b = Backup.x p + Backup.dx b
             /\ Backup.y b = Backup.y p + Backup.dy b
             /\ Z.abs (Backup.dx b) + Z.abs (Backup.dy b) = 1)
    /\ Backup.width g' = Backup.width g /\ Backup.height g' = Backup.height g
    /\ Backup.enemies g' = Backup.enemies g
    /\ Backup.score g' = Backup.score g
    /\ Backup.game_over g' = Backup.game_over g.
Proof.
  intros c g Hp g' p p'.
  pose proof (handle_char_keeps c g) as (K1 & K2 & K3 & K4 & K5 & _).
  split; [exact (handle_char_inside c g Hp)|].
  split.
  { unfold p', g', p, Backup.handle_char.
    repeat match goal with
           | |- context [if ?b then _ else _] => destruct b
           end;
      cbn [Backup.player Backup.set_player Backup.set_xy Backup.shoot
           Backup.set_bullets Backup.x Backup.y]; lia. }
  split.
  { unfold p', g', p, Backup.handle_char.
    repeat match goal with
           | |- context [if ?b then _ else _] => destruct b
           end; reflexivity. }
  split.
  { intro N. unfold g', Backup.handle_char.
    repeat match goal with
           | |- context [Ascii.eqb c ?k] =>
               let E := fresh "E" in
               destruct (Ascii.eqb c k) eqn:E;
                 [apply Ascii.eqb_eq in E; exfalso; apply N; subst c;
                  cbn [In]; tauto | clear E]
           end.
    reflexivity. }
  split.
  { intros -> Hy. unfold g', Backup.handle_char. fold p. rewrite Hy.
    reflexivity. }
  split.
  { intros -> Hy. unfold g', Backup.handle_char. fold p. rewrite Hy.
    rewrite Z.ltb_irrefl. reflexivity. }
  split.
  { intros -> Hx. unfold g', Backup.handle_char. fold p. rewrite Hx.
    reflexivity. }
  split.
  { intros -> Hx. unfold g', Backup.handle_char. fold p. rewrite Hx.
    rewrite Z.ltb_irrefl. reflexivity. }
  split.
  { intros Hc. destruct (handle_char_shots c g) as [E | (ddx & ddy & Hk & _)];
      [exact E|].
    exfalso. cbn [In] in Hc, Hk.
    repeat match goal with
           | H : _ \/ _ |- _ => destruct H
           | H : False |- _ => destruct H
           | H : (_, _) = (_, _) |- _ => injection H as ? ? ?
           end; subst; discriminate. }
  split.
  { intros Hc. unfold p', g', p. cbn [In] in Hc.
    repeat match goal with
           | H : _ \/ _ |- _ => destruct H
           | H : False |- _ => destruct H
           end; subst c; (split; [reflexivity|]);
      eexists; (split; [reflexivity|]);
      cbn [Backup.x Backup.y Backup.dx Backup.dy Backup.set_char]; lia. }
  auto.
Qed.

(** X12 on the state with the player on the top row: the key [w] changes
    nothing there. *)
Lemma X12_w_on_the_top_row :
  Backup.handle_char "w" Examples.at_top_edge = Examples.at_top_edge.
Proof.
  assert (H : Backup.in_grid (Backup.width Examples.at_top_edge)
                (Backup.height Examples.at_top_edge)
                (Backup.player Examples.at_top_edge)).
  { unfold Backup.in_grid. cbn. lia. }
  destruct (X12_keys_keep_the_player_on_the_grid "w" Examples.at_top_edge H)
    as (_ & _ & _ & _ & W & _).
  apply W; reflexivity.
Defined.

(** ** [backup.py]: what a frame keeps *)

Section BackupFrames.

Import Backup.

Lemma frame_stages inp g g' :
  frame inp g = Some g' ->
  exists g3 g4,
    move_enemies (spawn_enemy (spawn_time inp) (side inp) (randint inp)
                    (keyed inp g)) = Some g3
    /\ update_bullets g3 = Some g4
    /\ g' = set_last_update_time g4 (current_time inp).
Proof.
  unfold frame. cbv zeta.
  change (match key inp with Some c => handle_char c g | None => g end)
    with (keyed inp g).
  destruct (move_enemies _) as [g3|] eqn:M; [|discriminate]. cbn [Py.bind].
  destruct (update_bullets g3) as [g4|] eqn:U; [|discriminate]. cbn [Py.bind].
  destruct (draw g4); [|discriminate]. cbn [Py.bind].
  intro E. injection E as <-. exists g3, g4. auto.
Qed.

Lemma move_enemy_keeps p e e' :
  move_enemy p e = Some e' ->
  char e' = char e /\ dx e' = dx e /\ dy e' = dy e /\ is_enemy e' = is_enemy e.
Proof.
  unfold move_enemy. destruct (negb _).
  - destruct (rounded (x p - x e) _); [|discriminate].
    destruct (rounded (y p - y e) _); [|discriminate].
    cbn [Py.bind]. intro E. injection E as <-. auto.
  - intro E. injection E as <-. auto.
Qed.

Lemma move_enemies_loop_keeps p : forall es over r,
  move_enemies_loop p es over = Some r ->
  List.length (fst r) = List.length es
  /\ (Forall is_foe es -> Forall is_foe (fst r)).
Proof.
  induction es as [|e es IH]; intros over r; cbn [move_enemies_loop].
  - intro E. injection E as <-. auto.
  - destruct (move_enemy p e) as [e'|] eqn:M; [|discriminate]. cbn [Py.bind].
    destruct (move_enemies_loop p es _) as [r'|] eqn:L; [|discriminate].
    cbn [Py.bind]. intro E. injection E as <-. cbn [fst List.length].
    destruct (IH _ _ L) as [I1 I2]. split; [now rewrite I1|].
    intro F. inversion F as [|? ? (F1 & F2 & F3 & F4) Fr]; subst.
    destruct (move_enemy_keeps _ _ _ M) as (C1 & C2 & C3 & C4).
    constructor; [|auto]. unfold is_foe. now rewrite C1, C2, C3, C4.
Qed.

Lemma move_enemies_keeps g g' :
  move_enemies g = Some g' ->
  width g' = width g /\ height g' = height g /\ player g' = player g
  /\ bullets g' = bullets g /\ score g' = score g
  /\ last_spawn_time g' = last_spawn_time g
  /\ last_update_time g' = last_update_time g
  /\ List.length (enemies g') = List.length (enemies g)
  /\ (Forall is_foe (enemies g) -> Forall is_foe (enemies g')).
Proof.
  unfold move_enemies.
  destruct (move_enemies_loop _ _ _) as [r|] eqn:L; [|discriminate].
  cbn [Py.bind]. intro E. injection E as <-.
  destruct (move_enemies_loop_keeps _ _ _ _ L) as [L1 L2].
  cbn. repeat match goal with |- _ /\ _ => split end; auto.
Qed.

Lemma advance_shot b : is_shot b -> is_shot (advance b).
Proof. unfold is_shot, advance. cbn. auto. Qed.

Lemma update_bullets_keeps g g' :
  update_bullets g = Some g' ->
  width g' = width g /\ height g' = height g /\ player g' = player g
  /\ game_over g' = game_over g
  /\ last_spawn_time g' = last_spawn_time g
  /\ last_update_time g' = last_update_time g
  /\ (List.length (enemies g') <= List.length (enemies g))%nat
  /\ (List.length (bullets g') <= List.length (bullets g))%nat
  /\ score g' + 10 * Z.of_nat (List.length (enemies g'))
     = score g + 10 * Z.of_nat (List.length (enemies g))
  /\ (Forall is_foe (enemies g) -> Forall is_foe (enemies g'))
  /\ (Forall is_shot (bullets g) -> Forall is_shot (bullets g')).
Proof.
  rewrite update_bullets_sweep. intro E. injection E as <-.
  pose proof (sweep_enemies (width g) (height g) (bullets g) [] (enemies g)
                (score g)) as S1.
  pose proof (sweep_bullets (width g) (height g) (bullets g) [] (enemies g)
                (score g)) as S2.
  pose proof (sweep_score_up (width g) (height g) (bullets g) [] (enemies g)
                (score g)) as S3.
  cbn [swept width height player game_over last_spawn_time last_update_time
       enemies bullets score].
  cbn [List.length Nat.add] in S2.
  repeat match goal with |- _ /\ _ => split end; auto; try lia.
  - intro F. rewrite Forall_forall in *. intros e He.
    apply F. eapply sweep_enemies_In. exact He.
  - intro F. rewrite Forall_forall in *. intros b Hb.
    apply sweep_bullets_In in Hb. destruct Hb as [[]|Hb].
    apply in_map_iff in Hb. destruct Hb as (b0 & <- & Hb0).
    apply advance_shot. now apply F.
Qed.

Lemma keyed_keeps inp g :
  width (keyed inp g) = width g /\ height (keyed inp g) = height g
  /\ enemies (keyed inp g) = enemies g
  /\ score (keyed inp g) = score g
  /\ game_over (keyed inp g) = game_over g
  /\ last_spawn_time (keyed inp g) = last_spawn_time g
  /\ last_update_time (keyed inp g) = last_update_time g.
Proof.
  unfold keyed. destruct (key inp); [apply handle_char_keeps|].
  repeat split.
Qed.

Lemma keyed_typed inp g :
  is_player (player g) -> Forall is_shot (bullets g) ->
  is_player (player (keyed inp g)) /\ Forall is_shot (bullets (keyed inp g))
  /\ (List.length (bullets (keyed inp g)) <= S (List.length (bullets g)))%nat.
Proof.
  intros Hp Hb. unfold keyed. destruct (key inp) as [c|]; [|auto].
  split.
  { unfold handle_char, is_player in *.
    repeat match goal with
           | |- context [if ?b then _ else _] => destruct b
           end; exact Hp. }
  destruct (handle_char_shots c g) as [-> | (ddx & ddy & Hk & _ & ->)];
    [auto|].
  split; [|rewrite length_app; cbn [List.length]; lia].
  apply Forall_app. split; [exact Hb|]. constructor; [|constructor].
  cbn [In] in Hk.
  repeat match goal with
         | H : _ \/ _ |- _ => destruct H
         | H : False |- _ => destruct H
         | H : (_, _) = (_, _) |- _ => injection H as ? ? ?
         end; subst; unfold is_shot; cbn; tauto.
Qed.

Lemma spawn_enemy_keeps now sd r g :
  let g' := spawn_enemy now sd r g in
  width g' = width g /\ height g' = height g /\ player g' = player g
  /\ bullets g' = bullets g /\ score g' = score g
  /\ game_over g' = game_over g
  /\ last_update_time g' = last_update_time g
  /\ last_spawn_time g'
     = (if spawn_due now g then now else last_spawn_time g)
  /\ List.length (enemies g')
     = (List.length (enemies g) + (if spawn_due now g then 1 else 0))%nat
  /\ (Forall is_foe (enemies g) -> Forall is_foe (enemies g')).
Proof.
  unfold spawn_enemy, spawn_due.
  destruct (Qle_bool 1 (now - last_spawn_time g)).
  - destruct sd; cbn; rewrite length_app; cbn [List.length];
      repeat match goal with |- _ /\ _ => split end; auto;
      intro F; apply Forall_app; (split; [exact F|]);
      constructor; try constructor; unfold is_foe; cbn; auto.
  - cbn. repeat match goal with |- _ /\ _ => split end; auto.
Qed.

Lemma frame_typed inp g g' : typed g -> frame inp g = Some g' -> typed g'.
Proof.
  intros (Hp & He & Hb & k & Hk & Hs) F.
  destruct (frame_stages _ _ _ F) as (g3 & g4 & M & U & ->).
  destruct (keyed_typed inp g Hp Hb) as (Hp1 & Hb1 & _).
  destruct (keyed_keeps inp g) as (_ & _ & E1 & S1 & _).
  pose proof (spawn_enemy_keeps (spawn_time inp) (side inp) (randint inp)
                (keyed inp g)) as K2.
  cbv zeta in K2. destruct K2 as (_ & _ & P2 & B2 & S2 & _ & _ & _ & _ & F2).
  destruct (move_enemies_keeps _ _ M)
    as (_ & _ & P3 & B3 & S3 & _ & _ & L3 & F3).
  destruct (update_bullets_keeps _ _ U)
    as (_ & _ & P4 & _ & _ & _ & L4 & _ & S4 & F4 & G4).
  unfold typed. cbn [player enemies bullets score set_last_update_time].
  split; [now rewrite P4, P3, P2|].
  split; [apply F4, F3, F2; now rewrite E1|].
  split; [apply G4; now rewrite B3, B2|].
  exists (k + (Z.of_nat (List.length (enemies g3))
               - Z.of_nat (List.length (enemies g4)))).
  split; [lia|]. rewrite S3, S2, S1, Hs in S4. lia.
Qed.

Lemma reachable_typed g : reachable g -> typed g.
Proof.
  induction 1 as [t1 t2 | g inp g' _ IH _ _ _ _ Hf].
  - unfold typed, init, is_player. cbn.
    repeat match goal with |- _ /\ _ => split end; auto.
    exists 0. split; [lia | reflexivity].
  - eapply frame_typed; eauto.
Qed.


End BackupFrames.

(** X13.  In [backup.py], at the top of every round of the loop of [main]
    the player is the [@] of [Game.__init__]; every enemy carries the glyph
    [E], the enemy mark and no direction; every bullet carries one of the
    four unit directions of the shooting keys and the arrow of that
    direction, which its flight never changes; and the score is a multiple
    of 10 that is not negative. *)
Theorem X13_entities_keep_their_kind :
  forall g : Backup.Game, Backup.reachable g -> Backup.typed g.
Proof. exact reachable_typed. Qed.

(** X13 on the state after the 42 frames of the skirmish. *)
Lemma X13_skirmish_kinds : Backup.typed Examples.skirmish.
Proof.
  exact (X13_entities_keep_their_kind Examples.skirmish skirmish_reachable).
Defined.



(** ** [backup.py]: the grid that [draw] prints *)

Section BackupDrawing.

Import Backup.

(** The grid of [draw] is a list of rows, as the map of [main.py] is, and
    [grid[y][x] = c] is the same assignment in both. *)
Lemma empty_grid_shaped w h : Main.shaped w h (empty_grid w h).
Proof.
  unfold empty_grid. split; [apply repeat_length|].
  apply Forall_forall. intros row Hr. apply repeat_spec in Hr. subst row.
  apply repeat_length.
Qed.

Lemma empty_grid_cell w h cy cx :
  0 <= cy < h -> 0 <= cx < w -> cell (empty_grid w h) cy cx = Some " ".
Proof.
  intros Hy Hx. change (cell (empty_grid w h) cy cx)
    with (Main.tile (empty_grid w h) cy cx).
  rewrite (tile_in_range w h) by (auto using empty_grid_shaped).
  unfold empty_grid. rewrite nth_error_repeat by lia.
  apply nth_error_repeat. lia.
Qed.

Lemma put_spec w h grid e :
  Main.shaped w h grid -> in_grid w h e ->
  exists grid',
    put grid e = Some grid'
    /\ Main.shaped w h grid'
    /\ forall cy cx, 0 <= cy < h -> 0 <= cx < w ->
         cell grid' cy cx
         = if at_cell cy cx e then Some (char e) else cell grid cy cx.
Proof.
  intros Hs [Hx Hy].
  destruct (set_tile_spec w h grid (y e) (x e) (char e) Hs Hy Hx)
    as (grid' & E & Hs' & Hc).
  exists grid'. split; [exact E|]. split; [exact Hs'|].
  intros cy cx Cy Cx. unfold at_cell.
  rewrite (Z.eqb_sym (y e)), (Z.eqb_sym (x e)). exact (Hc cy cx Cy Cx).
Qed.

Lemma put_all_spec w h : forall es grid,
  Main.shaped w h grid -> Forall (in_grid w h) es ->
  exists grid',
    put_all grid es = Some grid'
    /\ Main.shaped w h grid'
    /\ forall cy cx, 0 <= cy < h -> 0 <= cx < w ->
         cell grid' cy cx
         = match find (at_cell cy cx) (rev es) with
           | Some e => Some (char e)
           | None => cell grid cy cx
           end.
Proof.
  induction es as [|e es IH]; intros grid Hs Hes; cbn [put_all].
  - exists grid. auto.
  - inversion Hes as [|? ? He Hrest]; subst.
    destruct (put_spec w h grid e Hs He) as (grid1 & -> & Hs1 & Hc1).
    cbn [Py.bind].
    destruct (IH grid1 Hs1 Hrest) as (grid' & -> & Hs' & Hc').
    exists grid'. split; [reflexivity|]. split; [exact Hs'|].
    intros cy cx Cy Cx. rewrite (Hc' cy cx Cy Cx).
    cbn [rev]. rewrite find_app.
    destruct (find (at_cell cy cx) (rev es)); [reflexivity|].
    rewrite (Hc1 cy cx Cy Cx). cbn [find].
    now destruct (at_cell cy cx e).
Qed.

Lemma draw_spec g :
  in_grid (width g) (height g) (player g) ->
  Forall (in_grid (width g) (height g)) (enemies g) ->
  Forall (in_grid (width g) (height g)) (bullets g) ->
  exists grid,
    draw g = Some grid
    /\ Main.shaped (width g) (height g) grid
    /\ forall cy cx, 0 <= cy < height g -> 0 <= cx < width g ->
         cell grid cy cx = Some (glyph_at g cy cx).
Proof.
  intros Hp He Hb. unfold draw.
  destruct (put_all_spec _ _ (bullets g) _
              (empty_grid_shaped (width g) (height g)) Hb)
    as (g1 & -> & S1 & C1).
  cbn [Py.bind].
  destruct (put_all_spec _ _ (enemies g) g1 S1 He) as (g2 & -> & S2 & C2).
  cbn [Py.bind].
  destruct (put_spec _ _ g2 (player g) S2 Hp) as (g3 & -> & S3 & C3).
  exists g3. split; [reflexivity|]. split; [exact S3|].
  intros cy cx Cy Cx. rewrite (C3 cy cx Cy Cx). unfold glyph_at.
  destruct (at_cell cy cx (player g)); [reflexivity|].
  rewrite (C2 cy cx Cy Cx).
  destruct (find (at_cell cy cx) (rev (enemies g))); [reflexivity|].
  rewrite (C1 cy cx Cy Cx).
  destruct (find (at_cell cy cx) (rev (bullets g))); [reflexivity|].
  now apply empty_grid_cell.
Qed.

Lemma frame_returns inp g :
  on_grid g -> randint_ok g inp -> exists g', frame inp g = Some g'.
Proof.
  intros (Hw & Hh & Hp & Hes & _) Hr. unfold frame. cbv zeta.
  change (match key inp with Some c => handle_char c g | None => g end)
    with (keyed inp g).
  destruct (keyed_keeps inp g) as (Hw1 & Hh1 & He1 & _).
  assert (Hp1 : in_grid 40 20 (player (keyed inp g))).
  { unfold keyed. destruct (key inp) as [c|]; [|exact Hp].
    rewrite <- Hw, <- Hh in *. now apply handle_char_inside. }
  rewrite Hw in Hw1. rewrite Hh in Hh1.
  assert (Hr1 : match side inp with
                | top | bottom => 0 <= randint inp <= width (keyed inp g) - 1
                | left | right => 0 <= randint inp <= height (keyed inp g) - 1
                end).
  { unfold randint_ok in Hr. rewrite Hw1, Hh1. rewrite Hw, Hh in Hr. exact Hr. }
  rewrite <- He1 in Hes.
  destruct (spawn_enemy_on_grid (spawn_time inp) (side inp) (randint inp)
              (keyed inp g) Hw1 Hh1 Hr1 Hes) as (Hw2 & Hh2 & Hp2 & Hes2).
  set (g2 := spawn_enemy _ _ _ (keyed inp g)) in *.
  unfold move_enemies. rewrite <- Hp2 in Hp1.
  destruct (move_enemies_loop_in_grid (player g2) (enemies g2) (game_over g2)
              Hp1 Hes2) as (r & -> & Hr2).
  cbn [Py.bind].
  set (g3 := set_game_over (set_enemies g2 (fst r)) (snd r)).
  destruct (update_bullets_on_grid g3) as (g4 & -> & Hw4 & Hh4 & Hp4 & Hb4 & He4).
  cbn [Py.bind].
  destruct (draw_spec g4) as (grid & -> & _).
  - rewrite Hw4, Hh4, Hp4. unfold g3. cbn. now rewrite Hw2, Hh2.
  - rewrite Hw4, Hh4. unfold g3. cbn [width height set_game_over set_enemies].
    rewrite Hw2, Hh2. rewrite Forall_forall. intros e He. apply He4 in He.
    unfold g3 in He. cbn in He. rewrite Forall_forall in Hr2. now apply Hr2.
  - now rewrite Hw4, Hh4.
  - cbn [Py.bind]. eauto.
Qed.

End BackupDrawing.

(** X15.  In [backup.py], on a state whose player, enemies and bullets are
    all on the grid, whatever its size, [draw] returns a grid of [height]
    rows of [width] cells, and each cell holds the player's glyph on the
    player's cell, else the glyph of the last enemy of the list standing on
    it, else the glyph of the last bullet on it, else a blank. *)
Theorem X15_draw_layers :
  forall g : Backup.Game,
    Backup.in_grid (Backup.width g) (Backup.height g) (Backup.player g) ->
    Forall (Backup.in_grid (Backup.width g) (Backup.height g)) (Backup.enemies g) ->
    Forall (Backup.in_grid (Backup.width g) (Backup.height g)) (Backup.bullets g) ->
    exists grid,
      Backup.draw g = Some grid
      /\ List.length grid = Z.to_nat (Backup.height g)
      /\ Forall (fun row => List.length row = Z.to_nat (Backup.width g)) grid
      /\ forall cy cx, 0 <= cy < Backup.height g -> 0 <= cx < Backup.width g ->
           Backup.cell grid cy cx = Some (Backup.glyph_at g cy cx).
Proof.
  intros g Hp He Hb.
  destruct (draw_spec g Hp He Hb) as (grid & D & [S1 S2] & C).
  exists grid. auto.
Qed.

(** X15 on the state after the 42 frames of the skirmish: the enemy at
    column 8 of row 3 and the bullet at column 23 of row 10. *)
Lemma X15_skirmish_grid :
  exists grid,
    Backup.draw Examples.skirmish = Some grid
    /\ Backup.cell grid 3 8 = Some "E"
    /\ Backup.cell grid 10 23 = Some "→"
    /\ Backup.cell grid 10 20 = Some "@"
    /\ Backup.cell grid 0 0 = Some " ".
Proof.
  destruct (reachable_on_grid _ skirmish_reachable) as (_ & _ & Hp & He & Hb).
  destruct (X15_draw_layers Examples.skirmish Hp He Hb)
    as (grid & D & _ & _ & C).
  exists grid. split; [exact D|].
  repeat split; (rewrite C; [reflexivity | cbn; lia | cbn; lia]).
Defined.

(** X16.  In [backup.py], which due frames raise.  On the branch for
    [os.name != 'nt'] every due frame raises at its key poll: the poll calls
    [select.select], and the module never imports [select].  On the Windows
    branch, from a state the loop reaches and with the draw of
    [random.randint] within its bounds: with no key waiting the frame goes
    on to the next state; a byte of 128 or more makes [get_key] raise in
    [decode]; a byte below 128 that is q or Q leaves the loop; and any other
    byte below 128 is handled as its lower-case character and the frame goes
    on to the next state.  When the frame goes on, the key handling,
    [spawn_enemy], [move_enemies], [update_bullets] and the grid assignments
    of [draw] have all returned, although a shot fired at an edge puts a
    bullet off the grid: the bullet update of the same frame removes it
    before [draw] indexes the grid. *)
Theorem X16_which_frames_raise :
  forall (g : Backup.Game) (inp : Backup.FrameInput),
    Backup.reachable g ->
    Backup.randint_ok g inp ->
    (forall waiting, Backup.due_frame Backup.posix waiting inp g = Backup.Raised)
    /\ (exists g',
          Backup.due_frame Backup.nt None inp g = Backup.Next g'
          /\ Backup.frame (Backup.with_key inp None) g = Some g')
    /\ (forall b, (128 <= N_of_ascii b)%N ->
          Backup.due_frame Backup.nt (Some b) inp g = Backup.Raised)
    /\ (forall b, (N_of_ascii b < 128)%N ->
          Py.lower b = "q"%char ->
          Backup.due_frame Backup.nt (Some b) inp g = Backup.Quit)
    /\ (forall b, (N_of_ascii b < 128)%N ->
          Py.lower b <> "q"%char ->
          exists g',
            Backup.due_frame Backup.nt (Some b) inp g = Backup.Next g'
            /\ Backup.frame (Backup.with_key inp (Some (Py.lower b))) g
               = Some g').
Proof.
  intros g inp Hg Hr.
  assert (F : forall k, exists g',
            Backup.frame (Backup.with_key inp k) g = Some g').
  { intro k. apply frame_returns; [exact (reachable_on_grid g Hg) | exact Hr]. }
  split; [reflexivity|]. split.
  { destruct (F None) as [g' E]. exists g'. split; [|exact E].
    cbn [Backup.due_frame Backup.get_key Backup.is_quit]. now rewrite E. }
  split.
  { intros b Hb. cbn [Backup.due_frame Backup.get_key]. unfold Py.decode_utf8.
    replace (N_of_ascii b <? 128)%N with false; [reflexivity|].
    symmetry. apply N.ltb_ge. exact Hb. }
  split.
  { intros b Hb Hq. cbn [Backup.due_frame Backup.get_key].
    unfold Py.decode_utf8. rewrite (proj2 (N.ltb_lt _ _) Hb).
    cbn [Py.bind Backup.is_quit]. rewrite Hq. reflexivity. }
  intros b Hb Hq. destruct (F (Some (Py.lower b))) as [g' E].
  exists g'. split; [|exact E].
  cbn [Backup.due_frame Backup.get_key]. unfold Py.decode_utf8.
  rewrite (proj2 (N.ltb_lt _ _) Hb). cbn [Py.bind Backup.is_quit].
  destruct (Ascii.eqb (Py.lower b) "q") eqn:Q;
    [apply Ascii.eqb_eq in Q; contradiction|].
  now rewrite E.
Qed.

(** X16 on the state with the player on the top row: the key I, which is
    handled as [i] and fires a bullet off the grid, and the byte 224 that
    starts an arrow key. *)
Lemma X16_a_shot_off_the_top :
  (exists g',
     Backup.due_frame Backup.nt (Some "I"%char)
       (Backup.mkFrameInput None (55 # 100) (55 # 100) Backup.top 0)
       Examples.at_top_edge = Backup.Next g'
     /\ Backup.frame (Backup.mkFrameInput (Some "i"%char) (55 # 100) (55 # 100)
                        Backup.top 0) Examples.at_top_edge = Some g')
  /\ Backup.due_frame Backup.nt (Some (ascii_of_N 224))
       (Backup.mkFrameInput None (55 # 100) (55 # 100) Backup.top 0)
       Examples.at_top_edge = Backup.Raised.
Proof.
  assert (R : Backup.randint_ok Examples.at_top_edge
                (Backup.mkFrameInput None (55 # 100) (55 # 100) Backup.top 0)).
  { unfold Backup.randint_ok. cbn. lia. }
  destruct (X16_which_frames_raise Examples.at_top_edge
              (Backup.mkFrameInput None (55 # 100) (55 # 100) Backup.top 0)
              at_top_edge_reachable R) as (_ & _ & A & _ & B).
  split.
  - apply (B "I"%char); [reflexivity | discriminate].
  - apply A. discriminate.
Defined.

(** ** [main.py]: the whole screen of [render] *)

Section RenderScreen.

Import Main.

Lemma addch_some win cy cx ch attr scr scr1 :
  addch win cy cx ch attr scr = Some scr1 -> scr1 = (cy, cx, (ch, attr)) :: scr.
Proof.
  unfold addch. destruct (_ && _); [|discriminate]. intro E. now injection E.
Qed.

Lemma render_row_shown win m ry cy cx : forall xs scr scr',
  render_row win m ry xs scr = Some scr' ->
  ((ry =? cy) && existsb (fun k => Z.of_nat k =? cx) xs = true ->
   shown scr' cy cx = tile_glyph m cy cx /\ tile_glyph m cy cx <> None)
  /\ ((ry =? cy) && existsb (fun k => Z.of_nat k =? cx) xs = false ->
      shown scr' cy cx = shown scr cy cx).
Proof.
  induction xs as [|x0 rest IH]; intros scr scr'; cbn [render_row existsb].
  - intro E. injection E as <-. rewrite andb_false_r.
    split; [discriminate | reflexivity].
  - destruct (tile m ry (Z.of_nat x0)) as [c|] eqn:T; [|discriminate].
    cbn [Py.bind].
    destruct (addch win ry _ c _ scr) as [scr1|] eqn:A; [|discriminate].
    apply addch_some in A. subst scr1.
    cbn [Py.bind]. intro E. destruct (IH _ _ E) as [I1 I2].
    destruct (ry =? cy) eqn:Ey; cbn [andb] in *.
    + destruct (existsb _ rest) eqn:Er.
      * rewrite orb_true_r. split; [intros _; now apply I1 | discriminate].
      * rewrite orb_false_r. rewrite (I2 eq_refl). cbn [shown].
        rewrite Ey. cbn [andb].
        destruct (Z.of_nat x0 =? cx) eqn:Ex.
        -- apply Z.eqb_eq in Ey, Ex. subst cy cx. unfold tile_glyph.
           rewrite T. split; [intros _; split; [reflexivity | discriminate]
                             | discriminate].
        -- split; [discriminate | reflexivity].
    + split; [discriminate|]. intros _. rewrite (I2 eq_refl). cbn [shown].
      rewrite Ey. reflexivity.
Qed.

Lemma render_map_shown win m w cy cx : forall ys scr scr',
  render_map win m w ys scr = Some scr' ->
  (existsb (fun k => Z.of_nat k =? cy) ys
   && existsb (fun k => Z.of_nat k =? cx) (seq 0 (Z.to_nat w)) = true ->
   shown scr' cy cx = tile_glyph m cy cx /\ tile_glyph m cy cx <> None)
  /\ (existsb (fun k => Z.of_nat k =? cy) ys
      && existsb (fun k => Z.of_nat k =? cx) (seq 0 (Z.to_nat w)) = false ->
      shown scr' cy cx = shown scr cy cx).
Proof.
  induction ys as [|y0 rest IH]; intros scr scr'; cbn [render_map existsb].
  - intro E. injection E as <-. cbn [andb].
    split; [discriminate | reflexivity].
  - destruct (render_row win m (Z.of_nat y0) _ scr) as [scr1|] eqn:R;
      [|discriminate].
    cbn [Py.bind]. intro E. destruct (IH _ _ E) as [I1 I2].
    destruct (render_row_shown win m (Z.of_nat y0) cy cx _ _ _ R) as [R1 R2].
    destruct (existsb _ (seq 0 (Z.to_nat w))) eqn:Vx.
    + rewrite andb_true_r in *.
      destruct (existsb _ rest) eqn:Vy.
      * rewrite orb_true_r. split; [intros _; now apply I1 | discriminate].
      * rewrite orb_false_r. rewrite (I2 eq_refl).
        destruct (Z.of_nat y0 =? cy).
        -- split; [intros _; now apply R1 | discriminate].
        -- split; [discriminate | intros _; now apply R2].
    + rewrite andb_false_r in *. split; [discriminate|]. intros _.
      rewrite (I2 eq_refl). now apply R2.
Qed.

Lemma existsb_seq n c :
  0 <= c < n -> existsb (fun k => Z.of_nat k =? c) (seq 0 (Z.to_nat n)) = true.
Proof.
  intro H. apply existsb_exists. exists (Z.to_nat c). split.
  - apply in_seq. lia.
  - apply Z.eqb_eq. lia.
Qed.

Lemma addstr_left win row attr cx : forall s col scr scr',
  addstr win row col s attr scr = Some scr' -> cx < col ->
  shown scr' row cx = shown scr row cx.
Proof.
  induction s as [|a rest IH]; intros col scr scr'; cbn [addstr].
  - intro E. now injection E as <-.
  - destruct (addch win row col _ attr scr) as [scr1|] eqn:A; [|discriminate].
    apply addch_some in A. subst scr1. cbn [Py.bind].
    intros E L. rewrite (IH _ _ _ E) by lia. cbn [shown].
    replace (col =? cx) with false; [now rewrite andb_false_r|].
    symmetry. apply Z.eqb_neq. lia.
Qed.

Lemma addstr_shown win row attr : forall s col scr scr',
  addstr win row col s attr scr = Some scr' ->
  forall k c, String.get k s = Some c ->
    shown scr' row (col + Z.of_nat k) = Some (String c EmptyString, attr).
Proof.
  induction s as [|a rest IH]; intros col scr scr'; cbn [addstr].
  - intros _ k c G. destruct k; discriminate G.
  - destruct (addch win row col _ attr scr) as [scr1|] eqn:A; [|discriminate].
    cbn [Py.bind]. intros E k c G. destruct k as [|k].
    + cbn in G. injection G as <-. rewrite Z.add_0_r.
      rewrite (addstr_left _ _ _ col _ _ _ _ E) by lia.
      apply addch_some in A. subst scr1. cbn [shown].
      now rewrite !Z.eqb_refl.
    + cbn in G. replace (col + Z.of_nat (S k)) with (col + 1 + Z.of_nat k) by lia.
      exact (IH _ _ _ E k c G).
Qed.

Lemma render_visible win g scr :
  render win g = Some scr ->
  forall cy cx, 0 <= cy < height g -> 0 <= cx < width g ->
    shown scr cy cx = visible g cy cx /\ visible g cy cx <> None.
Proof.
  rewrite render_status.
  destruct (render_map _ _ _ _ _) as [scr0|] eqn:M; [|discriminate].
  cbn [Py.bind].
  destruct (addch win _ _ _ _ scr0) as [scr1|] eqn:A; [|discriminate].
  cbn [Py.bind].
  destruct (render_enemies win _ scr1) as [scr2|] eqn:E2; [|discriminate].
  cbn [Py.bind].
  destruct (render_projectiles win _ scr2) as [scr3|] eqn:E3; [|discriminate].
  cbn [Py.bind]. intros E4 cy cx Cy Cx.
  rewrite (addstr_other_row _ _ _ cy cx _ _ _ _ E4) by lia.
  rewrite (render_projectiles_shown _ _ _ _ _ _ E3).
  rewrite (render_enemies_shown _ _ _ _ _ _ E2).
  unfold visible.
  destruct (find _ (rev (projectiles g))); [split; [reflexivity | discriminate]|].
  destruct (find _ (rev (enemies g))); [split; [reflexivity | discriminate]|].
  apply addch_some in A. subst scr1. cbn [shown].
  destruct ((Player.y (player g) =? cy) && (Player.x (player g) =? cx));
    [split; [reflexivity | discriminate]|].
  destruct (render_map_shown _ _ _ cy cx _ _ _ M) as [V _].
  apply V. now rewrite !existsb_seq.
Qed.

End RenderScreen.

(** X17.  In [main.py], on a terminal with more columns than the status
    line has characters (so that curses writes the line on one row),
    whenever [render] returns a screen, every cell of the map shows the
    last projectile drawn on it, else the last enemy drawn on it, else the
    player if it stands there, else the tile of the map, a wall in the wall
    colour and any other tile in the floor colour; and the row below the
    map shows the status line from its first column on, over whatever was
    drawn there. *)
Theorem X17_what_the_screen_shows :
  forall (win : Z * Z) (g : Main.Game) (scr : Main.Screen),
    Z.of_nat (String.length (Main.status g)) < snd win ->
    Main.render win g = Some scr ->
    (forall cy cx, 0 <= cy < Main.height g -> 0 <= cx < Main.width g ->
       Main.shown scr cy cx = Main.visible g cy cx
       /\ Main.visible g cy cx <> None)
    /\ (forall k c, String.get k (Main.status g) = Some c ->
          Main.shown scr (Main.height g) (Z.of_nat k)
          = Some (String c EmptyString, Main.COLOR_STATUS)).
Proof.
  intros win g scr _ R. split; [exact (render_visible win g scr R)|].
  intros k c G. rewrite render_status in R.
  destruct (Main.render_map _ _ _ _ _) as [scr0|]; [|discriminate].
  cbn [Py.bind] in R.
  destruct (Main.addch win _ _ _ _ scr0) as [scr1|]; [|discriminate].
  cbn [Py.bind] in R.
  destruct (Main.render_enemies win _ scr1) as [scr2|]; [|discriminate].
  cbn [Py.bind] in R.
  destruct (Main.render_projectiles win _ scr2) as [scr3|]; [|discriminate].
  cbn [Py.bind] in R.
  exact (addstr_shown _ _ _ _ _ _ _ R k c G).
Qed.

(** X17 on the richer game after three rounds, on a terminal of 24 rows and
    80 columns: the corner of the map shows a wall and the status line
    starts with an E. *)
Lemma X17_fallen_screen :
  exists scr,
    Main.render (24, 80) Examples.fallen = Some scr
    /\ Main.shown scr 0 0 = Some ("#", Main.COLOR_WALL)
    /\ Main.shown scr 20 0 = Some ("E", Main.COLOR_STATUS).
Proof.
  destruct (Main.render (24, 80) Examples.fallen) as [scr|] eqn:R;
    [|vm_compute in R; discriminate R].
  exists scr. split; [reflexivity|].
  assert (L : Z.of_nat (String.length (Main.status Examples.fallen))
              < snd (24, 80)) by (vm_compute; reflexivity).
  destruct (X17_what_the_screen_shows (24, 80) Examples.fallen scr L R)
    as [V S].
  split.
  - destruct (V 0 0) as [-> _]; [cbn; lia | cbn; lia |].
    vm_compute. reflexivity.
  - exact (S 0%nat "E"%char eq_refl).
Defined.

(** ** [main.py]: the keys *)

Section MainKeys.

Import Main.

Lemma handle_input_char c g :
  (exists ddx ddy, In (c, (ddx, ddy)) shot_keys
     /\ handle_input (Char c) g = Some (player_shoot g ddx ddy))
  \/ (c = "x"%char /\ handle_input (Char c) g = Some (set_game_over g true))
  \/ (~ In c (List.map fst shot_keys) /\ c <> "x"%char
      /\ handle_input (Char c) g = Some g).
Proof.
  cbn [handle_input].
  repeat match goal with
         | |- context [Ascii.eqb c ?k] =>
             let E := fresh "E" in
             destruct (Ascii.eqb c k) eqn:E;
               [apply Ascii.eqb_eq in E; subst c;
                first [ left; do 2 eexists; split; [|reflexivity];
                        cbn [In shot_keys]; tauto
                      | right; left; split; reflexivity ] |]
         end.
  right; right. split; [|split; [|reflexivity]].
  - cbn [List.map fst shot_keys In]. intro H.
    repeat match goal with
           | H : _ \/ _ |- _ => destruct H
           | H : False |- _ => destruct H
           end; subst c; discriminate.
  - intro H. subst c. discriminate.
Qed.

Lemma shot_keys_unit c ddx ddy :
  In (c, (ddx, ddy)) shot_keys ->
  -1 <= ddx <= 1 /\ -1 <= ddy <= 1 /\ (ddx <> 0 \/ ddy <> 0).
Proof.
  cbn [In shot_keys]. intro H.
  repeat match goal with
         | H : _ \/ _ |- _ => destruct H
         | H : False |- _ => destruct H
         | H : (_, _) = (_, _) |- _ => injection H as ? ? ?
         end; subst; lia.
Qed.

End MainKeys.

(** X18.  In [main.py], [handle_input] does nothing when no key is waiting
    or the key is a character other than w, s, a, d, q, e, z, c and x; the
    key x only raises the flag; each of the eight shooting keys calls
    [shoot] from the player's own cell with a direction whose components are
    -1, 0 or 1 and not both 0, and never moves the player; the projectile
    it appends, when there is ammunition, starts on the player's cell, is
    the player's, has speed 2 and carries the key's direction as it is, not
    normalised (a diagonal key gives components of size 1 on both axes);
    and an arrow key adds no projectile, spends no ammunition and leaves
    the flag as it is. *)
Theorem X18_keys_of_the_richer_game :
  forall g : Main.Game,
    Main.handle_input Main.NoKey g = Some g
    /\ (forall c, ~ In c (List.map fst Main.shot_keys) -> c <> "x"%char ->
          Main.handle_input (Main.Char c) g = Some g)
    /\ Main.handle_input (Main.Char "x") g = Some (Main.set_game_over g true)
    /\ (forall c ddx ddy g',
          In (c, (ddx, ddy)) Main.shot_keys ->
          Main.handle_input (Main.Char c) g = Some g' ->
          g' = Main.player_shoot g ddx ddy
          /\ Main.Player.x (Main.player g') = Main.Player.x (Main.player g)
          /\ Main.Player.y (Main.player g') = Main.Player.y (Main.player g)
          /\ Main.game_over g' = Main.game_over g
          /\ (-1 <= ddx <= 1 /\ -1 <= ddy <= 1 /\ (ddx <> 0 \/ ddy <> 0))
          /\ (0 < Main.Player.ammo (Main.player g) ->
              exists p,
                Main.projectiles g' = Main.projectiles g ++ [p]
                /\ Main.Projectile.x p = inject_Z (Main.Player.x (Main.player g))
                /\ Main.Projectile.y p = inject_Z (Main.Player.y (Main.player g))
                /\ Main.Projectile.is_enemy p = false
                /\ Main.Projectile.dx p = inject_Z ddx
                /\ Main.Projectile.dy p = inject_Z ddy
                /\ Main.Projectile.speed p = 2%Q
                /\ Main.Projectile.char p = Main.ARROW_CHAR))
    /\ (forall k g',
          In k [Main.KEY_UP; Main.KEY_DOWN; Main.KEY_LEFT; Main.KEY_RIGHT] ->
          Main.handle_input k g = Some g' ->
          Main.projectiles g' = Main.projectiles g
          /\ Main.Player.ammo (Main.player g') = Main.Player.ammo (Main.player g)
          /\ Main.game_over g' = Main.game_over g).
Proof.
  intro g. split; [reflexivity|]. split.
  { intros c N X.
    destruct (handle_input_char c g)
      as [(ddx & ddy & I & _) | [(-> & _) | (_ & _ & E)]];
      [|now elim X | exact E].
    exfalso. apply N. apply in_map_iff. exists (c, (ddx, ddy)). auto. }
  split; [reflexivity|]. split.
  { intros c ddx ddy g' I E.
    assert (G : g' = Main.player_shoot g ddx ddy).
    { cbn [In Main.shot_keys] in I.
      repeat match goal with
             | H : _ \/ _ |- _ => destruct H
             | H : False |- _ => destruct H
             | H : (_, _) = (_, _) |- _ => injection H as ? ? ?
             end; subst c ddx ddy; cbn in E; now injection E. }
    split; [exact G|]. subst g'.
    pose proof (shot_keys_unit _ _ _ I) as U.
    unfold Main.player_shoot, Main.shoot. cbn [negb].
    destruct (Main.Player.ammo (Main.player g) <=? 0) eqn:A.
    - apply Z.leb_le in A.
      split; [reflexivity|]. split; [reflexivity|]. split; [reflexivity|].
      split; [exact U|]. intro. lia.
    - cbn [Main.player Main.set_player Main.set_projectiles Main.game_over
           Main.projectiles Main.Player.x Main.Player.y Main.Player.set_ammo].
      split; [reflexivity|]. split; [reflexivity|]. split; [reflexivity|].
      split; [exact U|]. intros _. eexists. split; [reflexivity|].
      split; [reflexivity|]. split; [reflexivity|]. split; [reflexivity|].
      repeat split. }
  intros k g' I. cbn [In] in I.
  repeat match goal with
         | H : _ \/ _ |- _ => destruct H
         | H : False |- _ => destruct H
         end; subst k; cbn [Main.handle_input]; unfold Main.move_entity;
    (destruct (_ && _); [|intro E; injection E as <-; auto]);
    (destruct (Main.tile _ _ _) as [t|]; [|discriminate]); cbn [Py.bind];
    destruct (String.eqb t Main.FLOOR_CHAR); intro E; injection E as <-; auto.
Qed.

(** X18 on the crowded game: the key [e] fires up and to the right. *)
Lemma X18_a_diagonal_shot :
  exists p,
    Main.handle_input (Main.Char "e") Examples.crowded
    = Some (Main.player_shoot Examples.crowded 1 (-1))
    /\ Main.projectiles (Main.player_shoot Examples.crowded 1 (-1))
       = Main.projectiles Examples.crowded ++ [p]
    /\ Main.Projectile.x p = 5%Q /\ Main.Projectile.y p = 5%Q.
Proof.
  destruct (X18_keys_of_the_richer_game Examples.crowded)
    as (_ & _ & _ & K & _).
  destruct (K "e"%char 1 (-1) (Main.player_shoot Examples.crowded 1 (-1)))
    as (_ & _ & _ & _ & _ & P).
  - cbn [In Main.shot_keys]. tauto.
  - reflexivity.
  - destruct P as (p & P1 & P2 & P3 & _); [reflexivity|].
    exists p. split; [reflexivity|]. split; [exact P1|].
    split; [exact P2 | exact P3].
Defined.

